(** * raft-lite client core: leader cache, backoff and the submit/poll protocol

    A shallow embedding of [client/actions.go].  The client talks to the
    cluster through blocking RPCs and sleeps between retries, and its retry
    loops are unbounded, so every operation is an interaction tree over the
    events the Go code performs (RPC calls, random member selection,
    [time.Sleep], runtime panics).  The mutable [*ClientCore] receiver is
    threaded explicitly: an operation takes the core and returns the updated
    core together with its Go result. *)

From Stdlib Require Import ZArith List String Ascii Bool Lia Eqdep.
From ITree Require Import Axioms ITree ITreeFacts Interp.Traces.
Import ListNotations.
Import ITreeNotations.
Local Open Scope string_scope.
Local Open Scope list_scope.
Local Open Scope itree_scope.
Local Open Scope Z_scope.

Set Implicit Arguments.

(** ** Data model *)

(** [rpccore.NodeID] is a string type. *)
Definition NodeID := string.

(** Modelled from the spec: the declaration of the request identifier lives in
    package [sm], outside the sources at hand; the spec only asks for a value
    "comparable for equality" that identifies one logical submission. *)
Definition RequestID := N.

(** Go's [error] interface as used here: [nil], or an error whose only
    observable content is its message. *)
Definition error := option string.

(** Modelled from the spec: [sm.TSMAction], "an opaque, serializable
    state-machine mutation carrying a RequestID". *)
Record TSMAction := mkTSMAction {
  actionRequestID : RequestID;
  actionPayload : string
}.

Definition GetRequestID (act : TSMAction) : RequestID := actionRequestID act.

(** Modelled from the spec: [sm.TSMQuery], "either a domain query or the
    special latest request info query keyed by clientID". *)
Inductive TSMQuery :=
| TSMDataQuery (key : string)
| TSMLatestRequestQuery (clientID : string).

Definition NewTSMLatestRequestQuery (clientID : string) : TSMQuery :=
  TSMLatestRequestQuery clientID.

(** [sm.TSMRequestInfo]: the fields [ExecuteActionRequest] reads.  [Err] is a
    [*string]. *)
Record TSMRequestInfo := mkTSMRequestInfo {
  RequestId : RequestID;
  Err : option string
}.

(** A Go [interface{}] value, as far as [QueryRes.Data] is concerned: the nil
    interface, a [sm.TSMRequestInfo], or a value of some other dynamic type. *)
Inductive GoValue :=
| VNil
| VRequestInfo (info : TSMRequestInfo)
| VInt (n : Z)
| VOther (dynamicType : string).

Record LeaderRes := mkLeaderRes { HasLeader : bool; LeaderID : NodeID }.
Record ActionReq := mkActionReq { ActionCmd : TSMAction }.
Record ActionRes := mkActionRes { Started : bool }.
Record QueryReq := mkQueryReq { QueryCmd : TSMQuery }.
Record QueryRes := mkQueryRes {
  Success : bool;
  Data : GoValue;
  QueryErr : option string
}.

(** What [callRPC] hands back: a decoded response ([err == nil]) or a
    transport error. *)
Inductive RPCResult (T : Type) :=
| RPCOk (res : T)
| RPCErr (err : string).
Arguments RPCOk {T} res.
Arguments RPCErr {T} err.

(** [ClientCore], without the handles to the collaborators ([ActBuilder],
    [node], [logger]) that the retry logic never inspects. *)
Record ClientCore := mkClientCore {
  clientID : string;
  leaderID : option NodeID;
  nl : list NodeID;
  backOffDuration : Z
}.

Definition maxBackOffDuration : Z := 1600.
Definition initBackOffDuration : Z := 20.
Definition maxCheckCountBeforeRetry : Z := 6.

(** Go's [int] and [time.Duration] are 64-bit two's complement integers. *)
Definition wrap64 (z : Z) : Z := (z + 2 ^ 63) mod 2 ^ 64 - 2 ^ 63.

(** [time.Millisecond], in nanoseconds. *)
Definition Millisecond : Z := 1000000.

Definition NewClientCore (clientID : string) (nodeIDs : list NodeID) : ClientCore :=
  {| clientID := clientID;
     leaderID := None;
     nl := nodeIDs;
     backOffDuration := initBackOffDuration |}.

Definition set_leaderID (l : option NodeID) (core : ClientCore) : ClientCore :=
  {| clientID := clientID core;
     leaderID := l;
     nl := nl core;
     backOffDuration := backOffDuration core |}.

Definition set_backOffDuration (d : Z) (core : ClientCore) : ClientCore :=
  {| clientID := clientID core;
     leaderID := leaderID core;
     nl := nl core;
     backOffDuration := d |}.

(** ** Events *)

(** The interactions of the client with the world outside [actions.go]. *)
Variant clientE : Type -> Type :=
| Random (lo hi : Z) : clientE Z
| CallLeader (target : NodeID) : clientE (RPCResult LeaderRes)
| CallAction (target : NodeID) (req : ActionReq) : clientE (RPCResult ActionRes)
| CallQuery (target : NodeID) (req : QueryReq) : clientE (RPCResult QueryRes)
| Sleep (nanos : Z) : clientE unit
| Panic (reason : string) : clientE Empty_set.

(** Modelled from the spec: [utils.Random(min, max)], the random pick of a
    cluster member; the number comes from the environment. *)
Definition utils_Random (lo hi : Z) : itree clientE Z := ITree.trigger (Random lo hi).

(** Modelled from the spec: [utils.Min], as in "current = min(current * 2,
    ceiling)". *)
Definition utils_Min (a b : Z) : Z := Z.min a b.

(** The messages of the two runtime panics the code can raise. *)
Definition index_out_of_range : string := "index out of range".
Definition not_a_request_info : string :=
  "interface conversion: interface {} is not sm.TSMRequestInfo".

(** A runtime panic: the goroutine never continues. *)
Definition panic {A : Type} (reason : string) : itree clientE A :=
  Vis (Panic reason) (fun v : Empty_set => match v with end).

(** [s[i]] on a slice: a panic when the index is out of range. *)
Definition slice_index (s : list NodeID) (i : Z) : itree clientE NodeID :=
  if (i <? 0) || (Z.of_nat (List.length s) <=? i)
  then panic index_out_of_range
  else match nth_error s (Z.to_nat i) with
       | Some x => Ret x
       | None => panic index_out_of_range
       end.

(** Modelled from the spec: [callRPC(core, target, method, payload, &res)]
    is "sendRPC(target, method, payload) -> (response, error)", blocking; one
    event per RPC method, answered by the transport. *)
Definition callRPC_LeaderRequest (target : NodeID) : itree clientE (RPCResult LeaderRes) :=
  ITree.trigger (CallLeader target).
Definition callRPC_ActionRequest (target : NodeID) (req : ActionReq)
  : itree clientE (RPCResult ActionRes) :=
  ITree.trigger (CallAction target req).
Definition callRPC_QueryRequest (target : NodeID) (req : QueryReq)
  : itree clientE (RPCResult QueryRes) :=
  ITree.trigger (CallQuery target req).

Definition time_Sleep (d : Z) : itree clientE unit := ITree.trigger (Sleep d).

(** ** The operations of [actions.go] *)

Definition resetBackOffDuration (core : ClientCore) : ClientCore :=
  set_backOffDuration initBackOffDuration core.

(** [logErrAndBackoff]: the message and the error only go to the debug log,
    which is not modelled. *)
Definition logErrAndBackoff (msg : string) (err : error) (core : ClientCore)
  : itree clientE ClientCore :=
  let core := set_leaderID None core in
  time_Sleep (wrap64 (backOffDuration core * Millisecond)) ;;
  Ret (set_backOffDuration
         (utils_Min maxBackOffDuration (wrap64 (backOffDuration core * 2))) core).

(** One turn of the [for core.leaderID == nil] loop. *)
Definition lookForLeader_body (core : ClientCore)
  : itree clientE (ClientCore + ClientCore * NodeID) :=
  match leaderID core with
  | Some l => Ret (inr (core, l))
  | None =>
      r <- utils_Random 0 (Z.of_nat (List.length (nl core)) - 1) ;;
      pl <- slice_index (nl core) r ;;
      res <- callRPC_LeaderRequest pl ;;
      match res with
      | RPCOk leaderRes =>
          if HasLeader leaderRes then
            let core := set_leaderID (Some (LeaderID leaderRes)) core in
            let core := resetBackOffDuration core in
            Ret (inr (core, LeaderID leaderRes))
          else
            let err := Some ("Node " ++ pl ++ " doesn't know the leader.")%string in
            core <- logErrAndBackoff "Unable to find leader. " err core ;;
            Ret (inl core)
      | RPCErr e =>
          core <- logErrAndBackoff "Unable to find leader. " (Some e) core ;;
          Ret (inl core)
      end
  end.

Definition lookForLeader (core : ClientCore) : itree clientE (ClientCore * NodeID) :=
  ITree.iter lookForLeader_body core.

Definition sendActionRequest (actReq : ActionReq) (core : ClientCore)
  : itree clientE (ClientCore * error) :=
  '(core, leader) <- lookForLeader core ;;
  res <- callRPC_ActionRequest leader actReq ;;
  match res with
  | RPCOk actionRes =>
      if negb (Started actionRes)
      then Ret (core, Some ("Node " ++ leader ++ " declined the request.")%string)
      else Ret (core, None)
  | RPCErr e => Ret (core, Some e)
  end.

Definition checkActionRequest (queryReq : QueryReq) (core : ClientCore)
  : itree clientE (ClientCore * (option TSMRequestInfo * error)) :=
  '(core, leader) <- lookForLeader core ;;
  res <- callRPC_QueryRequest leader queryReq ;;
  match res with
  | RPCOk queryRes =>
      if Success queryRes then
        match QueryErr queryRes with
        | None =>
            match Data queryRes with
            | VRequestInfo info => Ret (core, (Some info, None))
            | _ => panic not_a_request_info
            end
        | Some _ => Ret (core, (None, None))
        end
      else Ret (core, (None, Some ("Node " ++ leader ++ " decliend the query request.")%string))
  | RPCErr e => Ret (core, (None, Some e))
  end.

(** [info != nil && info.RequestID == reqID] *)
Definition matches (reqID : RequestID) (info : option TSMRequestInfo) : bool :=
  match info with
  | Some inf => N.eqb (RequestId inf) reqID
  | None => false
  end.

(** One turn of [for i := 0; i < maxCheckCountBeforeRetry; i++].  The turn
    either goes on with the next [i], leaves the loop ([None]), or returns
    from [ExecuteActionRequest] ([Some (ok, msg)]). *)
Definition checkLoop_body (queryReq : QueryReq) (reqID : RequestID)
           (st : Z * ClientCore)
  : itree clientE (Z * ClientCore + ClientCore * option (bool * string)) :=
  let '(i, core) := st in
  if i <? maxCheckCountBeforeRetry then
    '(core, (info, err)) <- checkActionRequest queryReq core ;;
    core <- match err with
            | Some _ => logErrAndBackoff "check action request failed. " err core
            | None => Ret core
            end ;;
    if matches reqID info then
      let core := resetBackOffDuration core in
      match info with
      | Some {| Err := Some msg |} => Ret (inr (core, Some (false, msg)))
      | _ => Ret (inr (core, Some (true, "action success")))
      end
    else
      core <- match err with
              | None => logErrAndBackoff "info is nil or wrong request ID" err core
              | Some _ => Ret core
              end ;;
      Ret (inl (wrap64 (i + 1), core))
  else Ret (inr (core, None)).

Definition checkLoop (queryReq : QueryReq) (reqID : RequestID) (core : ClientCore)
  : itree clientE (ClientCore * option (bool * string)) :=
  ITree.iter (checkLoop_body queryReq reqID) (0, core).

(** One turn of the outer [for] of [ExecuteActionRequest]. *)
Definition ExecuteActionRequest_body (actReq : ActionReq) (queryReq : QueryReq)
           (reqID : RequestID) (core : ClientCore)
  : itree clientE (ClientCore + ClientCore * (bool * string)) :=
  '(core, err) <- sendActionRequest actReq core ;;
  match err with
  | Some _ =>
      core <- logErrAndBackoff "send action request failed. " err core ;;
      Ret (inl core)
  | None =>
      let core := resetBackOffDuration core in
      '(core, out) <- checkLoop queryReq reqID core ;;
      match out with
      | Some res => Ret (inr (core, res))
      | None => Ret (inl core)
      end
  end.

Definition ExecuteActionRequest (act : TSMAction) (core : ClientCore)
  : itree clientE (ClientCore * (bool * string)) :=
  let actReq := {| ActionCmd := act |} in
  let queryReq := {| QueryCmd := NewTSMLatestRequestQuery (clientID core) |} in
  let reqID := GetRequestID act in
  ITree.iter (ExecuteActionRequest_body actReq queryReq reqID) core.

(** One turn of the [for] of [ExecuteQueryRequest]; the result is the pair
    [(interface{}, error)]. *)
Definition ExecuteQueryRequest_body (queryReq : QueryReq) (core : ClientCore)
  : itree clientE (ClientCore + ClientCore * (GoValue * error)) :=
  '(core, leader) <- lookForLeader core ;;
  res <- callRPC_QueryRequest leader queryReq ;;
  let retry (err : error) :=
    match err with
    | Some _ =>
        core <- logErrAndBackoff "Request query failed. " err core ;;
        Ret (inl core)
    | None => Ret (inl core)
    end in
  match res with
  | RPCOk queryRes =>
      if Success queryRes then
        let core := resetBackOffDuration core in
        match QueryErr queryRes with
        | None => Ret (inr (core, (Data queryRes, None)))
        | Some msg => Ret (inr (core, (VNil, Some msg)))
        end
      else retry (Some ("Node " ++ leader ++ " decliend the query request.")%string)
  | RPCErr e => retry (Some e)
  end.

Definition ExecuteQueryRequest (query : TSMQuery) (core : ClientCore)
  : itree clientE (ClientCore * (GoValue * error)) :=
  let queryReq := {| QueryCmd := query |} in
  ITree.iter (ExecuteQueryRequest_body queryReq) core.

(** ** Observable behaviour *)

(** A completed interaction: the call together with the answer it got. *)
Inductive Event :=
| EvRandom (lo hi : Z) (r : Z)
| EvLeader (target : NodeID) (res : RPCResult LeaderRes)
| EvAction (target : NodeID) (req : ActionReq) (res : RPCResult ActionRes)
| EvQuery (target : NodeID) (req : QueryReq) (res : RPCResult QueryRes)
| EvSleep (nanos : Z).

(** A call that has been issued and not answered; a panic is never answered. *)
Inductive Call :=
| CRandom (lo hi : Z)
| CLeader (target : NodeID)
| CAction (target : NodeID) (req : ActionReq)
| CQuery (target : NodeID) (req : QueryReq)
| CSleep (nanos : Z)
| CPanic (reason : string).

(** How an observation of a run ends: it stops while the program is still
    running, it stops at a call that has no answer yet, or the program has
    returned. *)
Inductive Ending (R : Type) :=
| Running
| Blocked (c : Call)
| Returned (r : R).
Arguments Running {R}.
Arguments Blocked {R} c.
Arguments Returned {R} r.

Definition call_of {X : Type} (e : clientE X) : Call :=
  match e with
  | Random lo hi => CRandom lo hi
  | CallLeader t => CLeader t
  | CallAction t req => CAction t req
  | CallQuery t req => CQuery t req
  | Sleep d => CSleep d
  | Panic reason => CPanic reason
  end.

Definition event_of {X : Type} (e : clientE X) : X -> Event :=
  match e in clientE X return X -> Event with
  | Random lo hi => fun r => EvRandom lo hi r
  | CallLeader t => fun res => EvLeader t res
  | CallAction t req => fun res => EvAction t req res
  | CallQuery t req => fun res => EvQuery t req res
  | Sleep d => fun _ => EvSleep d
  | Panic _ => fun v => match v with end
  end.

(** The events of a trace, in order, and the way it ends. *)
Fixpoint events {R : Type} (tr : @trace clientE R) : list Event :=
  match tr with
  | TEventResponse e x tr' => event_of e x :: events tr'
  | _ => []
  end.

Fixpoint ending {R : Type} (tr : @trace clientE R) : Ending R :=
  match tr with
  | TEnd => Running
  | TRet r => Returned r
  | TEventEnd e => Blocked (call_of e)
  | TEventResponse _ _ tr' => ending tr'
  end.

(** [sat t P]: every observation of [t] satisfies [P]. *)
Definition sat {R : Type} (t : itree clientE R)
           (P : list Event -> Ending R -> Prop) : Prop :=
  forall tr, is_trace t tr -> P (events tr) (ending tr).

(** [can t l o]: [t] has an observation with events [l] that ends in [o]. *)
Definition can {R : Type} (t : itree clientE R) (l : list Event) (o : Ending R) : Prop :=
  exists tr, is_trace t tr /\ events tr = l /\ ending tr = o.

(** ** Trace rules for the combinators *)

Section TraceRules.

Context {R : Type}.

Lemma is_trace_ret_inv (r : R) (tr : @trace clientE R) :
  is_trace (Ret r) tr -> tr = TEnd \/ tr = TRet r.
Proof.
  unfold is_trace; cbn. intros H. inversion H; auto.
Qed.

Lemma is_trace_vis_inv {X} (e : clientE X) (k : X -> itree clientE R) tr :
  is_trace (Vis e k) tr ->
  tr = TEnd \/ tr = TEventEnd e \/
  exists x tr', tr = TEventResponse e x tr' /\ is_trace (k x) tr'.
Proof.
  unfold is_trace; cbn. intros H. inversion H; subst; auto.
  - right; left. ddestruction. reflexivity.
  - right; right. ddestruction. eauto.
Qed.

Lemma is_trace_tau_inv (t : itree clientE R) tr :
  is_trace (Tau t) tr -> is_trace t tr.
Proof.
  unfold is_trace; cbn. intros H. inversion H; subst; auto. constructor.
Qed.

Lemma sat_ret (r : R) (P : list Event -> Ending R -> Prop) :
  P [] Running -> P [] (Returned r) -> sat (Ret r) P.
Proof.
  intros H1 H2 tr Htr. destruct (is_trace_ret_inv Htr); subst; assumption.
Qed.

Lemma sat_vis {X} (e : clientE X) (k : X -> itree clientE R)
      (P : list Event -> Ending R -> Prop) :
  P [] Running -> P [] (Blocked (call_of e)) ->
  (forall x, sat (k x) (fun l o => P (event_of e x :: l) o)) ->
  sat (Vis e k) P.
Proof.
  intros H1 H2 H3 tr Htr.
  destruct (is_trace_vis_inv Htr) as [-> | [-> | (x & tr' & -> & Htr')]]; cbn; auto.
  apply (H3 x tr' Htr').
Qed.

Lemma sat_tau (t : itree clientE R) P : sat t P -> sat (Tau t) P.
Proof.
  intros H tr Htr. apply H. now apply is_trace_tau_inv.
Qed.

Lemma sat_weaken (t : itree clientE R) (P Q : list Event -> Ending R -> Prop) :
  sat t P -> (forall l o, P l o -> Q l o) -> sat t Q.
Proof.
  intros H HPQ tr Htr. apply HPQ, H, Htr.
Qed.

(** Stepping a tree keeps [sat], with the event moved into the postcondition. *)
Lemma sat_step_tau (t t' : itree clientE R) P :
  observe t = TauF t' -> sat t P -> sat t' P.
Proof.
  intros Hobs H tr Htr. apply H. unfold is_trace in *. rewrite Hobs. now constructor.
Qed.

Lemma sat_step_vis {X} (t : itree clientE R) (e : clientE X) k P (x : X) :
  observe t = VisF e k -> sat t P -> sat (k x) (fun l o => P (event_of e x :: l) o).
Proof.
  intros Hobs H tr Htr.
  specialize (H (TEventResponse e x tr)). cbn in H. apply H.
  unfold is_trace in *. rewrite Hobs. now constructor.
Qed.

End TraceRules.

Lemma observe_bind_cases {E A B} (t : itree E A) (k : A -> itree E B) :
  observe (ITree.bind t k) =
  match observe t with
  | RetF r => observe (k r)
  | TauF t' => TauF (ITree.bind t' k)
  | VisF e h => VisF e (fun x => ITree.bind (h x) k)
  end.
Proof. rewrite observe_bind. destruct (observe t); reflexivity. Qed.

Ltac inv_vis H :=
  apply eq_inv_VisF_weak in H;
  let p := fresh "p" in
  let He := fresh "He" in
  let Hk := fresh "Hk" in
  destruct H as (p & He & Hk); destruct p; cbn in He, Hk; subst.


Section BindRules.
Context {A R : Type}.
Lemma is_trace_bind_inv (t : itree clientE A) (k : A -> itree clientE R) tr :
  is_trace (ITree.bind t k) tr ->
  (exists tr1, is_trace t tr1 /\ events tr = events tr1 /\
     ((ending tr1 = Running /\ ending tr = Running) \/
      exists c, ending tr1 = Blocked c /\ ending tr = Blocked c)) \/
  (exists tr1 a tr2, is_trace t tr1 /\ ending tr1 = Returned a /\
     is_trace (k a) tr2 /\ events tr = events tr1 ++ events tr2 /\
     ending tr = ending tr2).
Proof.
  unfold is_trace. intros H.
  remember (observe (ITree.bind t k)) as ot eqn:Hot.
  revert t Hot.
  induction H; intros u Hot; rewrite observe_bind_cases in Hot.
  - left. exists TEnd. split; [constructor|]. cbn. auto.
  - destruct (observe u) eqn:Hu; try discriminate.
    right. exists (TRet r0), r0, (TRet r). cbn. rewrite <- Hot.
    repeat split; constructor.
  - destruct (observe u) eqn:Hu; try discriminate.
    + right. exists (TRet r), r, tr. cbn. rewrite <- Hot.
      repeat split; constructor; auto.
    + inversion Hot; subst t. destruct (IHis_traceF t0 eq_refl) as [(tr1 & H1 & H2 & H3) | (tr1 & a & tr2 & H1 & H2 & H3 & H4 & H5)].
      * left. exists tr1. repeat split; auto. now constructor.
      * right. exists tr1, a, tr2. repeat split; auto. now constructor.
  - destruct (observe u) eqn:Hu; try discriminate.
    + right. exists (TRet r), r, (TEventEnd e). cbn. rewrite <- Hot.
      repeat split; constructor.
    + inv_vis Hot. left. eexists (TEventEnd _). cbn. split; [constructor | split; [reflexivity | right; eauto]].
  - destruct (observe u) eqn:Hu; try discriminate.
    + right. exists (TRet r), r, (TEventResponse e x tr). cbn. rewrite <- Hot.
      repeat split; constructor; auto.
    + inv_vis Hot. destruct (IHis_traceF (k1 x) eq_refl) as [(tr1 & H1 & H2 & H3) | (tr1 & a & tr2 & H1 & H2 & H3 & H4 & H5)].
      * left. eexists (TEventResponse _ x tr1). cbn. split; [now constructor | split; [now rewrite H2 | exact H3]].
      * right. eexists (TEventResponse _ x tr1), a, tr2. cbn. split; [now constructor | rewrite H4; auto].
Qed.

Lemma sat_bind (t : itree clientE A) (k : A -> itree clientE R)
      (Q : list Event -> Ending A -> Prop) (P : list Event -> Ending R -> Prop) :
  sat t Q ->
  (forall l, Q l Running -> P l Running) ->
  (forall l c, Q l (Blocked c) -> P l (Blocked c)) ->
  (forall l a, Q l (Returned a) -> sat (k a) (fun l' o => P (l ++ l') o)) ->
  sat (ITree.bind t k) P.
Proof.
  intros Ht Hrun Hblk Hret tr Htr.
  destruct (is_trace_bind_inv _ _ Htr)
    as [(tr1 & H1 & -> & [[E1 ->] | (c & E1 & ->)])
       | (tr1 & a & tr2 & H1 & E1 & H2 & -> & ->)].
  - apply Hrun. rewrite <- E1. apply Ht, H1.
  - apply Hblk. rewrite <- E1. apply Ht, H1.
  - apply (Hret (events tr1) a); [rewrite <- E1; apply Ht, H1 | exact H2].
Qed.

End BindRules.

Section IterRule.
Context {I R : Type}.
Variable body : I -> itree clientE (I + R).
Variable Inv : I -> list Event -> Prop.
Variable P : list Event -> Ending R -> Prop.

Definition iter_post (l : list Event) : list Event -> Ending (I + R) -> Prop :=
  fun l' o =>
    match o with
    | Running => P (l ++ l') Running
    | Blocked c => P (l ++ l') (Blocked c)
    | Returned (inl j) => Inv j (l ++ l')
    | Returned (inr r) => P (l ++ l') (Returned r)
    end.

Hypothesis Hbody : forall i l, Inv i l -> sat (body i) (iter_post l).

Let kont := fun lr : I + R =>
  match lr with inl l => Tau (ITree.iter body l) | inr r => Ret r end.

Lemma sat_iter_gen ot tr :
  is_traceF ot tr ->
  forall t' l, ot = observe (ITree.bind t' kont) -> sat t' (iter_post l) ->
  P (l ++ events tr) (ending tr).
Proof.
  induction 1; intros t' l Hot Hsat; rewrite observe_bind_cases in Hot; cbn.
  - apply (Hsat TEnd). constructor.
  - destruct (observe t') as [lr | |] eqn:Ht'; try discriminate.
    destruct lr as [j | r']; cbn in Hot; try discriminate.
    inversion Hot; subst r'.
    apply (Hsat (TRet (inr r))). unfold is_trace. rewrite Ht'. constructor.
  - destruct (observe t') as [lr | t1 |] eqn:Ht'; try discriminate.
    + destruct lr as [j | r']; cbn in Hot; try discriminate.
      inversion Hot; subst t.
      apply (IHis_traceF (body j) l).
      * reflexivity.
      * apply Hbody. specialize (Hsat (TRet (inl j))). cbn in Hsat.
        rewrite app_nil_r in Hsat. apply Hsat. unfold is_trace. rewrite Ht'. constructor.
    + inversion Hot; subst t.
      apply (IHis_traceF t1 l eq_refl).
      eapply sat_step_tau; eauto.
  - destruct (observe t') as [lr | | X' e' k'] eqn:Ht'; try discriminate.
    + destruct lr; discriminate.
    + inv_vis Hot.
      apply (Hsat (TEventEnd e')). unfold is_trace. rewrite Ht'. constructor.
  - destruct (observe t') as [lr | | X' e' k'] eqn:Ht'; try discriminate.
    + destruct lr; discriminate.
    + inv_vis Hot.
      replace (l ++ event_of e' x :: events tr) with ((l ++ [event_of e' x]) ++ events tr)
        by (rewrite <- app_assoc; reflexivity).
      apply (IHis_traceF (k' x) (l ++ [event_of e' x]) eq_refl).
      eapply sat_weaken.
      * eapply sat_step_vis; eauto.
      * intros l' o. unfold iter_post. rewrite <- app_assoc. cbn. auto.
Qed.

Lemma sat_iter i l :
  Inv i l -> sat (ITree.iter body i) (fun l' o => P (l ++ l') o).
Proof.
  intros Hi tr Htr.
  apply (@sat_iter_gen _ tr Htr (body i) l eq_refl).
  apply Hbody, Hi.
Qed.
End IterRule.

Ltac inj_existT :=
  repeat match goal with
         | H : existT _ _ _ = existT _ _ _ |- _ => apply inj_pair2 in H
         end; subst.

Lemma event_of_inj {X} (e : clientE X) (x y : X) :
  event_of e x = event_of e y -> x = y.
Proof.
  destruct e; cbn; intros H; try (inversion H; reflexivity).
  - destruct x, y; reflexivity.
  - destruct x.
Qed.

Section Can.
Context {R : Type}.

Lemma can_running (t : itree clientE R) : can t [] Running.
Proof. exists TEnd. repeat split. constructor. Qed.

Lemma can_ret (r : R) : can (Ret r) [] (Returned r).
Proof. exists (TRet r). repeat split. constructor. Qed.

Lemma can_vis_blocked {X} (e : clientE X) (k : X -> itree clientE R) :
  can (Vis e k) [] (Blocked (call_of e)).
Proof. exists (TEventEnd e). repeat split. constructor. Qed.

Lemma can_vis {X} (e : clientE X) (k : X -> itree clientE R) x l o :
  can (k x) l o -> can (Vis e k) (event_of e x :: l) o.
Proof.
  intros (tr & H & <- & <-). exists (TEventResponse e x tr). repeat split.
  unfold is_trace; cbn. now constructor.
Qed.

Lemma can_tau (t : itree clientE R) l o : can t l o -> can (Tau t) l o.
Proof.
  intros (tr & H & <- & <-). exists tr. repeat split.
  unfold is_trace; cbn. now constructor.
Qed.

Lemma can_observe (t u : itree clientE R) l o :
  observe t = observe u -> can u l o -> can t l o.
Proof.
  intros E (tr & H & <- & <-). exists tr. repeat split.
  unfold is_trace in *. now rewrite E.
Qed.

End Can.

Section CanBind.
Context {A R : Type}.
Variable k : A -> itree clientE R.

Lemma can_bind_gen ot (tr1 : @trace clientE A) :
  is_traceF ot tr1 ->
  forall t, ot = observe t ->
  match ending tr1 with
  | Running => can (ITree.bind t k) (events tr1) Running
  | Blocked c => can (ITree.bind t k) (events tr1) (Blocked c)
  | Returned a => forall l o, can (k a) l o -> can (ITree.bind t k) (events tr1 ++ l) o
  end.
Proof.
  induction 1; intros u Hu; cbn.
  - apply can_running.
  - intros l o Hk. eapply can_observe; [|exact Hk].
    rewrite observe_bind_cases, <- Hu. reflexivity.
  - specialize (IHis_traceF t eq_refl).
    assert (E : observe (ITree.bind u k) = observe (Tau (ITree.bind t k)))
      by (rewrite observe_bind_cases, <- Hu; reflexivity).
    destruct (ending tr); [| |intros l o Hk];
      (eapply can_observe; [exact E|]); apply can_tau; auto.
  - apply can_observe with (u := Vis e (fun x => ITree.bind (k0 x) k)).
    + rewrite observe_bind_cases, <- Hu; reflexivity.
    + apply can_vis_blocked.
  - specialize (IHis_traceF (k0 x) eq_refl).
    assert (E : observe (ITree.bind u k) = observe (Vis e (fun x => ITree.bind (k0 x) k)))
      by (rewrite observe_bind_cases, <- Hu; reflexivity).
    destruct (ending tr); [| |intros l o Hk];
      (eapply can_observe; [exact E|]); cbn; apply can_vis; auto.
Qed.

Lemma can_bind (t : itree clientE A) l1 a l2 o :
  can t l1 (Returned a) -> can (k a) l2 o -> can (ITree.bind t k) (l1 ++ l2) o.
Proof.
  intros (tr1 & H1 & <- & E1) H2.
  generalize (can_bind_gen H1 t eq_refl). rewrite E1. auto.
Qed.

Lemma can_bind_blocked (t : itree clientE A) l c :
  can t l (Blocked c) -> can (ITree.bind t k) l (Blocked c).
Proof.
  intros (tr1 & H1 & <- & E1).
  generalize (can_bind_gen H1 t eq_refl). rewrite E1. auto.
Qed.
End CanBind.

Section CanIter.
Context {I R : Type}.
Variable body : I -> itree clientE (I + R).

Lemma can_iter_continue i l1 j l2 o :
  can (body i) l1 (Returned (inl j)) -> can (ITree.iter body j) l2 o ->
  can (ITree.iter body i) (l1 ++ l2) o.
Proof.
  intros H1 H2.
  eapply can_observe; [apply (observing_observe (unfold_aloop_ body i))|].
  eapply can_bind; [exact H1|]. cbn. apply can_tau, H2.
Qed.

Lemma can_iter_exit i l r :
  can (body i) l (Returned (inr r)) -> can (ITree.iter body i) l (Returned r).
Proof.
  intros H1.
  eapply can_observe; [apply (observing_observe (unfold_aloop_ body i))|].
  rewrite <- (app_nil_r l).
  eapply can_bind; [exact H1|]. cbn. apply can_ret.
Qed.

Lemma can_iter_blocked i l c :
  can (body i) l (Blocked c) -> can (ITree.iter body i) l (Blocked c).
Proof.
  intros H1.
  eapply can_observe; [apply (observing_observe (unfold_aloop_ body i))|].
  now apply can_bind_blocked.
Qed.
End CanIter.

(** [productive t]: [t] never runs silently for ever; an observation that
    stopped while [t] was running extends, without a further event, to a call
    or to the return. *)
Definition productive {R : Type} (t : itree clientE R) : Prop :=
  forall tr, is_trace t tr -> ending tr = Running ->
  exists o, o <> Running /\ can t (events tr) o.

Section Productive.
Context {R : Type}.

Lemma productive_ret (r : R) : productive (Ret r).
Proof.
  intros tr Htr _. destruct (is_trace_ret_inv Htr) as [-> | ->]; cbn;
    exists (Returned r); (split; [discriminate | apply can_ret]).
Qed.

Lemma productive_step_tau (t t' : itree clientE R) :
  observe t = TauF t' -> productive t -> productive t'.
Proof.
  intros Hobs Hp tr Htr Hend.
  destruct (Hp tr) as (o & Ho & tr' & Htr' & Hev & Hen); auto.
  { unfold is_trace in *. rewrite Hobs. now constructor. }
  exists o. split; auto. exists tr'. repeat split; auto.
  unfold is_trace in *. rewrite Hobs in Htr'.
  inversion Htr'; subst; auto. cbn in Ho. congruence.
Qed.

Lemma productive_step_vis {X} (t : itree clientE R) (e : clientE X) k (x : X) :
  observe t = VisF e k -> productive t -> productive (k x).
Proof.
  intros Hobs Hp tr Htr Hend.
  destruct (Hp (TEventResponse e x tr)) as (o & Ho & tr' & Htr' & Hev & Hen); auto.
  { unfold is_trace in *. rewrite Hobs. now constructor. }
  exists o. split; auto.
  unfold is_trace in Htr'. rewrite Hobs in Htr'.
  inversion Htr'; subst; cbn in *; try discriminate.
  inj_existT. injection Hev as Hx Hl.
  apply event_of_inj in Hx. subst x0.
  exists tr0. repeat split; auto.
Qed.

Lemma productive_observe (t u : itree clientE R) :
  observe t = observe u -> productive u -> productive t.
Proof.
  intros E Hp tr Htr Hend.
  destruct (Hp tr) as (o & Ho & Hc); auto.
  { unfold is_trace in *. now rewrite <- E. }
  exists o. split; auto. eapply can_observe; eauto.
Qed.

Lemma productive_vis {X} (e : clientE X) (k : X -> itree clientE R) :
  (forall x, productive (k x)) -> productive (Vis e k).
Proof.
  intros Hk tr Htr Hend.
  destruct (is_trace_vis_inv Htr) as [-> | [-> | (x & tr' & -> & Htr')]]; cbn in *.
  - exists (Blocked (call_of e)). split; [discriminate | apply can_vis_blocked].
  - discriminate.
  - destruct (Hk x tr' Htr' Hend) as (o & Ho & Hc).
    exists o. split; auto. now apply can_vis.
Qed.

Lemma productive_tau (t : itree clientE R) : productive t -> productive (Tau t).
Proof.
  intros Hp tr Htr Hend. apply is_trace_tau_inv in Htr.
  destruct (Hp tr Htr Hend) as (o & Ho & Hc).
  exists o. split; auto. now apply can_tau.
Qed.

End Productive.

Lemma productive_bind {A R} (t : itree clientE A) (k : A -> itree clientE R) :
  productive t -> (forall a, productive (k a)) -> productive (ITree.bind t k).
Proof.
  intros Ht Hk tr Htr Hend.
  destruct (is_trace_bind_inv _ _ Htr)
    as [(tr1 & H1 & E & [[E1 _] | (c & _ & E2)])
       | (tr1 & a & tr2 & H1 & E1 & H2 & E & E2)].
  - destruct (Ht tr1 H1 E1) as (o & Ho & Hc). rewrite E.
    destruct o as [| c | a]; [congruence | |].
    + exists (Blocked c). split; [discriminate | now apply can_bind_blocked].
    + destruct (Hk a TEnd) as (o & Ho' & Hc'); [constructor | reflexivity |].
      exists o. split; auto. cbn in Hc'.
      rewrite <- (app_nil_r (events tr1)). eapply can_bind; eauto.
  - congruence.
  - rewrite E2 in Hend. destruct (Hk a tr2 H2 Hend) as (o & Ho & Hc).
    exists o. split; auto. rewrite E. eapply can_bind; eauto.
    exists tr1. auto.
Qed.

Section ProductiveIter.
Context {I R : Type}.
Variable body : I -> itree clientE (I + R).
Hypothesis Hbody : forall i, productive (body i).
Hypothesis Hguard :
  forall i, sat (body i) (fun l o => forall j, o = Returned (inl j) -> l <> []).

Let kont := fun lr : I + R =>
  match lr with inl l => Tau (ITree.iter body l) | inr r => Ret r end.

(* a fresh turn of the loop cannot come round silently *)
Lemma iter_fresh j : exists o, o <> Running /\ can (ITree.iter body j) [] o.
Proof.
  destruct (Hbody (i := j) (tr := TEnd)) as (o & Ho & Hc); [constructor | reflexivity |].
  cbn in Hc. destruct o as [| c | [j' | r]]; [congruence | | |].
  - exists (Blocked c). split; [discriminate | now apply can_iter_blocked].
  - destruct Hc as (tr' & Htr' & Hev & Hen).
    exfalso. apply (Hguard Htr' (j := j')); auto.
  - exists (Returned r). split; [discriminate | now apply can_iter_exit].
Qed.

Lemma productive_iter_gen ot (tr : @trace clientE R) :
  is_traceF ot tr -> ending tr = Running ->
  forall t', ot = observe (ITree.bind t' kont) -> productive t' ->
  exists o, o <> Running /\ can (ITree.bind t' kont) (events tr) o.
Proof.
  induction 1; intros Hend t' Hot Hp; cbn in *; try discriminate.
  - destruct (Hp TEnd) as (o1 & Ho1 & Hc1); [constructor | reflexivity |].
    cbn in Hc1. destruct o1 as [| c | [j | r]]; [congruence | | |].
    + exists (Blocked c). split; [discriminate | now apply can_bind_blocked].
    + destruct (iter_fresh j) as (o & Ho & Hc).
      exists o. split; auto.
      change (@nil Event) with (@nil Event ++ []).
      eapply can_bind; [exact Hc1|]. cbn. now apply can_tau.
    + exists (Returned r). split; [discriminate|].
      change (@nil Event) with (@nil Event ++ []).
      eapply can_bind; [exact Hc1|]. cbn. apply can_ret.
  - rewrite observe_bind_cases in Hot.
    destruct (observe t') as [[j | r] | t1 |] eqn:Ht'; cbn in Hot; try discriminate.
    + inversion Hot; subst t.
      destruct (IHis_traceF Hend (body j) eq_refl (@Hbody j)) as (o & Ho & Hc).
      exists o. split; auto.
      apply can_observe with (u := Tau (ITree.iter body j)).
      { rewrite observe_bind_cases, Ht'. reflexivity. }
      apply can_tau. eapply can_observe; [|exact Hc]. reflexivity.
    + inversion Hot; subst t.
      destruct (IHis_traceF Hend t1 eq_refl) as (o & Ho & Hc).
      { eapply productive_step_tau; eauto. }
      exists o. split; auto.
      apply can_observe with (u := Tau (ITree.bind t1 kont)).
      { rewrite observe_bind_cases, Ht'. reflexivity. }
      now apply can_tau.
  - rewrite observe_bind_cases in Hot.
    destruct (observe t') as [[j | r] | | X' e' k'] eqn:Ht'; cbn in Hot; try discriminate.
    inv_vis Hot.
    destruct (IHis_traceF Hend (k' x) eq_refl) as (o & Ho & Hc).
    { eapply productive_step_vis; eauto. }
    exists o. split; auto.
    apply can_observe with (u := Vis e' (fun x => ITree.bind (k' x) kont)).
    { rewrite observe_bind_cases, Ht'. reflexivity. }
    now apply can_vis.
Qed.

Lemma productive_iter i : productive (ITree.iter body i).
Proof.
  intros tr Htr Hend.
  destruct (@productive_iter_gen _ _ Htr Hend (body i) eq_refl (@Hbody i)) as (o & Ho & Hc).
  exists o. split; [exact Ho | exact Hc].
Qed.
End ProductiveIter.

(** [eventful t]: [t] does not return before it has performed an event. *)
Definition eventful {R : Type} (t : itree clientE R) : Prop :=
  sat t (fun l o => forall r, o = Returned r -> l <> []).

Lemma eventful_vis {R X} (e : clientE X) (k : X -> itree clientE R) :
  eventful (Vis e k).
Proof.
  intros tr Htr r Hr.
  destruct (is_trace_vis_inv Htr) as [-> | [-> | (x & tr' & -> & _)]]; cbn in *;
    discriminate.
Qed.

Lemma eventful_bind_l {A R} (t : itree clientE A) (k : A -> itree clientE R) :
  eventful t -> eventful (ITree.bind t k).
Proof.
  intros Ht. apply sat_bind with (Q := fun l o => forall r, o = Returned r -> l <> []).
  - exact Ht.
  - discriminate.
  - discriminate.
  - intros l a Hl tr _ r _ E. apply app_eq_nil in E. destruct E as [E _].
    exact (Hl a eq_refl E).
Qed.

Lemma eventful_bind_r {A R} (t : itree clientE A) (k : A -> itree clientE R) :
  (forall a, eventful (k a)) -> eventful (ITree.bind t k).
Proof.
  intros Hk. apply sat_bind with (Q := fun _ _ => True).
  - intros tr _. exact I.
  - discriminate.
  - discriminate.
  - intros l a _ tr Htr r Hr E. apply app_eq_nil in E. destruct E as [_ E].
    exact (Hk a tr Htr r Hr E).
Qed.

(** ** The protocol as a state machine over events

    The control points of the operations between two events, with the
    [ClientCore] as it stands there.  Every observation of an operation is a
    run of this machine (the simulation lemmas below), so what holds of the
    machine's runs holds of the operation. *)

(** What one [ExecuteActionRequest] keeps fixed across its retries. *)
Record Job := mkJob {
  jobAction : ActionReq;
  jobPoll : QueryReq;
  jobID : RequestID
}.

(** On whose behalf [lookForLeader] runs, and what follows it. *)
Inductive Mode :=
| Lookup                      (* [lookForLeader] on its own *)
| Check (q : QueryReq)        (* [checkActionRequest] on its own *)
| Submit (j : Job)            (* [ExecuteActionRequest], about to send the action *)
| Poll (j : Job) (i : Z)      (* [ExecuteActionRequest], turn [i] of the check loop *)
| Query (q : QueryReq).       (* [ExecuteQueryRequest] *)

Inductive Result :=
| RLeader (core : ClientCore) (leader : NodeID)
| RCheck (core : ClientCore) (info : option TSMRequestInfo) (err : error)
| RAction (core : ClientCore) (ok : bool) (msg : string)
| RQuery (core : ClientCore) (data : GoValue) (err : error).

Inductive Control :=
| Head (m : Mode)                  (* entering [lookForLeader] for [m] *)
| Picked (m : Mode) (pl : NodeID)  (* a member is picked, the LeaderRequest is next *)
| Backoff (m : Mode)               (* in [logErrAndBackoff], the sleep is next *)
| Done (r : Result)                (* the operation has returned *)
| Panicked (reason : string).

Record Machine := mkMachine { ctl : Control; mcore : ClientCore }.

Definition call_of_event (ev : Event) : Call :=
  match ev with
  | EvRandom lo hi _ => CRandom lo hi
  | EvLeader t _ => CLeader t
  | EvAction t req _ => CAction t req
  | EvQuery t req _ => CQuery t req
  | EvSleep d => CSleep d
  end.

(** The check loop's next turn, or the resend when the turns are used up. *)
Definition poll_turn (j : Job) (i : Z) : Mode :=
  if i <? maxCheckCountBeforeRetry then Poll j i else Submit j.

(** What [checkActionRequest] makes of the answer to its query; [None] is the
    failed type assertion. *)
Definition check_result (leader : NodeID) (res : RPCResult QueryRes)
  : option (option TSMRequestInfo * error) :=
  match res with
  | RPCOk queryRes =>
      if Success queryRes then
        match QueryErr queryRes with
        | None =>
            match Data queryRes with
            | VRequestInfo info => Some (Some info, None)
            | _ => None
            end
        | Some _ => Some (None, None)
        end
      else Some (None, Some ("Node " ++ leader ++ " decliend the query request.")%string)
  | RPCErr e => Some (None, Some e)
  end.

(** The (bool, string) that [ExecuteActionRequest] returns for a matching
    request info. *)
Definition action_outcome (info : option TSMRequestInfo) : bool * string :=
  match info with
  | Some {| Err := Some msg |} => (false, msg)
  | _ => (true, "action success")
  end.

(** The core after [logErrAndBackoff]'s sleep. *)
Definition backed_off (core : ClientCore) : ClientCore :=
  set_backOffDuration
    (utils_Min maxBackOffDuration (wrap64 (backOffDuration core * 2))) core.

(** The call a state is about to make. *)
Definition pending (M : Machine) : option Call :=
  let core := mcore M in
  match ctl M with
  | Head m =>
      match leaderID core with
      | None => Some (CRandom 0 (Z.of_nat (List.length (nl core)) - 1))
      | Some ld =>
          match m with
          | Lookup => None
          | Check q => Some (CQuery ld q)
          | Submit j => Some (CAction ld (jobAction j))
          | Poll j _ => Some (CQuery ld (jobPoll j))
          | Query q => Some (CQuery ld q)
          end
      end
  | Picked _ pl => Some (CLeader pl)
  | Backoff _ => Some (CSleep (wrap64 (backOffDuration core * Millisecond)))
  | Done _ => None
  | Panicked reason => Some (CPanic reason)
  end.

(** The result a state returns with, when it makes no further call. *)
Definition result (M : Machine) : option Result :=
  match ctl M with
  | Head Lookup =>
      match leaderID (mcore M) with
      | Some ld => Some (RLeader (mcore M) ld)
      | None => None
      end
  | Done r => Some r
  | _ => None
  end.

(** The state after the pending call has been answered as [ev] records. *)
Definition next (M : Machine) (ev : Event) : Machine :=
  let core := mcore M in
  let failed m := mkMachine (Backoff m) (set_leaderID None core) in
  match ctl M, ev with
  | Head m, _ =>
      match leaderID core, m, ev with
      | None, _, EvRandom _ _ r =>
          if (r <? 0) || (Z.of_nat (List.length (nl core)) <=? r)
          then mkMachine (Panicked index_out_of_range) core
          else match nth_error (nl core) (Z.to_nat r) with
               | Some pl => mkMachine (Picked m pl) core
               | None => mkMachine (Panicked index_out_of_range) core
               end
      | Some ld, Check q, EvQuery _ _ res =>
          match check_result ld res with
          | None =>
              mkMachine
                (Panicked not_a_request_info)
                core
          | Some (info, err) => mkMachine (Done (RCheck core info err)) core
          end
      | Some _, Submit j, EvAction _ _ (RPCOk actionRes) =>
          if Started actionRes
          then mkMachine (Head (poll_turn j 0)) (resetBackOffDuration core)
          else failed (Submit j)
      | Some _, Submit j, EvAction _ _ (RPCErr _) => failed (Submit j)
      | Some ld, Poll j i, EvQuery _ _ res =>
          match check_result ld res with
          | None =>
              mkMachine
                (Panicked not_a_request_info)
                core
          | Some (info, _) =>
              if matches (jobID j) info
              then let core := resetBackOffDuration core in
                   let '(ok, msg) := action_outcome info in
                   mkMachine (Done (RAction core ok msg)) core
              else failed (poll_turn j (wrap64 (i + 1)))
          end
      | Some _, Query q, EvQuery _ _ (RPCOk queryRes) =>
          if Success queryRes
          then let core := resetBackOffDuration core in
               match QueryErr queryRes with
               | None => mkMachine (Done (RQuery core (Data queryRes) None)) core
               | Some msg => mkMachine (Done (RQuery core VNil (Some msg))) core
               end
          else failed (Query q)
      | Some _, Query q, EvQuery _ _ (RPCErr _) => failed (Query q)
      | _, _, _ => M
      end
  | Picked m _, EvLeader _ (RPCOk leaderRes) =>
      if HasLeader leaderRes
      then mkMachine (Head m)
             (resetBackOffDuration (set_leaderID (Some (LeaderID leaderRes)) core))
      else failed m
  | Picked m _, EvLeader _ (RPCErr _) => failed m
  | Backoff m, EvSleep _ => mkMachine (Head m) (backed_off core)
  | _, _ => M
  end.

(** [valid M l]: the machine, started in [M], makes the calls of [l] one after
    the other. *)
Fixpoint valid (M : Machine) (l : list Event) : Prop :=
  match l with
  | [] => True
  | ev :: l' => pending M = Some (call_of_event ev) /\ valid (next M ev) l'
  end.

(** The state after the events of [l]. *)
Definition run (M : Machine) (l : list Event) : Machine := fold_left next l M.

(** An observation with events [l] and ending [o] is a run of the machine
    from [M]; [ret] relates the final state to the value returned. *)
Definition simulates {R : Type} (M : Machine) (ret : Machine -> R -> Prop)
  : list Event -> Ending R -> Prop :=
  fun l o =>
    valid M l /\
    match o with
    | Running => True
    | Blocked c => pending (run M l) = Some c
    | Returned r => ret (run M l) r
    end.

Lemma call_of_event_of {X} (e : clientE X) (x : X) :
  call_of_event (event_of e x) = call_of e.
Proof. destruct e; try reflexivity. destruct x. Qed.

Section MachineRules.

Lemma run_app M l1 l2 : run M (l1 ++ l2) = run (run M l1) l2.
Proof. apply fold_left_app. Qed.

Lemma valid_app M l1 l2 :
  valid M (l1 ++ l2) <-> valid M l1 /\ valid (run M l1) l2.
Proof.
  revert M. induction l1 as [| ev l1 IH]; intros M; cbn.
  - tauto.
  - rewrite IH. tauto.
Qed.

Lemma simulates_app {R} M (ret : Machine -> R -> Prop) l1 l2 o :
  valid M l1 -> simulates (run M l1) ret l2 o -> simulates M ret (l1 ++ l2) o.
Proof.
  intros H1 [H2 H3]. split.
  - apply valid_app; auto.
  - rewrite run_app. exact H3.
Qed.

Lemma sat_sim_ret {R} M (ret : Machine -> R -> Prop) (r : R) :
  ret M r -> sat (Ret r) (simulates M ret).
Proof.
  intros H. apply sat_ret; split; cbn; auto.
Qed.

Lemma sat_sim_vis {R X} M (ret : Machine -> R -> Prop) (e : clientE X)
      (k : X -> itree clientE R) :
  pending M = Some (call_of e) ->
  (forall x, sat (k x) (simulates (next M (event_of e x)) ret)) ->
  sat (Vis e k) (simulates M ret).
Proof.
  intros Hp Hk. apply sat_vis.
  - split; cbn; auto.
  - split; cbn; auto.
  - intros x. eapply sat_weaken; [apply Hk|].
    intros l o [H1 H2]. split; [|exact H2].
    cbn. rewrite call_of_event_of. auto.
Qed.

Lemma sat_sim_trigger {X} M (e : clientE X) :
  pending M = Some (call_of e) ->
  sat (ITree.trigger e) (simulates M (fun M' x => M' = next M (event_of e x))).
Proof.
  intros Hp. apply sat_sim_vis; auto.
  intros x. now apply sat_sim_ret.
Qed.

Lemma sat_sim_panic {R} M (ret : Machine -> R -> Prop) reason :
  pending M = Some (CPanic reason) -> sat (panic reason) (simulates M ret).
Proof.
  intros Hp. apply sat_sim_vis; auto. intros [].
Qed.

Lemma sat_sim_bind {A R} M (retA : Machine -> A -> Prop) (ret : Machine -> R -> Prop)
      (t : itree clientE A) (k : A -> itree clientE R) :
  sat t (simulates M retA) ->
  (forall M' a, retA M' a -> sat (k a) (simulates M' ret)) ->
  sat (ITree.bind t k) (simulates M ret).
Proof.
  intros Ht Hk. eapply sat_bind; [exact Ht | | |].
  - intros l [H1 _]. split; auto.
  - intros l c [H1 H2]. split; auto.
  - intros l a [H1 H2]. eapply sat_weaken; [apply (Hk _ _ H2)|].
    intros l' o. now apply simulates_app.
Qed.

Lemma sat_sim_iter {I R} (MInv : I -> Machine -> Prop) (ret : Machine -> R -> Prop)
      (body : I -> itree clientE (I + R)) :
  (forall i M, MInv i M ->
     sat (body i)
         (simulates M (fun M' lr =>
                         match lr with
                         | inl j => MInv j M'
                         | inr r => ret M' r
                         end))) ->
  forall i M, MInv i M -> sat (ITree.iter body i) (simulates M ret).
Proof.
  intros Hbody i M Hi.
  apply (@sat_iter I R body (fun j l => valid M l /\ MInv j (run M l))
                   (simulates M ret)) with (l := []).
  - intros j l [Hv Hj]. eapply sat_weaken; [apply (Hbody _ _ Hj)|].
    intros l' o [H1 H2]. unfold iter_post.
    destruct o as [| c | [j' | r]].
    + apply simulates_app; [auto | split; auto].
    + apply simulates_app; [auto | split; auto].
    + split; [apply valid_app; auto | rewrite run_app; auto].
    + apply simulates_app; [auto | split; auto].
  - split; cbn; auto.
Qed.

Lemma sat_sim_bind_ret {A R} M (ret : Machine -> R -> Prop) (a : A)
      (k : A -> itree clientE R) :
  sat (k a) (simulates M ret) -> sat (ITree.bind (Ret a) k) (simulates M ret).
Proof.
  intros Hk.
  apply sat_sim_bind with (retA := fun M' a' => M' = M /\ a' = a).
  - now apply sat_sim_ret.
  - now intros M' a' [-> ->].
Qed.

Lemma logErrAndBackoff_sim m msg err core :
  sat (logErrAndBackoff msg err core)
      (simulates (mkMachine (Backoff m) (set_leaderID None core))
                 (fun M' core' =>
                    M' = mkMachine (Head m) core' /\
                    core' = backed_off (set_leaderID None core))).
Proof.
  unfold logErrAndBackoff, time_Sleep.
  eapply sat_sim_bind.
  - apply sat_sim_trigger. reflexivity.
  - intros M' [] ->. apply sat_sim_ret. cbn. auto.
Qed.

Lemma lookForLeader_sim m core :
  sat (lookForLeader core)
      (simulates (mkMachine (Head m) core)
                 (fun M' '(core', ld) =>
                    M' = mkMachine (Head m) core' /\ leaderID core' = Some ld)).
Proof.
  unfold lookForLeader.
  apply sat_sim_iter with (MInv := fun c M => M = mkMachine (Head m) c); [|reflexivity].
  clear core. intros core M ->.
  unfold lookForLeader_body.
  destruct (leaderID core) as [ld |] eqn:Eld.
  - apply sat_sim_ret. auto.
  - unfold utils_Random. eapply sat_sim_bind.
    { apply sat_sim_trigger. unfold pending. cbn. rewrite Eld. reflexivity. }
    intros M' r ->.
    assert (Hidx : sat (slice_index (nl core) r)
               (simulates (next (mkMachine (Head m) core)
                                (EvRandom 0 (Z.of_nat (List.length (nl core)) - 1) r))
                          (fun M' pl => M' = mkMachine (Picked m pl) core))).
    { unfold slice_index, next. cbn. rewrite Eld.
      destruct ((r <? 0) || (Z.of_nat (List.length (nl core)) <=? r)).
      - apply sat_sim_panic. reflexivity.
      - destruct (nth_error (nl core) (Z.to_nat r)).
        + now apply sat_sim_ret.
        + apply sat_sim_panic. reflexivity. }
    eapply sat_sim_bind; [exact Hidx|]. clear Hidx.
    intros M' pl ->. unfold callRPC_LeaderRequest.
    eapply sat_sim_bind; [apply sat_sim_trigger; reflexivity|].
    intros M' res ->.
    destruct res as [leaderRes | e]; cbn.
    + destruct (HasLeader leaderRes).
      * apply sat_sim_ret. auto.
      * eapply sat_sim_bind; [apply logErrAndBackoff_sim|].
        intros M' core' [-> _]. now apply sat_sim_ret.
    + eapply sat_sim_bind; [apply logErrAndBackoff_sim|].
      intros M' core' [-> _]. now apply sat_sim_ret.
Qed.

Lemma sendActionRequest_sim j core :
  sat (sendActionRequest (jobAction j) core)
      (simulates (mkMachine (Head (Submit j)) core)
                 (fun M' '(core', err) =>
                    match err with
                    | None => M' = mkMachine (Head (poll_turn j 0)) (resetBackOffDuration core')
                    | Some _ => M' = mkMachine (Backoff (Submit j)) (set_leaderID None core')
                    end)).
Proof.
  unfold sendActionRequest.
  eapply sat_sim_bind; [apply lookForLeader_sim|].
  intros M' [core' leader] [-> Eld]. unfold callRPC_ActionRequest.
  eapply sat_sim_bind.
  { apply sat_sim_trigger. unfold pending. cbn. rewrite Eld. reflexivity. }
  intros M' res ->. unfold next. cbn. rewrite Eld.
  destruct res as [actionRes | e]; cbn.
  - destruct (Started actionRes); cbn; now apply sat_sim_ret.
  - now apply sat_sim_ret.
Qed.

Lemma checkActionRequest_sim j i core :
  sat (checkActionRequest (jobPoll j) core)
      (simulates (mkMachine (Head (Poll j i)) core)
                 (fun M' '(core', (info, err)) =>
                    exists ld res,
                      leaderID core' = Some ld /\
                      check_result ld res = Some (info, err) /\
                      M' = next (mkMachine (Head (Poll j i)) core')
                                (EvQuery ld (jobPoll j) res))).
Proof.
  unfold checkActionRequest.
  eapply sat_sim_bind; [apply lookForLeader_sim|].
  intros M' [core' leader] [-> Eld]. unfold callRPC_QueryRequest.
  eapply sat_sim_bind.
  { apply sat_sim_trigger. unfold pending. cbn. rewrite Eld. reflexivity. }
  intros M' res ->.
  assert (Hok : forall info err,
             check_result leader res = Some (info, err) ->
             sat (Ret (core', (info, err)))
                 (simulates (next (mkMachine (Head (Poll j i)) core')
                                  (event_of (CallQuery leader (jobPoll j)) res))
                            (fun M' '(core'0, (info0, err0)) =>
                               exists ld res0,
                                 leaderID core'0 = Some ld /\
                                 check_result ld res0 = Some (info0, err0) /\
                                 M' = next (mkMachine (Head (Poll j i)) core'0)
                                           (EvQuery ld (jobPoll j) res0)))).
  { intros info err E. apply sat_sim_ret. exists leader, res. auto. }
  assert (Hpanic : forall R (ret : Machine -> R -> Prop),
             check_result leader res = None ->
             sat (panic not_a_request_info)
                 (simulates (next (mkMachine (Head (Poll j i)) core')
                                  (event_of (CallQuery leader (jobPoll j)) res)) ret)).
  { intros R ret E. apply sat_sim_panic.
    unfold next. cbn. rewrite Eld, E. reflexivity. }
  destruct res as [queryRes | e]; [|now apply Hok].
  destruct (Success queryRes) eqn:Es; [|apply Hok; cbn; now rewrite Es].
  destruct (QueryErr queryRes) eqn:Eq; [apply Hok; cbn; now rewrite Es, Eq|].
  destruct (Data queryRes) eqn:Ed;
    (apply Hok + apply Hpanic); cbn; now rewrite Es, Eq, Ed.
Qed.

Lemma check_result_err ld res info e :
  check_result ld res = Some (info, Some e) -> info = None.
Proof.
  unfold check_result. destruct res as [queryRes | e']; [|congruence].
  destruct (Success queryRes); [|congruence].
  destruct (QueryErr queryRes); [congruence|].
  destruct (Data queryRes); congruence.
Qed.

Lemma checkLoop_sim j core :
  sat (checkLoop (jobPoll j) (jobID j) core)
      (simulates (mkMachine (Head (poll_turn j 0)) core)
                 (fun M' '(core', out) =>
                    match out with
                    | Some (ok, msg) => M' = mkMachine (Done (RAction core' ok msg)) core'
                    | None => M' = mkMachine (Head (Submit j)) core'
                    end)).
Proof.
  unfold checkLoop.
  apply sat_sim_iter
    with (MInv := fun st M => M = mkMachine (Head (poll_turn j (fst st))) (snd st));
    [|reflexivity].
  clear core. intros [i core] M ->. cbn [fst snd].
  unfold checkLoop_body, poll_turn at 1.
  destruct (i <? maxCheckCountBeforeRetry) eqn:Ei; [|now apply sat_sim_ret].
  eapply sat_sim_bind; [apply checkActionRequest_sim|].
  intros M' [core' [info err]] (ld & res & Eld & Echk & ->).
  unfold next. cbn. rewrite Eld, Echk.
  destruct err as [e |].
  - apply check_result_err in Echk. subst info. cbn.
    eapply sat_sim_bind; [apply logErrAndBackoff_sim|].
    intros M' core'' [-> _].
    apply sat_sim_bind_ret. now apply sat_sim_ret.
  - apply sat_sim_bind_ret.
    destruct (matches (jobID j) info) eqn:Em.
    + destruct info as [[rid [msg |]] |]; cbn; now apply sat_sim_ret.
    + eapply sat_sim_bind; [apply logErrAndBackoff_sim|].
      intros M' core3 [-> _]. now apply sat_sim_ret.
Qed.

Lemma ExecuteActionRequest_body_sim j core :
  sat (ExecuteActionRequest_body (jobAction j) (jobPoll j) (jobID j) core)
      (simulates (mkMachine (Head (Submit j)) core)
                 (fun M' lr =>
                    match lr with
                    | inl core' => M' = mkMachine (Head (Submit j)) core'
                    | inr (core', (ok, msg)) =>
                        M' = mkMachine (Done (RAction core' ok msg)) core'
                    end)).
Proof.
  unfold ExecuteActionRequest_body.
  eapply sat_sim_bind; [apply sendActionRequest_sim|].
  intros M' [core' [e |]] ->.
  - eapply sat_sim_bind; [apply logErrAndBackoff_sim|].
    intros M' core'' [-> _]. now apply sat_sim_ret.
  - eapply sat_sim_bind; [apply checkLoop_sim|].
    intros M' [core'' [[ok msg] |]] ->; now apply sat_sim_ret.
Qed.

Lemma ExecuteQueryRequest_body_sim q core :
  sat (ExecuteQueryRequest_body q core)
      (simulates (mkMachine (Head (Query q)) core)
                 (fun M' lr =>
                    match lr with
                    | inl core' => M' = mkMachine (Head (Query q)) core'
                    | inr (core', (data, err)) =>
                        M' = mkMachine (Done (RQuery core' data err)) core'
                    end)).
Proof.
  unfold ExecuteQueryRequest_body.
  eapply sat_sim_bind; [apply lookForLeader_sim|].
  intros M' [core' leader] [-> Eld]. unfold callRPC_QueryRequest.
  eapply sat_sim_bind.
  { apply sat_sim_trigger. unfold pending. cbn. rewrite Eld. reflexivity. }
  intros M' res ->. unfold next. cbn. rewrite Eld.
  destruct res as [queryRes | e]; cbn.
  - destruct (Success queryRes); cbn.
    + destruct (QueryErr queryRes); now apply sat_sim_ret.
    + eapply sat_sim_bind; [apply logErrAndBackoff_sim|].
      intros M' core'' [-> _]. now apply sat_sim_ret.
  - eapply sat_sim_bind; [apply logErrAndBackoff_sim|].
    intros M' core'' [-> _]. now apply sat_sim_ret.
Qed.


End MachineRules.

(** An event that answers the call [e] makes. *)
Lemma event_of_call {X} (e : clientE X) (ev : Event) :
  call_of_event ev = call_of e -> exists x, ev = event_of e x.
Proof.
  destruct e, ev; cbn; intros H; try discriminate; inversion H; subst; eauto.
  exists tt. reflexivity.
Qed.

Lemma can_answer_gen {R} ot (tr : @trace clientE R) :
  is_traceF ot tr ->
  forall c ev, ending tr = Blocked c -> call_of_event ev = c ->
  exists tr', is_traceF ot tr' /\ events tr' = events tr ++ [ev] /\ ending tr' = Running.
Proof.
  induction 1; intros c ev Hend Hev; cbn in *; try discriminate.
  - destruct (IHis_traceF c ev Hend Hev) as (tr' & H1 & H2 & H3).
    exists tr'. repeat split; auto. now constructor.
  - injection Hend as <-.
    destruct (event_of_call e ev Hev) as (x & ->).
    exists (TEventResponse e x TEnd). repeat split. constructor. constructor.
  - destruct (IHis_traceF c ev Hend Hev) as (tr' & H1 & H2 & H3).
    exists (TEventResponse e x tr'). cbn. repeat split; auto.
    + now constructor.
    + now rewrite H2.
Qed.

Lemma can_answer {R} (t : itree clientE R) l c ev :
  can t l (Blocked c) -> call_of_event ev = c -> can t (l ++ [ev]) Running.
Proof.
  intros (tr & H & <- & E) Hev.
  destruct (can_answer_gen H ev E Hev) as (tr' & H1 & H2 & H3).
  exists tr'. auto.
Qed.

(** The machine is complete for a productive operation it simulates: every
    valid run is an observation of the operation. *)
Section Complete.
Context {R : Type}.
Variable t : itree clientE R.
Variable M0 : Machine.
Variable ret : Machine -> R -> Prop.
Hypothesis Hsim : sat t (simulates M0 ret).
Hypothesis Hprod : productive t.
Hypothesis Hret : forall M r, ret M r -> pending M = None.

Lemma sim_can l o : can t l o -> simulates M0 ret l o.
Proof. intros (tr & H & <- & <-). now apply Hsim. Qed.

Lemma can_settle l :
  can t l Running -> exists o, o <> Running /\ can t l o.
Proof.
  intros (tr & H & <- & E). exact (Hprod H E).
Qed.

Lemma valid_can l : valid M0 l -> can t l Running.
Proof.
  induction l as [| ev l IH] using rev_ind; intros Hv.
  - apply can_running.
  - apply valid_app in Hv. destruct Hv as [Hv [Hp _]].
    destruct (can_settle (IH Hv)) as (o & Ho & Hc).
    pose proof (sim_can Hc) as [_ Hs].
    destruct o as [| c | r]; [congruence | |].
    + eapply can_answer; eauto. congruence.
    + apply Hret in Hs. congruence.
Qed.

Lemma pending_can l c :
  valid M0 l -> pending (run M0 l) = Some c -> can t l (Blocked c).
Proof.
  intros Hv Hp.
  destruct (can_settle (valid_can l Hv)) as (o & Ho & Hc).
  pose proof (sim_can Hc) as [_ Hs].
  destruct o as [| c' | r]; [congruence | |].
  - replace c with c' by congruence. exact Hc.
  - apply Hret in Hs. congruence.
Qed.

Lemma returned_can l :
  valid M0 l -> pending (run M0 l) = None ->
  exists r, ret (run M0 l) r /\ can t l (Returned r).
Proof.
  intros Hv Hp.
  destruct (can_settle (valid_can l Hv)) as (o & Ho & Hc).
  pose proof (sim_can Hc) as [_ Hs].
  destruct o as [| c' | r]; [congruence | congruence |].
  exists r. auto.
Qed.

End Complete.

(** ** The operations are productive *)

Lemma productive_trigger {X} (e : clientE X) : productive (ITree.trigger e).
Proof. apply productive_vis. intros x. apply productive_ret. Qed.

Lemma productive_panic {A} reason : productive (@panic A reason).
Proof. apply productive_vis. intros []. Qed.

Lemma eventful_trigger {X} (e : clientE X) : eventful (ITree.trigger e).
Proof. apply eventful_vis. Qed.

Ltac productive_step :=
  match goal with
  | |- productive (Ret _) => apply productive_ret
  | |- productive (ITree.trigger _) => apply productive_trigger
  | |- productive (panic _) => apply productive_panic
  | |- productive (ITree.bind _ _) => apply productive_bind; [|intros]
  | |- productive (match ?x with _ => _ end) => destruct x
  end.

Lemma productive_logErrAndBackoff msg err core :
  productive (logErrAndBackoff msg err core).
Proof.
  unfold logErrAndBackoff, time_Sleep. repeat productive_step.
Qed.

Lemma productive_slice_index s i : productive (slice_index s i).
Proof. unfold slice_index. repeat productive_step. Qed.

Lemma productive_lookForLeader core : productive (lookForLeader core).
Proof.
  unfold lookForLeader. apply productive_iter; clear core; intros core.
  - unfold lookForLeader_body, utils_Random, callRPC_LeaderRequest.
    repeat first [ apply productive_logErrAndBackoff
                 | apply productive_slice_index
                 | productive_step ].
  - unfold lookForLeader_body. destruct (leaderID core).
    + apply sat_ret; intros; discriminate.
    + eapply sat_weaken; [apply eventful_bind_l, eventful_trigger|].
      cbn. intros l o H j. apply H.
Qed.

Lemma eventful_sendActionRequest actReq core :
  eventful (sendActionRequest actReq core).
Proof.
  unfold sendActionRequest. apply eventful_bind_r. intros [core' leader].
  apply eventful_bind_l, eventful_trigger.
Qed.

Lemma productive_sendActionRequest actReq core :
  productive (sendActionRequest actReq core).
Proof.
  unfold sendActionRequest, callRPC_ActionRequest.
  repeat first [ apply productive_lookForLeader | productive_step ].
Qed.

Lemma eventful_checkActionRequest queryReq core :
  eventful (checkActionRequest queryReq core).
Proof.
  unfold checkActionRequest. apply eventful_bind_r. intros [core' leader].
  apply eventful_bind_l, eventful_trigger.
Qed.

Lemma productive_checkActionRequest queryReq core :
  productive (checkActionRequest queryReq core).
Proof.
  unfold checkActionRequest, callRPC_QueryRequest.
  repeat first [ apply productive_lookForLeader | productive_step ].
Qed.

Lemma productive_checkLoop queryReq reqID core :
  productive (checkLoop queryReq reqID core).
Proof.
  unfold checkLoop. generalize (0, core). clear core.
  intros st. apply productive_iter; clear st; intros [i core].
  - unfold checkLoop_body.
    repeat first [ apply productive_checkActionRequest
                 | apply productive_logErrAndBackoff
                 | productive_step ].
  - unfold checkLoop_body. destruct (i <? maxCheckCountBeforeRetry).
    + eapply sat_weaken; [apply eventful_bind_l, eventful_checkActionRequest|].
      cbn. intros l o H j. apply H.
    + apply sat_ret; intros; discriminate.
Qed.

Lemma productive_ExecuteActionRequest act core :
  productive (ExecuteActionRequest act core).
Proof.
  unfold ExecuteActionRequest. cbv zeta.
  generalize (NewTSMLatestRequestQuery (clientID core)). intros q.
  apply productive_iter; clear core; intros core.
  - unfold ExecuteActionRequest_body.
    repeat first [ apply productive_sendActionRequest
                 | apply productive_checkLoop
                 | apply productive_logErrAndBackoff
                 | productive_step ].
  - unfold ExecuteActionRequest_body.
    eapply sat_weaken; [apply eventful_bind_l, eventful_sendActionRequest|].
    cbn. intros l o H j. apply H.
Qed.

Lemma productive_ExecuteQueryRequest query core :
  productive (ExecuteQueryRequest query core).
Proof.
  unfold ExecuteQueryRequest. cbv zeta.
  apply productive_iter; clear core; intros core.
  - unfold ExecuteQueryRequest_body, callRPC_QueryRequest.
    repeat first [ apply productive_lookForLeader
                 | apply productive_logErrAndBackoff
                 | productive_step ].
  - unfold ExecuteQueryRequest_body.
    eapply sat_weaken.
    + apply eventful_bind_r. intros [core' leader].
      apply eventful_bind_l, eventful_trigger.
    + cbn. intros l o H j. apply H.
Qed.

Lemma can_iff_simulates {R} (t : itree clientE R) M0 (ret : Machine -> R -> Prop) :
  sat t (simulates M0 ret) -> productive t ->
  (forall M r, ret M r -> pending M = None) ->
  (forall M r r', ret M r -> ret M r' -> r = r') ->
  forall l o, can t l o <-> simulates M0 ret l o.
Proof.
  intros Hsim Hprod Hret Hfun l o. split.
  - now apply sim_can.
  - intros [Hv Ho]. destruct o as [| c | r].
    + eapply valid_can; eauto.
    + eapply pending_can; eauto.
    + destruct (returned_can Hsim Hprod Hret l Hv (Hret _ _ Ho)) as (r' & Hr' & Hc).
      now rewrite (Hfun _ _ _ Ho Hr').
Qed.

(** The machine each operation starts in, and the state it returns in. *)
Definition job_of (act : TSMAction) (core : ClientCore) : Job :=
  {| jobAction := {| ActionCmd := act |};
     jobPoll := {| QueryCmd := NewTSMLatestRequestQuery (clientID core) |};
     jobID := GetRequestID act |}.

Definition leader_machine (core : ClientCore) : Machine := mkMachine (Head Lookup) core.
Definition check_machine (q : QueryReq) (core : ClientCore) : Machine :=
  mkMachine (Head (Check q)) core.
Definition action_machine (act : TSMAction) (core : ClientCore) : Machine :=
  mkMachine (Head (Submit (job_of act core))) core.
Definition query_machine (query : TSMQuery) (core : ClientCore) : Machine :=
  mkMachine (Head (Query {| QueryCmd := query |})) core.

Definition leader_ret (M : Machine) (r : ClientCore * NodeID) : Prop :=
  M = mkMachine (Head Lookup) (fst r) /\ leaderID (fst r) = Some (snd r).
Definition check_ret (M : Machine) (r : ClientCore * (option TSMRequestInfo * error)) : Prop :=
  M = mkMachine (Done (RCheck (fst r) (fst (snd r)) (snd (snd r)))) (fst r).
Definition action_ret (M : Machine) (r : ClientCore * (bool * string)) : Prop :=
  M = mkMachine (Done (RAction (fst r) (fst (snd r)) (snd (snd r)))) (fst r).
Definition query_ret (M : Machine) (r : ClientCore * (GoValue * error)) : Prop :=
  M = mkMachine (Done (RQuery (fst r) (fst (snd r)) (snd (snd r)))) (fst r).

Lemma checkActionRequest_check_sim q core :
  sat (checkActionRequest q core) (simulates (check_machine q core) check_ret).
Proof.
  unfold checkActionRequest, check_machine.
  eapply sat_sim_bind; [apply lookForLeader_sim|].
  intros M' [core' leader] [-> Eld]. unfold callRPC_QueryRequest.
  eapply sat_sim_bind.
  { apply sat_sim_trigger. unfold pending. cbn. rewrite Eld. reflexivity. }
  intros M' res ->. unfold next. cbn. rewrite Eld.
  destruct res as [queryRes | e]; cbn; [|now apply sat_sim_ret].
  destruct (Success queryRes); cbn; [|now apply sat_sim_ret].
  destruct (QueryErr queryRes); cbn; [now apply sat_sim_ret|].
  destruct (Data queryRes); cbn;
    (now apply sat_sim_ret) || (now apply sat_sim_panic).
Qed.

Theorem lookForLeader_machine core l o :
  can (lookForLeader core) l o <-> simulates (leader_machine core) leader_ret l o.
Proof.
  apply can_iff_simulates.
  - eapply sat_weaken; [apply (lookForLeader_sim Lookup)|].
    intros l' [| c | [core' ld]]; auto.
  - apply productive_lookForLeader.
  - intros M [core' ld] [-> E]. unfold pending. cbn in *. now rewrite E.
  - intros M [c1 l1] [c2 l2] [-> E1] [E E2]. cbn in *. congruence.
Qed.

Theorem checkActionRequest_machine q core l o :
  can (checkActionRequest q core) l o <-> simulates (check_machine q core) check_ret l o.
Proof.
  apply can_iff_simulates.
  - apply checkActionRequest_check_sim.
  - apply productive_checkActionRequest.
  - now intros M r ->.
  - intros M [c1 [i1 e1]] [c2 [i2 e2]] -> E. inversion E. reflexivity.
Qed.

Theorem ExecuteActionRequest_machine act core l o :
  can (ExecuteActionRequest act core) l o <->
  simulates (action_machine act core) action_ret l o.
Proof.
  apply can_iff_simulates.
  - unfold ExecuteActionRequest, action_machine. cbv zeta.
    apply sat_sim_iter
      with (MInv := fun c M => M = mkMachine (Head (Submit (job_of act core))) c);
      [|reflexivity].
    intros c M ->. eapply sat_weaken; [apply (ExecuteActionRequest_body_sim (job_of act core))|].
    intros l' [| k | [c' | [c' [ok msg]]]]; auto.
  - apply productive_ExecuteActionRequest.
  - now intros M r ->.
  - intros M [c1 [i1 e1]] [c2 [i2 e2]] -> E. inversion E. reflexivity.
Qed.

Theorem ExecuteQueryRequest_machine query core l o :
  can (ExecuteQueryRequest query core) l o <->
  simulates (query_machine query core) query_ret l o.
Proof.
  apply can_iff_simulates.
  - unfold ExecuteQueryRequest, query_machine. cbv zeta.
    apply sat_sim_iter
      with (MInv := fun c M => M = mkMachine (Head (Query {| QueryCmd := query |})) c);
      [|reflexivity].
    intros c M ->. eapply sat_weaken; [apply ExecuteQueryRequest_body_sim|].
    intros l' [| k | [c' | [c' [d e]]]]; auto.
  - apply productive_ExecuteQueryRequest.
  - now intros M r ->.
  - intros M [c1 [i1 e1]] [c2 [i2 e2]] -> E. inversion E. reflexivity.
Qed.

(** ** Facts about the machine's runs *)

Lemma run_snoc M l ev : run M (l ++ [ev]) = next (run M l) ev.
Proof. now rewrite run_app. Qed.

Lemma valid_snoc M l ev :
  valid M (l ++ [ev]) <-> valid M l /\ pending (run M l) = Some (call_of_event ev).
Proof. rewrite valid_app. cbn. tauto. Qed.

Lemma valid_returned M l : pending M = None -> valid M l -> l = [].
Proof. destruct l as [| ev l]; cbn; [auto | intros E [E' _]; congruence]. Qed.

Lemma valid_panicked M reason l :
  pending M = Some (CPanic reason) -> valid M l -> l = [].
Proof.
  destruct l as [| ev l]; cbn; [auto | intros E [E' _]].
  rewrite E in E'. destruct ev; discriminate.
Qed.

(** An invariant of the states holds along every valid run. *)
Lemma run_invariant (Inv : Machine -> Prop) :
  (forall M ev, Inv M -> pending M = Some (call_of_event ev) -> Inv (next M ev)) ->
  forall l M, Inv M -> valid M l -> Inv (run M l).
Proof.
  intros Hstep. induction l as [| ev l IH]; intros M HM Hv; cbn in *; auto.
  destruct Hv as [Hp Hv]. apply IH; auto.
Qed.

(** The state in which a given call is pending. *)
Lemma pending_random_inv M lo hi :
  pending M = Some (CRandom lo hi) ->
  exists m, ctl M = Head m /\ leaderID (mcore M) = None /\
            lo = 0 /\ hi = Z.of_nat (List.length (nl (mcore M))) - 1.
Proof.
  destruct M as [[m | m pl | m | r | reason] core]; unfold pending; cbn;
    try discriminate.
  destruct (leaderID core) eqn:E.
  - destruct m; discriminate.
  - intros H. injection H as <- <-. eauto.
Qed.

Lemma pending_leader_inv M pl :
  pending M = Some (CLeader pl) -> exists m, ctl M = Picked m pl.
Proof.
  destruct M as [[m | m pl' | m | r | reason] core]; unfold pending; cbn;
    try discriminate.
  - destruct (leaderID core); [destruct m|]; discriminate.
  - intros H. injection H as <-. eauto.
Qed.

Lemma pending_sleep_inv M d :
  pending M = Some (CSleep d) ->
  exists m, ctl M = Backoff m /\ d = wrap64 (backOffDuration (mcore M) * Millisecond).
Proof.
  destruct M as [[m | m pl' | m | r | reason] core]; unfold pending; cbn;
    try discriminate.
  - destruct (leaderID core); [destruct m|]; discriminate.
  - intros H. injection H as <-. eauto.
Qed.

Lemma pending_action_inv M t req :
  pending M = Some (CAction t req) ->
  exists j, ctl M = Head (Submit j) /\ leaderID (mcore M) = Some t /\ req = jobAction j.
Proof.
  destruct M as [[m | m pl' | m | r | reason] core]; unfold pending; cbn;
    try discriminate.
  destruct (leaderID core); [destruct m|]; try discriminate.
  intros H. injection H as <- <-. eauto.
Qed.

Lemma pending_query_inv M t req :
  pending M = Some (CQuery t req) ->
  exists m, ctl M = Head m /\ leaderID (mcore M) = Some t /\
            (m = Check req \/ (exists j i, m = Poll j i /\ req = jobPoll j) \/ m = Query req).
Proof.
  destruct M as [[m | m pl' | m | r | reason] core]; unfold pending; cbn;
    try discriminate.
  destruct (leaderID core); [destruct m|]; try discriminate;
    intros H; injection H as <- <-;
    (eexists; split; [reflexivity|]; split; [reflexivity|]);
    first [left; reflexivity | solve [right; left; eauto] | right; right; reflexivity].
Qed.

(** The modes an operation moves through. *)
Definition mode_of (c : Control) : option Mode :=
  match c with
  | Head m | Picked m _ | Backoff m => Some m
  | _ => None
  end.

Definition in_modes (ok : Mode -> Prop) (M : Machine) : Prop :=
  match mode_of (ctl M) with
  | Some m => ok m
  | None => True
  end.

Definition action_mode (j : Job) (m : Mode) : Prop :=
  m = Submit j \/ exists i, m = Poll j i /\ 0 <= i < maxCheckCountBeforeRetry.

Lemma wrap64_small z : - 2 ^ 63 <= z < 2 ^ 63 -> wrap64 z = z.
Proof.
  intros H. unfold wrap64. rewrite Z.mod_small; lia.
Qed.

Lemma poll_turn_mode j i : 0 <= i -> action_mode j (poll_turn j i).
Proof.
  intros Hi. unfold poll_turn, action_mode.
  destruct (i <? maxCheckCountBeforeRetry) eqn:E; [right | left; reflexivity].
  exists i. apply Z.ltb_lt in E. auto.
Qed.

Lemma action_mode_next j M ev :
  in_modes (action_mode j) M -> pending M = Some (call_of_event ev) ->
  in_modes (action_mode j) (next M ev).
Proof.
  destruct M as [[m | m pl | m | r | reason] core]; unfold in_modes, pending, next; cbn;
    intros Hm Hp.
  - destruct (leaderID core) eqn:E.
    + destruct m; try discriminate; destruct ev; try discriminate; cbn.
      * destruct (check_result n res) as [[info err] |]; cbn; auto.
      * destruct Hm as [Hm | (i & Hm & _)]; [|discriminate]. injection Hm as ->.
        destruct res as [actionRes | e]; cbn; [|left; reflexivity].
        destruct (Started actionRes); cbn; [|left; reflexivity].
        apply (@poll_turn_mode j 0). lia.
      * destruct Hm as [Hm | (i' & Hm & Hi)]; [discriminate|]. injection Hm as -> ->.
        destruct (check_result n res) as [[info err] |]; cbn; auto.
        destruct (matches (jobID j) info); cbn.
        -- destruct (action_outcome info); cbn. auto.
        -- rewrite wrap64_small by (unfold maxCheckCountBeforeRetry in *; lia).
           apply poll_turn_mode. lia.
      * destruct Hm as [Hm | (i' & Hm & Hi)]; discriminate.
    + destruct ev; try discriminate; cbn.
      destruct ((r <? 0) || (Z.of_nat (List.length (nl core)) <=? r)); cbn; auto.
      destruct (nth_error (nl core) (Z.to_nat r)); cbn; auto.
  - destruct ev; try discriminate. destruct res as [leaderRes | e]; cbn; auto.
    destruct (HasLeader leaderRes); cbn; auto.
  - destruct ev; try discriminate. cbn. auto.
  - discriminate.
  - destruct ev; discriminate.
Qed.

Lemma action_mode_run act core l :
  valid (action_machine act core) l ->
  in_modes (action_mode (job_of act core)) (run (action_machine act core) l).
Proof.
  apply run_invariant.
  - intros M ev. apply action_mode_next.
  - left. reflexivity.
Qed.

(** In [ExecuteActionRequest], a query is only ever pending as a poll. *)
Lemma action_query_pending act core l t req :
  valid (action_machine act core) l ->
  pending (run (action_machine act core) l) = Some (CQuery t req) ->
  exists i c,
    run (action_machine act core) l = mkMachine (Head (Poll (job_of act core) i)) c /\
    leaderID c = Some t /\ req = jobPoll (job_of act core) /\
    0 <= i < maxCheckCountBeforeRetry.
Proof.
  intros Hv Hp.
  pose proof (action_mode_run act core l Hv) as Hm.
  destruct (pending_query_inv _ Hp) as (m & Hc & Hld & Hcase).
  destruct (run (action_machine act core) l) as [c0 c]. cbn in *. subst c0.
  unfold in_modes in Hm. cbn in Hm.
  destruct Hm as [-> | (i & -> & Hi)].
  - destruct Hcase as [H | [(j' & i' & H & _) | H]]; discriminate.
  - destruct Hcase as [H | [(j' & i' & H & Hreq) | H]]; try discriminate.
    injection H as <- <-. eauto 8.
Qed.

(** C2. In every execution of [ExecuteActionRequest], a poll that returns a
    request info ([success = true], no query error, data holding a
    [TSMRequestInfo]) whose RequestID is that of the submitted command makes
    the function return at once: with [(false, msg)], [msg] being exactly the
    info's error string, when [Err] is set, and with [(true, "action success")]
    when it is nil.  The returned core has the backoff at the floor, the return
    is reached (it is an observation of the function), and nothing else can
    follow the poll. *)
Theorem matching_poll_returns :
  forall act core l target req queryRes info,
    can (ExecuteActionRequest act core)
        (l ++ [EvQuery target req (RPCOk queryRes)]) Running ->
    Success queryRes = true ->
    QueryErr queryRes = None ->
    Data queryRes = VRequestInfo info ->
    RequestId info = GetRequestID act ->
    exists core',
      let outcome := match Err info with
                     | Some msg => (false, msg)
                     | None => (true, "action success")
                     end in
      backOffDuration core' = initBackOffDuration /\
      can (ExecuteActionRequest act core)
          (l ++ [EvQuery target req (RPCOk queryRes)])
          (Returned (core', outcome)) /\
      forall l' o,
        can (ExecuteActionRequest act core)
            ((l ++ [EvQuery target req (RPCOk queryRes)]) ++ l') o ->
        l' = [] /\ (o = Running \/ o = Returned (core', outcome)).
Proof.
  intros act core l target req queryRes info Hcan Hs Hq Hd Hid.
  apply ExecuteActionRequest_machine in Hcan. destruct Hcan as [Hv _].
  apply valid_snoc in Hv. destruct Hv as [Hv Hp].
  destruct (action_query_pending act core l Hv Hp) as (i & c & Hrun & Hld & Hreq & Hi).
  set (ev := EvQuery target req (RPCOk queryRes)) in *.
  set (outcome := match Err info with
                  | Some msg => (false, msg)
                  | None => (true, "action success")
                  end).
  assert (Hnext : run (action_machine act core) (l ++ [ev]) =
                  mkMachine (Done (RAction (resetBackOffDuration c) (fst outcome) (snd outcome)))
                            (resetBackOffDuration c)).
  { rewrite run_snoc, Hrun. unfold next, ev. cbn. rewrite Hld. cbn.
    rewrite Hs, Hq, Hd. cbn. rewrite Hid, N.eqb_refl.
    unfold outcome. destruct info as [rid [msg |]]; reflexivity. }
  assert (Hv' : valid (action_machine act core) (l ++ [ev]))
    by (apply valid_snoc; auto).
  exists (resetBackOffDuration c). cbv zeta. fold outcome.
  split; [reflexivity|]. split.
  - apply ExecuteActionRequest_machine. split; [exact Hv'|].
    rewrite Hnext. unfold action_ret. cbn. reflexivity.
  - intros l' o Hcan. apply ExecuteActionRequest_machine in Hcan.
    destruct Hcan as [Hv2 Ho]. apply valid_app in Hv2. destruct Hv2 as [_ Hv2].
    rewrite Hnext in Hv2. apply valid_returned in Hv2; [|reflexivity]. subst l'.
    split; [reflexivity|]. rewrite app_nil_r, Hnext in Ho.
    destruct o as [| k | [c' [ok msg]]]; auto.
    + discriminate.
    + right. unfold action_ret in Ho. cbn in Ho. injection Ho as <- <- <-.
      now destruct outcome.
Qed.

Definition fixed_mode (m0 : Mode) (m : Mode) : Prop := m = m0.

Lemma fixed_mode_next m0 M ev :
  (m0 = Lookup \/ (exists q, m0 = Check q) \/ exists q, m0 = Query q) ->
  in_modes (fixed_mode m0) M -> pending M = Some (call_of_event ev) ->
  in_modes (fixed_mode m0) (next M ev).
Proof.
  intros Hm0.
  destruct M as [[m | m pl | m | r | reason] core]; unfold in_modes, fixed_mode, pending, next; cbn;
    intros Hm Hp.
  - subst m. destruct (leaderID core) eqn:E.
    + destruct Hm0 as [-> | [[q ->] | [q ->]]]; try discriminate;
        destruct ev; try discriminate; cbn.
      * destruct (check_result n res) as [[info err] |]; cbn; auto.
      * destruct res as [queryRes | e]; cbn; auto.
        destruct (Success queryRes); cbn; auto.
        destruct (QueryErr queryRes); cbn; auto.
    + destruct ev; try discriminate; cbn.
      destruct ((r <? 0) || (Z.of_nat (List.length (nl core)) <=? r)); cbn; auto.
      destruct (nth_error (nl core) (Z.to_nat r)); cbn; auto.
  - destruct ev; try discriminate. destruct res as [leaderRes | e]; cbn; auto.
    destruct (HasLeader leaderRes); cbn; auto.
  - destruct ev; try discriminate. cbn. auto.
  - discriminate.
  - destruct ev; discriminate.
Qed.

Lemma query_mode_run query core l :
  valid (query_machine query core) l ->
  in_modes (fixed_mode (Query {| QueryCmd := query |})) (run (query_machine query core) l).
Proof.
  apply run_invariant.
  - intros M ev. apply fixed_mode_next. right; right; eauto.
  - reflexivity.
Qed.

Lemma check_mode_run q core l :
  valid (check_machine q core) l ->
  in_modes (fixed_mode (Check q)) (run (check_machine q core) l).
Proof.
  apply run_invariant.
  - intros M ev. apply fixed_mode_next. right; left; eauto.
  - reflexivity.
Qed.

Lemma leader_mode_run core l :
  valid (leader_machine core) l ->
  in_modes (fixed_mode Lookup) (run (leader_machine core) l).
Proof.
  apply run_invariant.
  - intros M ev. apply fixed_mode_next. left; eauto.
  - reflexivity.
Qed.

Lemma query_query_pending query core l t req :
  valid (query_machine query core) l ->
  pending (run (query_machine query core) l) = Some (CQuery t req) ->
  exists c,
    run (query_machine query core) l = mkMachine (Head (Query {| QueryCmd := query |})) c /\
    leaderID c = Some t /\ req = {| QueryCmd := query |}.
Proof.
  intros Hv Hp.
  pose proof (query_mode_run query core l Hv) as Hm.
  destruct (pending_query_inv _ Hp) as (m & Hc & Hld & Hcase).
  destruct (run (query_machine query core) l) as [c0 c]. cbn in *. subst c0.
  unfold in_modes, fixed_mode in Hm. cbn in Hm. subst m.
  destruct Hcase as [H | [(j' & i' & H & _) | H]]; try discriminate.
  injection H as <-. eauto.
Qed.

(** C7. [ExecuteQueryRequest] does not retry a response with
    [success = true]: it returns at once, with the query error as the error
    result and nil data when the response carries one, and with the
    response's data and a nil error otherwise.  In both cases the returned
    core has the backoff at the floor, the return is reached, and no further
    call (so no further RPC) follows the response. *)
Theorem successful_query_returns :
  forall query core l target req queryRes,
    can (ExecuteQueryRequest query core)
        (l ++ [EvQuery target req (RPCOk queryRes)]) Running ->
    Success queryRes = true ->
    exists core',
      let res := match QueryErr queryRes with
                 | Some msg => (VNil, Some msg)
                 | None => (Data queryRes, None)
                 end in
      backOffDuration core' = initBackOffDuration /\
      can (ExecuteQueryRequest query core)
          (l ++ [EvQuery target req (RPCOk queryRes)])
          (Returned (core', res)) /\
      forall l' o,
        can (ExecuteQueryRequest query core)
            ((l ++ [EvQuery target req (RPCOk queryRes)]) ++ l') o ->
        l' = [] /\ (o = Running \/ o = Returned (core', res)).
Proof.
  intros query core l target req queryRes Hcan Hs.
  apply ExecuteQueryRequest_machine in Hcan. destruct Hcan as [Hv _].
  apply valid_snoc in Hv. destruct Hv as [Hv Hp].
  destruct (query_query_pending query core l Hv Hp) as (c & Hrun & Hld & Hreq).
  set (ev := EvQuery target req (RPCOk queryRes)) in *.
  set (res := match QueryErr queryRes with
              | Some msg => (VNil, Some msg)
              | None => (Data queryRes, None)
              end).
  assert (Hnext : run (query_machine query core) (l ++ [ev]) =
                  mkMachine (Done (RQuery (resetBackOffDuration c) (fst res) (snd res)))
                            (resetBackOffDuration c)).
  { rewrite run_snoc, Hrun. unfold next, ev. cbn. rewrite Hld, Hs.
    unfold res. destruct (QueryErr queryRes); reflexivity. }
  assert (Hv' : valid (query_machine query core) (l ++ [ev]))
    by (apply valid_snoc; auto).
  exists (resetBackOffDuration c). cbv zeta. fold res.
  split; [reflexivity|]. split.
  - apply ExecuteQueryRequest_machine. split; [exact Hv'|].
    rewrite Hnext. unfold query_ret. cbn. reflexivity.
  - intros l' o Hcan. apply ExecuteQueryRequest_machine in Hcan.
    destruct Hcan as [Hv2 Ho]. apply valid_app in Hv2. destruct Hv2 as [_ Hv2].
    rewrite Hnext in Hv2. apply valid_returned in Hv2; [|reflexivity]. subst l'.
    split; [reflexivity|]. rewrite app_nil_r, Hnext in Ho.
    destruct o as [| k | [c' [d e]]]; auto.
    + discriminate.
    + right. unfold query_ret in Ho. cbn in Ho. injection Ho as <- <- <-.
      now destruct res.
Qed.

(** ** Reading a trace of [ExecuteActionRequest] *)

(** An ActionRequest was sent (whatever the answer). *)
Definition is_send (ev : Event) : bool :=
  match ev with EvAction _ _ _ => true | _ => false end.

(** The send succeeded: no transport error and [Started]. *)
Definition send_ok (ev : Event) : bool :=
  match ev with EvAction _ _ (RPCOk res) => Started res | _ => false end.

(** A confirmation poll was made (whatever the answer). *)
Definition is_poll (ev : Event) : bool :=
  match ev with EvQuery _ _ _ => true | _ => false end.

(** The request info [checkActionRequest] returns for the poll's answer. *)
Definition polled_info (ev : Event) : option TSMRequestInfo :=
  match ev with
  | EvQuery t _ res =>
      match check_result t res with
      | Some (info, _) => info
      | None => None
      end
  | _ => None
  end.

(** The poll returned the request info of [reqID]. *)
Definition poll_matches (reqID : RequestID) (ev : Event) : bool :=
  matches reqID (polled_info ev).

Definition polls (l : list Event) : Z := Z.of_nat (List.length (filter is_poll l)).

(** How many turns of the check loop are used up. *)
Definition turns_used (M : Machine) : option Z :=
  match mode_of (ctl M) with
  | Some (Poll _ i) => Some i
  | Some (Submit _) => Some maxCheckCountBeforeRetry
  | _ => None
  end.

Lemma polls_cons ev l : polls (ev :: l) = polls l + (if is_poll ev then 1 else 0).
Proof.
  unfold polls. cbn. destruct (is_poll ev); cbn [List.length]; lia.
Qed.

Lemma check_segment j mid :
  forall M i,
    in_modes (action_mode j) M ->
    valid M mid ->
    forallb (fun ev => negb (is_send ev)) mid = true ->
    turns_used M = Some i ->
    i + polls mid <= maxCheckCountBeforeRetry /\
    (forall k, turns_used (run M mid) = Some k ->
               k = i + polls mid /\
               forallb (fun ev => negb (poll_matches (jobID j) ev)) mid = true).
Proof.
  induction mid as [| ev mid IH]; intros M i Hm Hv Hns Hi.
  - cbn. unfold polls. cbn. rewrite Z.add_0_r. split.
    + destruct M as [[m | m pl | m | r | reason] core]; unfold turns_used in Hi; cbn in *;
        try discriminate;
        (destruct Hm as [-> | (i' & -> & Hr)]; injection Hi as <-;
         unfold maxCheckCountBeforeRetry in *; lia).
    + intros k Hk. split; [congruence | reflexivity].
  - cbn in Hv, Hns. destruct Hv as [Hp Hv]. apply andb_prop in Hns. destruct Hns as [Hev Hns].
    pose proof (@action_mode_next j M ev Hm Hp) as Hm'.
    rewrite polls_cons. cbn [run fold_left]. change (fold_left next mid (next M ev)) with (run (next M ev) mid).
    destruct M as [[m | m pl | m | r | reason] core]; unfold turns_used in Hi; cbn in Hi;
      try discriminate.
    + (* Head *)
      unfold pending in Hp. cbn in Hp.
      destruct (leaderID core) as [ld |] eqn:Eld.
      * destruct Hm as [-> | (i' & -> & Hr)]; injection Hi as <-;
          destruct ev; try discriminate.
        (* a poll *)
        injection Hp as <- <-. cbn [is_poll].
        assert (Hnext : next (mkMachine (Head (Poll j i')) core) (EvQuery ld (jobPoll j) res) =
                        match check_result ld res with
                        | None =>
                            mkMachine
                              (Panicked not_a_request_info)
                              core
                        | Some (info, _) =>
                            if matches (jobID j) info
                            then let core := resetBackOffDuration core in
                                 let '(ok, msg) := action_outcome info in
                                 mkMachine (Done (RAction core ok msg)) core
                            else mkMachine (Backoff (poll_turn j (i' + 1)))
                                           (set_leaderID None core)
                        end).
        { unfold next. cbn. rewrite Eld.
          rewrite wrap64_small by (unfold maxCheckCountBeforeRetry in *; lia).
          reflexivity. }
        rewrite Hnext in Hm', Hv |- *. clear Hnext.
        assert (Hpm : poll_matches (jobID j) (EvQuery ld (jobPoll j) res) =
                      match check_result ld res with
                      | Some (info, _) => matches (jobID j) info
                      | None => false
                      end).
        { unfold poll_matches, polled_info.
          destruct (check_result ld res) as [[info err] |]; reflexivity. }
        cbn [forallb]. rewrite Hpm. clear Hpm.
        destruct (check_result ld res) as [[info err] |] eqn:Echk.
        -- destruct (matches (jobID j) info) eqn:Em.
           ++ cbv zeta in Hv. destruct (action_outcome info) as [ok msg].
              apply valid_returned in Hv; [|reflexivity]. subst mid.
              unfold polls; cbn. split; [unfold maxCheckCountBeforeRetry in *; lia|].
              unfold turns_used; cbn. discriminate.
           ++ destruct (IH _ (i' + 1) Hm' Hv Hns) as [IH1 IH2].
              { unfold turns_used, poll_turn. cbn.
                destruct (i' + 1 <? maxCheckCountBeforeRetry) eqn:E; cbn; [reflexivity|].
                apply Z.ltb_ge in E. f_equal. lia. }
              split; [lia|]. intros k Hk. destruct (IH2 k Hk) as [-> ->].
              split; [lia | reflexivity].
        -- apply valid_panicked with (reason := not_a_request_info) in Hv; [|reflexivity].
           subst mid. unfold polls; cbn. split; [unfold maxCheckCountBeforeRetry in *; lia|].
           unfold turns_used; cbn. discriminate.
      * destruct ev; try discriminate. cbn [is_poll]. rewrite Z.add_0_r.
        assert (Hpm : poll_matches (jobID j) (EvRandom lo hi r) = false) by reflexivity.
        cbn [forallb]. rewrite Hpm. cbn [negb andb].
        revert Hm' Hv. unfold next. cbn. rewrite Eld.
        destruct ((r <? 0) || (Z.of_nat (List.length (nl core)) <=? r)).
        { intros _ Hv'. apply valid_panicked with (reason := index_out_of_range) in Hv'; [|reflexivity].
          subst mid. unfold polls; cbn. rewrite Z.add_0_r. split.
          - destruct Hm as [-> | (i' & -> & Hr)]; injection Hi as <-;
              unfold maxCheckCountBeforeRetry in *; lia.
          - unfold turns_used; cbn. discriminate. }
        destruct (nth_error (nl core) (Z.to_nat r)).
        { intros Hm'' Hv'. apply (IH (mkMachine (Picked m n) core) i Hm'' Hv' Hns). exact Hi. }
        { intros _ Hv'. apply valid_panicked with (reason := index_out_of_range) in Hv'; [|reflexivity].
          subst mid. unfold polls; cbn. rewrite Z.add_0_r. split.
          - destruct Hm as [-> | (i' & -> & Hr)]; injection Hi as <-;
              unfold maxCheckCountBeforeRetry in *; lia.
          - unfold turns_used; cbn. discriminate. }
    + (* Picked *)
      destruct ev; try discriminate. cbn [is_poll]. rewrite Z.add_0_r.
      assert (Hpm : poll_matches (jobID j) (EvLeader target res) = false) by reflexivity.
      cbn [forallb]. rewrite Hpm. cbn [negb andb].
      apply (IH _ i Hm' Hv Hns).
      unfold next. cbn. destruct res as [leaderRes | e]; cbn; auto.
      destruct (HasLeader leaderRes); cbn; auto.
    + (* Backoff *)
      destruct ev; try discriminate. cbn [is_poll]. rewrite Z.add_0_r.
      assert (Hpm : poll_matches (jobID j) (EvSleep nanos) = false) by reflexivity.
      cbn [forallb]. rewrite Hpm. cbn [negb andb].
      apply (IH _ i Hm' Hv Hns). exact Hi.
Qed.

Lemma action_send_pending act core l t req :
  valid (action_machine act core) l ->
  pending (run (action_machine act core) l) = Some (CAction t req) ->
  exists c,
    run (action_machine act core) l = mkMachine (Head (Submit (job_of act core))) c /\
    leaderID c = Some t /\ req = {| ActionCmd := act |}.
Proof.
  intros Hv Hp.
  pose proof (action_mode_run act core l Hv) as Hm.
  destruct (pending_action_inv _ Hp) as (j & Hc & Hld & Hreq).
  destruct (run (action_machine act core) l) as [c0 c]. cbn in *. subst c0.
  unfold in_modes in Hm. cbn in Hm.
  destruct Hm as [Hj | (i & Hj & _)]; [|discriminate].
  injection Hj as ->. eauto.
Qed.

(** C1. In every execution of [ExecuteActionRequest]: every ActionRequest
    sent, the first one and each resend, carries the one command [act] (so the
    same RequestID); and after a send that succeeded, the polls made before
    the next send are never more than [maxCheckCountBeforeRetry] (6), and when
    the action is sent again they are exactly 6, none of them having returned
    the matching request info.  Every poll counts, whatever its answer
    (transport error, decline, no request info, another RequestID). *)
Theorem resend_after_exactly_six_polls :
  forall act core l o,
    can (ExecuteActionRequest act core) l o ->
    (forall target req res,
        In (EvAction target req res) l -> req = {| ActionCmd := act |}) /\
    (forall pre s mid rest,
        l = pre ++ s :: mid ++ rest ->
        send_ok s = true ->
        forallb (fun ev => negb (is_send ev)) mid = true ->
        polls mid <= maxCheckCountBeforeRetry /\
        (forall s' rest',
            rest = s' :: rest' -> is_send s' = true ->
            polls mid = maxCheckCountBeforeRetry /\
            forallb (fun ev => negb (poll_matches (GetRequestID act) ev)) mid = true)).
Proof.
  intros act core l o Hcan.
  apply ExecuteActionRequest_machine in Hcan. destruct Hcan as [Hv _].
  split.
  - intros target req res Hin.
    apply in_split in Hin. destruct Hin as (l1 & l2 & ->).
    apply valid_app in Hv. destruct Hv as [Hv1 [Hp _]].
    destruct (action_send_pending act core l1 Hv1 Hp) as (c & _ & _ & Hreq).
    exact Hreq.
  - intros pre s mid rest -> Hs Hns.
    apply valid_app in Hv. destruct Hv as [Hv1 [Hp Hv2]].
    destruct s as [| | t req [res | e] | |]; try discriminate. cbn in Hs.
    destruct (action_send_pending act core pre Hv1 Hp) as (c & Hrun & Hld & Hreq).
    pose proof (action_mode_run act core (pre ++ [EvAction t req (RPCOk res)])) as Hm.
    rewrite run_snoc in Hm.
    assert (Hnext : next (run (action_machine act core) pre) (EvAction t req (RPCOk res)) =
                    mkMachine (Head (Poll (job_of act core) 0)) (resetBackOffDuration c)).
    { rewrite Hrun. unfold next. cbn. rewrite Hld, Hs. reflexivity. }
    rewrite Hnext in Hm, Hv2.
    apply valid_app in Hv2. destruct Hv2 as [Hv2 Hv3].
    destruct (@check_segment (job_of act core) mid _ 0 (Hm (proj2 (valid_snoc _ _ _) (conj Hv1 Hp)))
                             Hv2 Hns eq_refl) as [H1 H2].
    split; [lia|].
    intros s' rest' -> Hs'. cbn in Hv3. destruct Hv3 as [Hp' _].
    destruct s' as [| | t' req' res' | |]; try discriminate. cbn in Hp'.
    destruct (pending_action_inv _ Hp') as (j' & Hc' & _).
    destruct (H2 maxCheckCountBeforeRetry) as [E1 E2].
    { unfold turns_used. rewrite Hc'. reflexivity. }
    split; [lia | exact E2].
Qed.

(** While a member is being asked, and while backing off, no leader is
    cached. *)
Definition unknown_while_searching (M : Machine) : Prop :=
  match ctl M with
  | Picked _ _ | Backoff _ => leaderID (mcore M) = None
  | _ => True
  end.

Lemma unknown_while_searching_next M ev :
  unknown_while_searching M -> pending M = Some (call_of_event ev) ->
  unknown_while_searching (next M ev).
Proof.
  destruct M as [[m | m pl | m | r | reason] core];
    unfold unknown_while_searching, pending, next; cbn; intros Hm Hp.
  - destruct (leaderID core) eqn:E.
    + destruct m; try discriminate; destruct ev; try discriminate; cbn.
      * destruct (check_result n res) as [[info err] |]; cbn; auto.
      * destruct res as [actionRes | e]; cbn; auto.
        destruct (Started actionRes); cbn; auto.
      * destruct (check_result n res) as [[info err] |]; cbn; auto.
        destruct (matches (jobID j) info); cbn; auto.
        destruct (action_outcome info); cbn; auto.
      * destruct res as [queryRes | e]; cbn; auto.
        destruct (Success queryRes); cbn; auto.
        destruct (QueryErr queryRes); cbn; auto.
    + destruct ev; try discriminate; cbn.
      destruct ((r <? 0) || (Z.of_nat (List.length (nl core)) <=? r)); cbn; auto.
      destruct (nth_error (nl core) (Z.to_nat r)); cbn; auto.
  - destruct ev; try discriminate. destruct res as [leaderRes | e]; cbn; auto.
    destruct (HasLeader leaderRes); cbn; auto.
  - destruct ev; try discriminate. cbn. auto.
  - discriminate.
  - destruct ev; discriminate.
Qed.

Lemma unknown_while_searching_run m core l :
  valid (mkMachine (Head m) core) l ->
  unknown_while_searching (run (mkMachine (Head m) core) l).
Proof.
  apply run_invariant.
  - intros M ev. apply unknown_while_searching_next.
  - exact I.
Qed.

(** The leader request did not produce a leader: a transport error, or an
    answer without one. *)
Definition leader_failed (res : RPCResult LeaderRes) : bool :=
  match res with
  | RPCOk leaderRes => negb (HasLeader leaderRes)
  | RPCErr _ => true
  end.

Lemma nth_error_in_range (s : list NodeID) r pl :
  0 <= r -> nth_error s (Z.to_nat r) = Some pl ->
  (r <? 0) || (Z.of_nat (List.length s) <=? r) = false.
Proof.
  intros Hr Hn.
  assert (Hlt : (Z.to_nat r < List.length s)%nat)
    by (apply nth_error_Some; congruence).
  apply orb_false_iff. split; [apply Z.ltb_ge | apply Z.leb_gt]; lia.
Qed.

(** C6. [lookForLeader] with a cached leader returns it at once, without any
    call; with no cached leader it picks a random member and sends it a
    LeaderRequest; a response with [hasLeader = true] makes it cache the
    reported leader, reset the backoff and return that leader; a response
    without a leader, or a transport error, makes it sleep, double the backoff
    and start over; and whenever it returns, it returns the leader it has
    cached. *)
Theorem lookForLeader_behaviour :
  forall core,
    (forall ld, leaderID core = Some ld ->
        can (lookForLeader core) [] (Returned (core, ld)) /\
        forall l o, can (lookForLeader core) l o ->
                    l = [] /\ (o = Running \/ o = Returned (core, ld))) /\
    (leaderID core = None ->
     let hi := Z.of_nat (List.length (nl core)) - 1 in
     can (lookForLeader core) [] (Blocked (CRandom 0 hi)) /\
     forall r pl,
       0 <= r -> nth_error (nl core) (Z.to_nat r) = Some pl ->
       can (lookForLeader core) [EvRandom 0 hi r] (Blocked (CLeader pl)) /\
       (forall leaderRes,
           HasLeader leaderRes = true ->
           can (lookForLeader core) [EvRandom 0 hi r; EvLeader pl (RPCOk leaderRes)]
               (Returned (resetBackOffDuration
                            (set_leaderID (Some (LeaderID leaderRes)) core),
                          LeaderID leaderRes))) /\
       (forall res,
           leader_failed res = true ->
           let nap := EvSleep (wrap64 (backOffDuration core * Millisecond)) in
           forall l o,
             can (lookForLeader core) ([EvRandom 0 hi r; EvLeader pl res; nap] ++ l) o <->
             can (lookForLeader (backed_off (set_leaderID None core))) l o)) /\
    (forall l core' ld,
        can (lookForLeader core) l (Returned (core', ld)) ->
        leaderID core' = Some ld /\
        (leaderID core = None ->
         backOffDuration core' = initBackOffDuration /\
         exists l' pl leaderRes,
           l = l' ++ [EvLeader pl (RPCOk leaderRes)] /\
           HasLeader leaderRes = true /\ LeaderID leaderRes = ld)).
Proof.
  intros core. split; [|split].
  - intros ld Eld.
    assert (Hp : pending (leader_machine core) = None)
      by (unfold pending, leader_machine; cbn; now rewrite Eld).
    split.
    + apply lookForLeader_machine. split; [exact I|]. cbn. split; auto.
    + intros l o Hcan. apply lookForLeader_machine in Hcan. destruct Hcan as [Hv Ho].
      apply valid_returned in Hv; [|exact Hp]. subst l. split; [reflexivity|].
      cbn in Ho. destruct o as [| c | [core' ld']]; auto.
      * rewrite Eld in Ho. discriminate.
      * right. destruct Ho as [E1 E2]. cbn in *. injection E1 as <-.
        congruence.
  - intros Eld hi.
    assert (Hp : pending (leader_machine core) = Some (CRandom 0 hi))
      by (unfold pending, leader_machine; cbn; now rewrite Eld).
    split.
    + apply lookForLeader_machine. split; [exact I | exact Hp].
    + intros r pl Hr Hn.
      pose proof (nth_error_in_range _ Hr Hn) as Hrange.
      assert (Hpick : next (leader_machine core) (EvRandom 0 hi r) =
                      mkMachine (Picked Lookup pl) core).
      { unfold next, leader_machine. cbn. now rewrite Eld, Hrange, Hn. }
      split; [|split].
      * apply lookForLeader_machine. split.
        -- cbn [valid call_of_event]. auto.
        -- unfold simulates, run; cbn [fold_left]. now rewrite Hpick.
      * intros leaderRes Hl. apply lookForLeader_machine. split.
        -- cbn [valid call_of_event]. rewrite Hpick. auto.
        -- unfold simulates, run; cbn [fold_left]. rewrite Hpick. unfold next. cbn. rewrite Hl.
           split; reflexivity.
      * intros res Hf nap l o.
        assert (Hrun : run (leader_machine core) [EvRandom 0 hi r; EvLeader pl res; nap] =
                       leader_machine (backed_off (set_leaderID None core))).
        { unfold simulates, run; cbn [fold_left]. rewrite Hpick. unfold next. cbn.
          destruct res as [leaderRes | e]; cbn in *.
          - destruct (HasLeader leaderRes); [discriminate | reflexivity].
          - reflexivity. }
        assert (Hval : valid (leader_machine core) [EvRandom 0 hi r; EvLeader pl res; nap]).
        { cbn [valid call_of_event]. rewrite Hpick. split; [exact Hp|]. split; [reflexivity|].
          split; [|exact I].
          unfold next. cbn.
          destruct res as [leaderRes | e]; cbn in *.
          - destruct (HasLeader leaderRes); [discriminate | reflexivity].
          - reflexivity. }
        rewrite !lookForLeader_machine. unfold simulates.
        rewrite valid_app, run_app, Hrun. tauto.
  - intros l core' ld Hcan. apply lookForLeader_machine in Hcan.
    destruct Hcan as [Hv [Hrun Eld']]. cbn in Hrun, Eld'.
    split; [exact Eld'|]. intros Eld.
    destruct l as [| ev0 l0] using rev_ind.
    { cbn in Hrun. injection Hrun as ->. congruence. }
    clear IHl0. apply valid_snoc in Hv. destruct Hv as [Hv Hp].
    rewrite run_snoc in Hrun.
    pose proof (leader_mode_run core l0 Hv) as Hm.
    pose proof (unknown_while_searching_run Lookup core l0 Hv) as Hu.
    fold (leader_machine core) in Hu.
    destruct (run (leader_machine core) l0) as [[m | m pl | m | r | reason] c];
      unfold in_modes, fixed_mode, unknown_while_searching in Hm, Hu; cbn in Hm, Hu;
      unfold pending in Hp; cbn in Hp.
    + subst m. destruct (leaderID c) eqn:E; [discriminate|].
      destruct ev0; try discriminate.
      revert Hrun. unfold next. cbn. rewrite E.
      destruct ((r <? 0) || (Z.of_nat (List.length (nl c)) <=? r)); [discriminate|].
      destruct (nth_error (nl c) (Z.to_nat r)); discriminate.
    + subst m. destruct ev0; try discriminate. injection Hp as <-.
      revert Hrun. unfold next. cbn.
      destruct res as [leaderRes | e]; [|discriminate].
      destruct (HasLeader leaderRes) eqn:El; [|discriminate].
      intros H. injection H as <-. cbn in Eld'. injection Eld' as <-.
      split; [reflexivity|]. exists l0, pl, leaderRes. auto.
    + subst m. destruct ev0; try discriminate.
      revert Hrun. unfold next. cbn. intros H. injection H as <-.
      cbn in Eld'. congruence.
    + discriminate.
    + destruct ev0; discriminate.
Qed.

Lemma check_query_pending q core l t req :
  valid (check_machine q core) l ->
  pending (run (check_machine q core) l) = Some (CQuery t req) ->
  exists c,
    run (check_machine q core) l = mkMachine (Head (Check q)) c /\
    leaderID c = Some t /\ req = q.
Proof.
  intros Hv Hp.
  pose proof (check_mode_run q core l Hv) as Hm.
  destruct (pending_query_inv _ Hp) as (m & Hc & Hld & Hcase).
  destruct (run (check_machine q core) l) as [c0 c]. cbn in *. subst c0.
  unfold in_modes, fixed_mode in Hm. cbn in Hm. subst m.
  destruct Hcase as [H | [(j' & i' & H & _) | H]]; try discriminate.
  injection H as <-. eauto.
Qed.

(** What [checkActionRequest] does once its query is answered. *)
Lemma check_answered q core l t req res :
  can (checkActionRequest q core) (l ++ [EvQuery t req res]) Running ->
  exists c,
    leaderID c = Some t /\
    valid (check_machine q core) (l ++ [EvQuery t req res]) /\
    run (check_machine q core) (l ++ [EvQuery t req res]) =
    match check_result t res with
    | None => mkMachine (Panicked not_a_request_info) c
    | Some (info, err) => mkMachine (Done (RCheck c info err)) c
    end.
Proof.
  intros Hcan. apply checkActionRequest_machine in Hcan. destruct Hcan as [Hv _].
  pose proof Hv as Hv0.
  apply valid_snoc in Hv. destruct Hv as [Hv Hp].
  destruct (check_query_pending q core l Hv Hp) as (c & Hrun & Hld & Hreq).
  exists c. split; [exact Hld|]. split; [exact Hv0|].
  rewrite run_snoc, Hrun. unfold next. cbn. rewrite Hld.
  destruct (check_result t res) as [[info err] |]; reflexivity.
Qed.

Lemma check_result_none t res :
  check_result t res = None ->
  exists queryRes,
    res = RPCOk queryRes /\ Success queryRes = true /\ QueryErr queryRes = None /\
    forall info, Data queryRes <> VRequestInfo info.
Proof.
  unfold check_result. destruct res as [queryRes | e]; [|discriminate].
  destruct (Success queryRes) eqn:Es; [|discriminate].
  destruct (QueryErr queryRes) eqn:Eq; [discriminate|].
  destruct (Data queryRes) eqn:Ed; try discriminate;
    intros _; exists queryRes; repeat split; auto; intros info; rewrite Ed; discriminate.
Qed.

(** How the machine comes to panic. *)
Lemma next_panicked_inv M ev reason :
  pending M = Some (call_of_event ev) ->
  ctl (next M ev) = Panicked reason ->
  (exists lo hi r, ev = EvRandom lo hi r /\ reason = index_out_of_range) \/
  (exists t req res, ev = EvQuery t req res /\ check_result t res = None /\
                     reason = not_a_request_info).
Proof.
  destruct M as [[m | m pl | m | r | rs] core]; unfold pending, next; cbn; intros Hp.
  - destruct (leaderID core) as [ld |] eqn:E.
    + destruct m; try discriminate; destruct ev; try discriminate; cbn;
        injection Hp as <- <-.
      * destruct (check_result ld res) as [[info err] |] eqn:Ec; cbn; [discriminate|].
        intros H. injection H as <-. right. eauto 6.
      * destruct res as [actionRes | e]; cbn; [|discriminate].
        destruct (Started actionRes); discriminate.
      * destruct (check_result ld res) as [[info err] |] eqn:Ec; cbn.
        -- destruct (matches (jobID j) info); cbn; [|discriminate].
           destruct (action_outcome info); discriminate.
        -- intros H. injection H as <-. right. eauto 6.
      * destruct res as [queryRes | e]; cbn; [|discriminate].
        destruct (Success queryRes); cbn; [|discriminate].
        destruct (QueryErr queryRes); discriminate.
    + destruct ev; try discriminate; cbn.
      destruct ((r <? 0) || (Z.of_nat (List.length (nl core)) <=? r)); cbn.
      * intros H. injection H as <-. left. eauto.
      * destruct (nth_error (nl core) (Z.to_nat r)); cbn; [discriminate|].
        intros H. injection H as <-. left. eauto.
  - destruct ev; try discriminate. destruct res as [leaderRes | e]; cbn; [|discriminate].
    destruct (HasLeader leaderRes); discriminate.
  - destruct ev; discriminate.
  - discriminate.
  - destruct ev; discriminate.
Qed.

(** [checkActionRequest] asserts, without a check, that the data of a
    response with [success = true] and no query error is a
    [sm.TSMRequestInfo].  If every such response of an execution carries one,
    the assertion never panics, and the response's info is returned with a
    nil error; a response whose data is of any other type (or nil) makes the
    function panic: it neither returns an error nor does anything else. *)
Lemma type_assertion_on_every_prefix :
  forall queryReq core,
    (forall l o,
        can (checkActionRequest queryReq core) l o ->
        (forall t req queryRes,
            In (EvQuery t req (RPCOk queryRes)) l ->
            Success queryRes = true -> QueryErr queryRes = None ->
            exists info, Data queryRes = VRequestInfo info) ->
        o <> Blocked (CPanic not_a_request_info)) /\
    (forall l t req queryRes,
        can (checkActionRequest queryReq core)
            (l ++ [EvQuery t req (RPCOk queryRes)]) Running ->
        Success queryRes = true -> QueryErr queryRes = None ->
        (forall info,
            Data queryRes = VRequestInfo info ->
            exists core',
              can (checkActionRequest queryReq core)
                  (l ++ [EvQuery t req (RPCOk queryRes)])
                  (Returned (core', (Some info, None)))) /\
        ((forall info, Data queryRes <> VRequestInfo info) ->
         can (checkActionRequest queryReq core)
             (l ++ [EvQuery t req (RPCOk queryRes)])
             (Blocked (CPanic not_a_request_info)) /\
         forall l' o,
           can (checkActionRequest queryReq core)
               ((l ++ [EvQuery t req (RPCOk queryRes)]) ++ l') o ->
           l' = [] /\ (o = Running \/ o = Blocked (CPanic not_a_request_info)))).
Proof.
  intros queryReq core. split.
  - intros l o Hcan Hpre ->.
    apply checkActionRequest_machine in Hcan. destruct Hcan as [Hv Hp]. cbn in Hp.
    destruct l as [| ev l] using rev_ind.
    { cbn in Hp. unfold pending in Hp. cbn in Hp.
      destruct (leaderID core); discriminate. }
    clear IHl. apply valid_snoc in Hv. destruct Hv as [Hv Hp'].
    rewrite run_snoc in Hp.
    assert (Hc : ctl (next (run (check_machine queryReq core) l) ev) =
                 Panicked not_a_request_info).
    { destruct (next (run (check_machine queryReq core) l) ev)
        as [[m | m pl | m | r | rs] c]; unfold pending in Hp; cbn in Hp;
        try discriminate.
      - destruct (leaderID c); [destruct m|]; discriminate.
      - injection Hp as ->. reflexivity. }
    destruct (next_panicked_inv _ _ Hp' Hc)
      as [(lo & hi & r & _ & E) | (t & req & res & -> & Ec & _)].
    + discriminate.
    + destruct (check_result_none _ _ Ec) as (queryRes & -> & Es & Eq & Hd).
      destruct (Hpre t req queryRes) as (info & Hinfo); auto.
      * apply in_or_app. right. now left.
      * exact (Hd info Hinfo).
  - intros l t req queryRes Hcan Hs Hq.
    destruct (check_answered _ _ _ _ _ _ Hcan) as (c & Hld & Hv & Hrun).
    split.
    + intros info Hd. exists c.
      apply checkActionRequest_machine. split; [exact Hv|].
      rewrite Hrun. unfold check_result. rewrite Hs, Hq, Hd. reflexivity.
    + intros Hd.
      assert (Ec : check_result t (RPCOk queryRes) = None).
      { unfold check_result. rewrite Hs, Hq.
        destruct (Data queryRes) eqn:Ed; try reflexivity.
        now destruct (Hd info). }
      rewrite Ec in Hrun. split.
      * apply checkActionRequest_machine. split; [exact Hv|]. now rewrite Hrun.
      * intros l' o Hcan'. apply checkActionRequest_machine in Hcan'.
        destruct Hcan' as [Hv' Ho]. apply valid_app in Hv'. destruct Hv' as [_ Hv'].
        rewrite Hrun in Hv'.
        apply valid_panicked with (reason := not_a_request_info) in Hv'; [|reflexivity].
        subst l'. split; [reflexivity|]. rewrite app_nil_r, Hrun in Ho.
        destruct o as [| k | r]; auto.
        -- right. cbn in Ho. congruence.
        -- unfold check_ret in Ho. discriminate.
Qed.

(** The operation's returns, read off the machine. *)
Lemma action_returned_inv act core l core' ok msg :
  can (ExecuteActionRequest act core) l (Returned (core', (ok, msg))) ->
  exists l' t req queryRes info,
    l = l' ++ [EvQuery t req (RPCOk queryRes)] /\
    Success queryRes = true /\ QueryErr queryRes = None /\
    Data queryRes = VRequestInfo info /\
    RequestId info = GetRequestID act /\
    (ok, msg) = match Err info with
                | Some m => (false, m)
                | None => (true, "action success")
                end.
Proof.
  intros Hcan. apply ExecuteActionRequest_machine in Hcan.
  destruct Hcan as [Hv Hret]. unfold action_ret in Hret. cbn in Hret.
  destruct l as [| ev l] using rev_ind; [discriminate|]. clear IHl.
  apply valid_snoc in Hv. destruct Hv as [Hv Hp]. rewrite run_snoc in Hret.
  pose proof (action_mode_run act core l Hv) as Hm.
  destruct (run (action_machine act core) l) as [[m | m pl | m | r | rs] c];
    unfold in_modes in Hm; cbn in Hm; unfold pending in Hp; cbn in Hp;
    revert Hret; unfold next; cbn.
  - destruct (leaderID c) as [ld |] eqn:Eld.
    + destruct Hm as [-> | (i & -> & Hi)]; destruct ev; try discriminate;
        injection Hp as <- <-.
      * destruct res as [actionRes | e]; [|discriminate].
        destruct (Started actionRes); discriminate.
      * destruct (check_result ld res) as [[info err] |] eqn:Ec; [|discriminate].
        destruct (matches (jobID (job_of act core)) info) eqn:Em; [|discriminate].
        destruct info as [info |]; [|discriminate].
        unfold check_result in Ec.
        destruct res as [queryRes | e]; [|discriminate].
        destruct (Success queryRes) eqn:Es; [|discriminate].
        destruct (QueryErr queryRes) eqn:Eq; [discriminate|].
        destruct (Data queryRes) eqn:Ed; try discriminate.
        injection Ec as -> <-. cbn in Em. apply N.eqb_eq in Em.
        intros H. exists l, ld, (jobPoll (job_of act core)), queryRes, info.
        repeat split; auto.
        destruct info as [rid [m |]]; cbn in H |- *; now injection H as <- <- <-.
    + destruct ev; try discriminate.
      destruct ((r <? 0) || (Z.of_nat (List.length (nl c)) <=? r)); [discriminate|].
      destruct (nth_error (nl c) (Z.to_nat r)); discriminate.
  - destruct ev; try discriminate. destruct res as [leaderRes | e]; [|discriminate].
    destruct (HasLeader leaderRes); discriminate.
  - destruct ev; discriminate.
  - discriminate.
  - destruct ev; discriminate.
Qed.

(** ** Which answers make the code back off, and which reset the backoff

    [poll] tells how a QueryRequest is read: [Some reqID] for the confirmation
    polls of [ExecuteActionRequest], [None] for the query of
    [ExecuteQueryRequest]. *)

(** The answers after which the code calls [logErrAndBackoff]. *)
Definition backs_off (poll : option RequestID) (ev : Event) : bool :=
  match ev with
  | EvLeader _ res => leader_failed res
  | EvAction _ _ _ => negb (send_ok ev)
  | EvQuery t _ res =>
      match poll with
      | Some reqID =>
          match check_result t res with
          | Some (info, _) => negb (matches reqID info)
          | None => false
          end
      | None =>
          match res with
          | RPCOk queryRes => negb (Success queryRes)
          | RPCErr _ => true
          end
      end
  | _ => false
  end.

(** The answers after which the code calls [resetBackOffDuration]. *)
Definition resets (poll : option RequestID) (ev : Event) : bool :=
  match ev with
  | EvLeader _ res => negb (leader_failed res)
  | EvAction _ _ _ => send_ok ev
  | EvQuery t _ res =>
      match poll with
      | Some reqID =>
          match check_result t res with
          | Some (info, _) => matches reqID info
          | None => false
          end
      | None =>
          match res with
          | RPCOk queryRes => Success queryRes
          | RPCErr _ => false
          end
      end
  | _ => false
  end.

(** A transport error, or a decline ([started = false], [success = false]). *)
Definition error_or_decline (ev : Event) : bool :=
  match ev with
  | EvLeader _ (RPCErr _) => true
  | EvAction _ _ (RPCErr _) => true
  | EvAction _ _ (RPCOk res) => negb (Started res)
  | EvQuery _ _ (RPCErr _) => true
  | EvQuery _ _ (RPCOk res) => negb (Success res)
  | _ => false
  end.

(** The modes of the three public operations, with the way each reads a
    QueryRequest. *)
Definition op_mode (poll : option RequestID) (m : Mode) : Prop :=
  match m with
  | Lookup => True
  | Check _ => False
  | Submit j => poll = Some (jobID j)
  | Poll j i => poll = Some (jobID j) /\ 0 <= i < maxCheckCountBeforeRetry
  | Query _ => poll = None
  end.

Lemma op_mode_poll_turn poll j i :
  poll = Some (jobID j) -> 0 <= i -> op_mode poll (poll_turn j i).
Proof.
  intros Hj Hi. unfold poll_turn.
  destruct (i <? maxCheckCountBeforeRetry) eqn:E; cbn; auto.
  apply Z.ltb_lt in E. auto.
Qed.

(** One step of an operation, by the kind of the answer. *)
Lemma op_step poll M ev :
  in_modes (op_mode poll) M -> pending M = Some (call_of_event ev) ->
  in_modes (op_mode poll) (next M ev) /\
  nl (mcore (next M ev)) = nl (mcore M) /\
  clientID (mcore (next M ev)) = clientID (mcore M) /\
  (backs_off poll ev = true ->
   exists m, next M ev = mkMachine (Backoff m) (set_leaderID None (mcore M))) /\
  (resets poll ev = true ->
   backOffDuration (mcore (next M ev)) = initBackOffDuration /\
   leaderID (mcore (next M ev)) =
   match ev with
   | EvLeader _ (RPCOk leaderRes) => Some (LeaderID leaderRes)
   | _ => leaderID (mcore M)
   end /\
   forall m, ctl (next M ev) <> Backoff m) /\
  (backs_off poll ev = false -> resets poll ev = false ->
   (forall d, ev <> EvSleep d) ->
   mcore (next M ev) = mcore M /\ forall m, ctl (next M ev) <> Backoff m) /\
  (forall d, ev = EvSleep d ->
             exists m, ctl M = Backoff m /\
                       d = wrap64 (backOffDuration (mcore M) * Millisecond) /\
                       next M ev = mkMachine (Head m) (backed_off (mcore M))).
Proof.
  destruct M as [[m | m pl | m | r | rs] core]; unfold in_modes, pending, next; cbn;
    intros Hm Hp.
  - destruct (leaderID core) as [ld |] eqn:E.
    + destruct m; cbn in Hm; try discriminate; try contradiction;
        destruct ev; try discriminate; injection Hp as <- <-; cbn.
      * (* send *)
        destruct res as [actionRes | e]; cbn.
        -- destruct (Started actionRes); cbn.
           ++ repeat split; auto; try discriminate;
                apply (@op_mode_poll_turn poll j 0); auto; lia.
           ++ repeat split; eauto; discriminate.
        -- repeat split; eauto; discriminate.
      * (* poll *)
        destruct Hm as [-> Hi]. cbn.
        destruct (check_result ld res) as [[info err] |]; cbn.
        -- destruct (matches (jobID j) info); cbn.
           ++ destruct (action_outcome info); cbn.
              repeat split; auto; discriminate.
           ++ rewrite wrap64_small by (unfold maxCheckCountBeforeRetry in *; lia).
              repeat split; eauto; try discriminate;
                apply op_mode_poll_turn; auto; lia.
        -- repeat split; auto; discriminate.
      * (* query *)
        subst poll. destruct res as [queryRes | e]; cbn.
        -- destruct (Success queryRes); cbn.
           ++ destruct (QueryErr queryRes); cbn; repeat split; auto; discriminate.
           ++ repeat split; eauto; discriminate.
        -- repeat split; eauto; discriminate.
    + destruct ev; try discriminate; cbn.
      destruct ((r <? 0) || (Z.of_nat (List.length (nl core)) <=? r)); cbn.
      * repeat split; auto; discriminate.
      * destruct (nth_error (nl core) (Z.to_nat r)); cbn;
          repeat split; auto; discriminate.
  - destruct ev; try discriminate. cbn.
    destruct res as [leaderRes | e]; cbn.
    + destruct (HasLeader leaderRes); cbn; repeat split; eauto; discriminate.
    + repeat split; eauto; discriminate.
  - destruct ev; try discriminate. injection Hp as <-. cbn.
    repeat split; auto; try discriminate;
      try (exfalso;
           match goal with
           | H : forall d, EvSleep _ <> EvSleep d |- _ => exact (H _ eq_refl)
           end).
    intros d Hd. injection Hd as <-. eauto.
  - discriminate.
  - destruct ev; discriminate.
Qed.


Lemma op_run poll M0 l :
  in_modes (op_mode poll) M0 -> valid M0 l ->
  in_modes (op_mode poll) (run M0 l) /\
  nl (mcore (run M0 l)) = nl (mcore M0) /\
  clientID (mcore (run M0 l)) = clientID (mcore M0).
Proof.
  intros Hm Hv.
  apply (@run_invariant
           (fun M => in_modes (op_mode poll) M /\
                     nl (mcore M) = nl (mcore M0) /\
                     clientID (mcore M) = clientID (mcore M0))); auto.
  intros M ev (H1 & H2 & H3) Hp.
  destruct (op_step poll M ev H1 Hp) as (K1 & K2 & K3 & _).
  repeat split; congruence.
Qed.

Lemma action_op_mode act core :
  in_modes (op_mode (Some (GetRequestID act))) (action_machine act core).
Proof. reflexivity. Qed.

Lemma query_op_mode query core : in_modes (op_mode None) (query_machine query core).
Proof. reflexivity. Qed.

Lemma leader_op_mode poll core : in_modes (op_mode poll) (leader_machine core).
Proof. exact I. Qed.

Lemma error_or_decline_backs_off poll ev :
  error_or_decline ev = true -> backs_off poll ev = true.
Proof.
  destruct ev as [| t res | t req res | t req res |]; cbn; try discriminate.
  - destruct res; [discriminate | reflexivity].
  - destruct res as [actionRes | e]; cbn; auto.
  - destruct poll as [reqID |].
    + destruct res as [queryRes | e]; cbn; [|reflexivity].
      destruct (Success queryRes); [discriminate | reflexivity].
    + destruct res as [queryRes | e]; cbn; auto.
Qed.

(** [retried t members l]: after the events [l] the operation [t] has not
    returned and makes no call but the backoff sleep; once it has slept it
    picks a random member to ask for the leader, so the leader cache is empty
    and the loop has started over. *)
Definition retried {R : Type} (t : itree clientE R) (members : list NodeID)
           (l : list Event) : Prop :=
  exists d,
    can t l (Blocked (CSleep d)) /\
    (forall o, can t l o -> o = Running \/ o = Blocked (CSleep d)) /\
    let pick := CRandom 0 (Z.of_nat (List.length members) - 1) in
    can t (l ++ [EvSleep d]) (Blocked pick) /\
    (forall o, can t (l ++ [EvSleep d]) o -> o = Running \/ o = Blocked pick).

Lemma backs_off_retried {R} (t : itree clientE R) M0 (ret : Machine -> R -> Prop) poll l ev :
  (forall l o, can t l o <-> simulates M0 ret l o) ->
  (forall M r, ret M r -> pending M = None) ->
  in_modes (op_mode poll) M0 ->
  can t (l ++ [ev]) Running ->
  backs_off poll ev = true ->
  retried t (nl (mcore M0)) (l ++ [ev]).
Proof.
  intros Hiff Hret Hm0 Hcan Hb.
  apply Hiff in Hcan. destruct Hcan as [Hv _].
  pose proof Hv as Hv0. apply valid_snoc in Hv. destruct Hv as [Hv Hp].
  destruct (op_run poll M0 l Hm0 Hv) as (Hm & Hnl & _).
  destruct (op_step poll _ ev Hm Hp) as (_ & _ & _ & Hback & _).
  destruct (Hback Hb) as (m & Hnext).
  set (c := set_leaderID None (mcore (run M0 l))) in *.
  set (d := wrap64 (backOffDuration c * Millisecond)).
  assert (Hrun : run M0 (l ++ [ev]) = mkMachine (Backoff m) c)
    by (now rewrite run_snoc).
  assert (Hpend : pending (run M0 (l ++ [ev])) = Some (CSleep d))
    by (now rewrite Hrun).
  assert (Hv1 : valid M0 ((l ++ [ev]) ++ [EvSleep d]))
    by (apply valid_snoc; auto).
  assert (Hrun1 : run M0 ((l ++ [ev]) ++ [EvSleep d]) = mkMachine (Head m) (backed_off c))
    by (rewrite run_snoc, Hrun; reflexivity).
  assert (Hpend1 : pending (run M0 ((l ++ [ev]) ++ [EvSleep d])) =
                   Some (CRandom 0 (Z.of_nat (List.length (nl (mcore M0))) - 1))).
  { rewrite Hrun1. unfold pending. cbn. now rewrite Hnl. }
  exists d. repeat split.
  - apply Hiff. split; auto.
  - intros o Ho. apply Hiff in Ho. destruct Ho as [_ Ho].
    destruct o as [| k | r]; auto.
    + right. congruence.
    + apply Hret in Ho. congruence.
  - apply Hiff. split; auto.
  - intros o Ho. apply Hiff in Ho. destruct Ho as [_ Ho].
    destruct o as [| k | r]; auto.
    + right. congruence.
    + apply Hret in Ho. congruence.
Qed.

Lemma query_returned_inv query core l core' data err :
  can (ExecuteQueryRequest query core) l (Returned (core', (data, err))) ->
  exists l' t req queryRes,
    l = l' ++ [EvQuery t req (RPCOk queryRes)] /\
    Success queryRes = true /\
    (data, err) = match QueryErr queryRes with
                  | Some m => (VNil, Some m)
                  | None => (Data queryRes, None)
                  end.
Proof.
  intros Hcan. apply ExecuteQueryRequest_machine in Hcan.
  destruct Hcan as [Hv Hret]. unfold query_ret in Hret. cbn in Hret.
  destruct l as [| ev l] using rev_ind; [discriminate|]. clear IHl.
  apply valid_snoc in Hv. destruct Hv as [Hv Hp]. rewrite run_snoc in Hret.
  pose proof (query_mode_run query core l Hv) as Hm.
  destruct (run (query_machine query core) l) as [[m | m pl | m | r | rs] c];
    unfold in_modes, fixed_mode in Hm; cbn in Hm; unfold pending in Hp; cbn in Hp;
    revert Hret; unfold next; cbn.
  - subst m. destruct (leaderID c) as [ld |] eqn:Eld.
    + destruct ev; try discriminate. injection Hp as <- <-.
      destruct res as [queryRes | e]; [|discriminate].
      destruct (Success queryRes) eqn:Es; [|discriminate].
      intros H. exists l, ld, {| QueryCmd := query |}, queryRes.
      repeat split; auto.
      destruct (QueryErr queryRes); now injection H as <- <- <-.
    + destruct ev; try discriminate.
      destruct ((r <? 0) || (Z.of_nat (List.length (nl c)) <=? r)); [discriminate|].
      destruct (nth_error (nl c) (Z.to_nat r)); discriminate.
  - destruct ev; try discriminate. destruct res as [leaderRes | e]; [|discriminate].
    destruct (HasLeader leaderRes); discriminate.
  - destruct ev; discriminate.
  - discriminate.
  - destruct ev; discriminate.
Qed.

(** Neither operation hands a transport error or a decline to its
    caller.  [ExecuteActionRequest] returns only on a poll that brought the
    matching request info, and what it returns is read off that info;
    [ExecuteQueryRequest] returns only on a response with [success = true],
    with the data and a nil error or with the query error.  After a
    transport error or a decline of any RPC, either operation goes on instead
    of returning: it sleeps for the backoff and then, the leader cache being
    empty, looks for the leader again. *)
Lemma errors_retried_on_every_prefix :
  (forall act core l core' ok msg,
      can (ExecuteActionRequest act core) l (Returned (core', (ok, msg))) ->
      exists l' t req queryRes info,
        l = l' ++ [EvQuery t req (RPCOk queryRes)] /\
        Success queryRes = true /\ QueryErr queryRes = None /\
        Data queryRes = VRequestInfo info /\
        RequestId info = GetRequestID act /\
        (ok, msg) = match Err info with
                    | Some m => (false, m)
                    | None => (true, "action success")
                    end) /\
  (forall query core l core' data err,
      can (ExecuteQueryRequest query core) l (Returned (core', (data, err))) ->
      exists l' t req queryRes,
        l = l' ++ [EvQuery t req (RPCOk queryRes)] /\
        Success queryRes = true /\
        (data, err) = match QueryErr queryRes with
                      | Some m => (VNil, Some m)
                      | None => (Data queryRes, None)
                      end) /\
  (forall act core l ev,
      can (ExecuteActionRequest act core) (l ++ [ev]) Running ->
      error_or_decline ev = true ->
      retried (ExecuteActionRequest act core) (nl core) (l ++ [ev])) /\
  (forall query core l ev,
      can (ExecuteQueryRequest query core) (l ++ [ev]) Running ->
      error_or_decline ev = true ->
      retried (ExecuteQueryRequest query core) (nl core) (l ++ [ev])).
Proof.
  split; [|split; [|split]].
  - apply action_returned_inv.
  - apply query_returned_inv.
  - intros act core l ev Hcan Hev.
    apply (@backs_off_retried _ _ (action_machine act core) action_ret
                              (Some (GetRequestID act)) l ev); auto.
    + apply ExecuteActionRequest_machine.
    + now intros M r ->.
    + apply action_op_mode.
    + now apply error_or_decline_backs_off.
  - intros query core l ev Hcan Hev.
    apply (@backs_off_retried _ _ (query_machine query core) query_ret None l ev); auto.
    + apply ExecuteQueryRequest_machine.
    + now intros M r ->.
    + apply query_op_mode.
    + now apply error_or_decline_backs_off.
Qed.

(** In a poll, a response with [success = true] and a query error reads the
    same whatever its error text and data are. *)
Lemma query_error_poll_step reqID M t req queryRes msg :
  in_modes (op_mode (Some reqID)) M ->
  Success queryRes = true -> QueryErr queryRes = Some msg ->
  forall data' msg',
    next M (EvQuery t req (RPCOk queryRes)) =
    next M (EvQuery t req (RPCOk {| Success := true; Data := data'; QueryErr := Some msg' |})).
Proof.
  intros Hm Hs Hq data' msg'.
  destruct M as [[m | m pl | m | r | rs] core]; unfold next; cbn; auto.
  rewrite Hs, Hq. unfold in_modes in Hm. cbn in Hm.
  destruct m; cbn in Hm; try reflexivity; try contradiction; discriminate.
Qed.

(** [checkActionRequest] answers a response with [success = true] and a
    non-nil [QueryErr] with [(nil, nil)]: no request info, no error.  In
    [ExecuteActionRequest] such a poll is one more poll that did not match:
    the function does not return on it but backs off and goes on, and it goes
    on in the same way whatever the error text (and the data) of the response
    was; whatever the function returns later is read off a response that
    carried no query error. *)
Lemma query_error_poll_on_every_prefix :
  (forall queryReq core l t req queryRes msg,
      can (checkActionRequest queryReq core)
          (l ++ [EvQuery t req (RPCOk queryRes)]) Running ->
      Success queryRes = true -> QueryErr queryRes = Some msg ->
      exists core',
        can (checkActionRequest queryReq core)
            (l ++ [EvQuery t req (RPCOk queryRes)])
            (Returned (core', (None, None))) /\
        forall l' o,
          can (checkActionRequest queryReq core)
              ((l ++ [EvQuery t req (RPCOk queryRes)]) ++ l') o ->
          l' = [] /\ (o = Running \/ o = Returned (core', (None, None)))) /\
  (forall act core l t req queryRes msg,
      can (ExecuteActionRequest act core)
          (l ++ [EvQuery t req (RPCOk queryRes)]) Running ->
      Success queryRes = true -> QueryErr queryRes = Some msg ->
      poll_matches (GetRequestID act) (EvQuery t req (RPCOk queryRes)) = false /\
      retried (ExecuteActionRequest act core) (nl core)
              (l ++ [EvQuery t req (RPCOk queryRes)]) /\
      forall data' msg' l' o,
        can (ExecuteActionRequest act core)
            (l ++ EvQuery t req (RPCOk queryRes) :: l') o <->
        can (ExecuteActionRequest act core)
            (l ++ EvQuery t req
               (RPCOk {| Success := true; Data := data'; QueryErr := Some msg' |}) :: l')
            o) /\
  (forall act core l core' ok msg,
      can (ExecuteActionRequest act core) l (Returned (core', (ok, msg))) ->
      exists l' t req queryRes info,
        l = l' ++ [EvQuery t req (RPCOk queryRes)] /\
        QueryErr queryRes = None /\
        Data queryRes = VRequestInfo info /\
        (ok, msg) = match Err info with
                    | Some m => (false, m)
                    | None => (true, "action success")
                    end).
Proof.
  split; [|split].
  - intros queryReq core l t req queryRes msg Hcan Hs Hq.
    destruct (check_answered _ _ _ _ _ _ Hcan) as (c & Hld & Hv & Hrun).
    assert (Ec : check_result t (RPCOk queryRes) = Some (None, None))
      by (unfold check_result; now rewrite Hs, Hq).
    rewrite Ec in Hrun. exists c. split.
    + apply checkActionRequest_machine. split; [exact Hv|]. now rewrite Hrun.
    + intros l' o Hcan'. apply checkActionRequest_machine in Hcan'.
      destruct Hcan' as [Hv' Ho]. apply valid_app in Hv'. destruct Hv' as [_ Hv'].
      rewrite Hrun in Hv'. apply valid_returned in Hv'; [|reflexivity].
      subst l'. split; [reflexivity|]. rewrite app_nil_r, Hrun in Ho.
      destruct o as [| k | [c' [info err]]]; auto.
      * discriminate.
      * right. unfold check_ret in Ho. cbn in Ho. now injection Ho as <- <- <-.
  - intros act core l t req queryRes msg Hcan Hs Hq.
    assert (Ec : check_result t (RPCOk queryRes) = Some (None, None))
      by (unfold check_result; now rewrite Hs, Hq).
    split; [|split].
    + unfold poll_matches, polled_info. now rewrite Ec.
    + apply (@backs_off_retried _ _ (action_machine act core) action_ret
                                (Some (GetRequestID act))); auto.
      * apply ExecuteActionRequest_machine.
      * now intros M r ->.
      * apply action_op_mode.
      * cbn. now rewrite Hs, Hq.
    + intros data' msg' l' o. rewrite !ExecuteActionRequest_machine.
      apply ExecuteActionRequest_machine in Hcan. destruct Hcan as [Hv _].
      apply valid_snoc in Hv. destruct Hv as [Hv _].
      destruct (op_run (Some (GetRequestID act)) _ l (action_op_mode act core) Hv)
        as (Hm & _).
      unfold simulates. rewrite !valid_app, !run_app.
      cbn [valid call_of_event].
      change (run ?M (?e :: l')) with (run (next M e) l').
      now rewrite (@query_error_poll_step _ _ t req queryRes msg Hm Hs Hq data' msg').
  - intros act core l core' ok msg Hcan.
    destruct (action_returned_inv _ _ Hcan)
      as (l' & t & req & queryRes & info & H1 & _ & H3 & H4 & _ & H6).
    exists l', t, req, queryRes, info. auto.
Qed.

(** ** The backoff *)

(** The observations of [logErrAndBackoff]: it sleeps, then returns. *)
Lemma logErrAndBackoff_can msg err core l o :
  can (logErrAndBackoff msg err core) l o <->
  let d := wrap64 (backOffDuration core * Millisecond) in
  (l = [] /\ (o = Running \/ o = Blocked (CSleep d))) \/
  (l = [EvSleep d] /\
   (o = Running \/ o = Returned (backed_off (set_leaderID None core)))).
Proof.
  cbv zeta. split.
  - intros (tr & Htr & <- & <-). revert tr Htr.
    change (sat (logErrAndBackoff msg err core)
                (fun l o =>
                   (l = [] /\
                    (o = Running \/
                     o = Blocked (CSleep (wrap64 (backOffDuration core * Millisecond))))) \/
                   (l = [EvSleep (wrap64 (backOffDuration core * Millisecond))] /\
                    (o = Running \/ o = Returned (backed_off (set_leaderID None core)))))).
    unfold logErrAndBackoff, time_Sleep.
    eapply sat_bind.
    + apply sat_vis with
        (P := fun l o =>
                (l = [] /\ (o = Running \/
                            o = Blocked (CSleep (wrap64 (backOffDuration core * Millisecond))))) \/
                (l = [EvSleep (wrap64 (backOffDuration core * Millisecond))] /\
                 (o = Running \/ o = Returned tt))).
      * left. auto.
      * left. auto.
      * intros []. apply sat_ret; right; auto.
    + cbn. intros l [[-> H] | [-> H]]; auto.
    + cbn. intros l c [[-> [H | H]] | [-> [H | H]]]; try discriminate.
      injection H as ->. left. auto.
    + cbn. intros l [] [[-> [H | H]] | [-> [H | H]]]; try discriminate.
      apply sat_ret; right; auto.
  - intros [[-> [-> | ->]] | [-> [-> | ->]]].
    + apply can_running.
    + unfold logErrAndBackoff, time_Sleep.
      apply can_bind_blocked. apply (can_vis_blocked (Sleep _)).
    + unfold logErrAndBackoff, time_Sleep.
      change [EvSleep (wrap64 (backOffDuration core * Millisecond))]
        with ([EvSleep (wrap64 (backOffDuration (set_leaderID None core) * Millisecond))] ++ []).
      eapply can_bind with (a := tt).
      * apply (can_vis (Sleep _) (fun x => Ret x) tt). apply can_ret.
      * apply can_running.
    + unfold logErrAndBackoff, time_Sleep.
      change [EvSleep (wrap64 (backOffDuration core * Millisecond))]
        with ([EvSleep (wrap64 (backOffDuration (set_leaderID None core) * Millisecond))] ++ []).
      eapply can_bind with (a := tt).
      * apply (can_vis (Sleep _) (fun x => Ret x) tt). apply can_ret.
      * apply can_ret.
Qed.

(** The cores a client can be in: it is constructed, and from then on only
    [resetBackOffDuration], [logErrAndBackoff] and writes of the leader cache
    change it. *)
Inductive reachable_core : ClientCore -> Prop :=
| reach_new clientID nodeIDs : reachable_core (NewClientCore clientID nodeIDs)
| reach_reset core :
    reachable_core core -> reachable_core (resetBackOffDuration core)
| reach_fail core msg err l core' :
    reachable_core core ->
    can (logErrAndBackoff msg err core) l (Returned core') ->
    reachable_core core'
| reach_leader core ld :
    reachable_core core -> reachable_core (set_leaderID ld core).

(** [n] calls of [logErrAndBackoff] in a row. *)
Inductive consecutive_failures : nat -> ClientCore -> ClientCore -> Prop :=
| failures_O core : consecutive_failures 0 core core
| failures_S n core core1 core2 msg err l :
    can (logErrAndBackoff msg err core) l (Returned core1) ->
    consecutive_failures n core1 core2 ->
    consecutive_failures (S n) core core2.

Definition in_bounds (b : Z) : Prop :=
  initBackOffDuration <= b <= maxBackOffDuration.

Lemma backed_off_bounds core :
  in_bounds (backOffDuration core) ->
  wrap64 (backOffDuration core * Millisecond) = backOffDuration core * Millisecond /\
  backOffDuration (backed_off core) = Z.min (backOffDuration core * 2) maxBackOffDuration /\
  in_bounds (backOffDuration (backed_off core)).
Proof.
  unfold in_bounds, initBackOffDuration, maxBackOffDuration, Millisecond.
  intros Hb. unfold backed_off, utils_Min, maxBackOffDuration. cbn.
  rewrite !wrap64_small by lia. repeat split; lia.
Qed.

Lemma logErrAndBackoff_returned msg err core l core' :
  can (logErrAndBackoff msg err core) l (Returned core') ->
  l = [EvSleep (wrap64 (backOffDuration core * Millisecond))] /\
  core' = backed_off (set_leaderID None core).
Proof.
  intros H. apply logErrAndBackoff_can in H. cbv zeta in H.
  destruct H as [[_ [H | H]] | [-> [H | H]]]; try discriminate.
  injection H as <-. auto.
Qed.

Lemma reachable_core_bounds core :
  reachable_core core -> in_bounds (backOffDuration core).
Proof.
  induction 1 as [| core H IH | core msg err l core' H IH Hcan | core ld H IH].
  - cbn. unfold in_bounds, initBackOffDuration, maxBackOffDuration. lia.
  - cbn. unfold in_bounds, initBackOffDuration, maxBackOffDuration. lia.
  - apply logErrAndBackoff_returned in Hcan. destruct Hcan as [_ ->].
    now apply (backed_off_bounds (set_leaderID None core)).
  - exact IH.
Qed.

Lemma consecutive_failures_backoff n core core' :
  consecutive_failures n core core' ->
  in_bounds (backOffDuration core) ->
  backOffDuration core' =
  Z.min (backOffDuration core * 2 ^ Z.of_nat n) maxBackOffDuration /\
  in_bounds (backOffDuration core').
Proof.
  induction 1 as [core | n core core1 core2 msg err l Hcan Hrest IH]; intros Hb.
  - split; [|exact Hb]. unfold in_bounds, maxBackOffDuration in *.
    change (2 ^ Z.of_nat 0) with 1. lia.
  - apply logErrAndBackoff_returned in Hcan. destruct Hcan as [_ ->].
    destruct (backed_off_bounds (set_leaderID None core) Hb) as (_ & E & Hb1).
    destruct (IH Hb1) as [E2 Hb2]. split; [|exact Hb2].
    rewrite E2, E. cbn [set_leaderID backOffDuration].
    rewrite Nat2Z.inj_succ, Z.pow_succ_r by lia.
    unfold in_bounds, initBackOffDuration, maxBackOffDuration in *. cbn in Hb.
    assert (Hpow : 1 <= 2 ^ Z.of_nat n) by (apply Z.pow_le_mono_r with (b := 0) (c := Z.of_nat n); lia).
    destruct (Z.le_gt_cases (backOffDuration core * 2) 1600) as [Hle | Hgt].
    + rewrite (Z.min_l _ 1600 Hle). f_equal. lia.
    + rewrite (Z.min_r (backOffDuration core * 2) 1600) by lia.
      rewrite !Z.min_r; nia.
Qed.

(** Every sleep of the trace lasts between the floor and the ceiling. *)
Definition sleeps_in_bounds (l : list Event) : Prop :=
  Forall (fun ev => forall d, ev = EvSleep d ->
                    initBackOffDuration * Millisecond <= d <=
                    maxBackOffDuration * Millisecond) l.

Lemma set_leaderID_None_id core : leaderID core = None -> set_leaderID None core = core.
Proof. destruct core; cbn; intros ->; reflexivity. Qed.

Lemma reachable_next M ev :
  unknown_while_searching M -> reachable_core (mcore M) ->
  pending M = Some (call_of_event ev) ->
  reachable_core (mcore (next M ev)) /\
  (forall d, ev = EvSleep d ->
             initBackOffDuration * Millisecond <= d <= maxBackOffDuration * Millisecond).
Proof.
  destruct M as [[m | m pl | m | r | rs] core];
    unfold unknown_while_searching, pending, next; cbn; intros Hu Hr Hp.
  - split; [|intros d ->; destruct (leaderID core); [destruct m|]; discriminate].
    destruct (leaderID core) eqn:E.
    + destruct m; try discriminate; destruct ev; try discriminate; cbn.
      * destruct (check_result n res) as [[info err] |]; cbn; auto.
      * destruct res as [actionRes | e]; cbn; [|now apply reach_leader].
        destruct (Started actionRes); cbn; [now apply reach_reset | now apply reach_leader].
      * destruct (check_result n res) as [[info err] |]; cbn; auto.
        destruct (matches (jobID j) info); cbn; [|now apply reach_leader].
        destruct (action_outcome info); cbn. now apply reach_reset.
      * destruct res as [queryRes | e]; cbn; [|now apply reach_leader].
        destruct (Success queryRes); cbn; [|now apply reach_leader].
        destruct (QueryErr queryRes); cbn; now apply reach_reset.
    + destruct ev; try discriminate; cbn.
      destruct ((r <? 0) || (Z.of_nat (List.length (nl core)) <=? r)); cbn; auto.
      destruct (nth_error (nl core) (Z.to_nat r)); cbn; auto.
  - split; [|intros d ->; discriminate].
    destruct ev; try discriminate. destruct res as [leaderRes | e]; cbn.
    + destruct (HasLeader leaderRes); cbn.
      * now apply reach_reset, reach_leader.
      * now apply reach_leader.
    + now apply reach_leader.
  - destruct ev; try discriminate. injection Hp as <-. cbn. split.
    + apply reach_fail with (core := core) (msg := "") (err := None)
                            (l := [EvSleep (wrap64 (backOffDuration core * Millisecond))]);
        [exact Hr|].
      apply logErrAndBackoff_can. right. split; [reflexivity|]. right.
      now rewrite set_leaderID_None_id.
    + intros d Hd. injection Hd as <-.
      pose proof (reachable_core_bounds Hr) as Hb.
      destruct (backed_off_bounds core Hb) as (-> & _).
      unfold in_bounds, initBackOffDuration, maxBackOffDuration, Millisecond in *. lia.
  - discriminate.
  - destruct ev; discriminate.
Qed.

Lemma reachable_run l :
  forall M,
    unknown_while_searching M -> reachable_core (mcore M) -> valid M l ->
    sleeps_in_bounds l /\ reachable_core (mcore (run M l)).
Proof.
  induction l as [| ev l IH]; intros M Hu Hr Hv.
  - split; [constructor | exact Hr].
  - destruct Hv as [Hp Hv].
    destruct (reachable_next M ev Hu Hr Hp) as [Hr' Hd].
    destruct (IH (next M ev) (unknown_while_searching_next M ev Hu Hp) Hr' Hv) as [H1 H2].
    split; [constructor; auto | exact H2].
Qed.

(** C5. The backoff of every core a client can reach lies between the floor
    and the ceiling (20 and 1600).  [resetBackOffDuration] sets it to the
    floor.  [logErrAndBackoff] first sleeps for the current backoff and then
    sets it to the minimum of twice its value and the ceiling, so that after
    [n] failures in a row from the floor it is [min (20 * 2^n) 1600].  The
    three operations keep a reachable core reachable, and each of their
    sleeps lasts between 20 ms and 1600 ms. *)
Theorem backoff_within_bounds :
  (forall core,
      reachable_core core ->
      initBackOffDuration <= backOffDuration core <= maxBackOffDuration) /\
  (forall core, backOffDuration (resetBackOffDuration core) = initBackOffDuration) /\
  (forall core msg err,
      reachable_core core ->
      let nap := EvSleep (backOffDuration core * Millisecond) in
      exists core',
        can (logErrAndBackoff msg err core) [] (Blocked (CSleep (backOffDuration core * Millisecond))) /\
        can (logErrAndBackoff msg err core) [nap] (Returned core') /\
        backOffDuration core' = Z.min (backOffDuration core * 2) maxBackOffDuration /\
        forall l core'',
          can (logErrAndBackoff msg err core) l (Returned core'') ->
          l = [nap] /\ core'' = core') /\
  (forall n core core',
      backOffDuration core = initBackOffDuration ->
      consecutive_failures n core core' ->
      backOffDuration core' =
      Z.min (initBackOffDuration * 2 ^ Z.of_nat n) maxBackOffDuration) /\
  (forall core,
      reachable_core core ->
      (forall l o,
          can (lookForLeader core) l o ->
          sleeps_in_bounds l /\
          forall core' ld, o = Returned (core', ld) -> reachable_core core') /\
      (forall act l o,
          can (ExecuteActionRequest act core) l o ->
          sleeps_in_bounds l /\
          forall core' res, o = Returned (core', res) -> reachable_core core') /\
      (forall query l o,
          can (ExecuteQueryRequest query core) l o ->
          sleeps_in_bounds l /\
          forall core' res, o = Returned (core', res) -> reachable_core core')).
Proof.
  split; [|split; [|split; [|split]]].
  - intros core Hr. apply (reachable_core_bounds Hr).
  - reflexivity.
  - intros core msg err Hr nap.
    pose proof (reachable_core_bounds Hr) as Hb.
    destruct (backed_off_bounds (set_leaderID None core) Hb) as (Hd & E & _).
    cbn [set_leaderID backOffDuration] in Hd, E.
    exists (backed_off (set_leaderID None core)).
    unfold nap. rewrite <- Hd.
    split; [apply logErrAndBackoff_can; left; auto|].
    split; [apply logErrAndBackoff_can; right; auto|].
    split; [exact E|].
    intros l core'' H. now apply logErrAndBackoff_returned in H.
  - intros n core core' Hb Hf.
    rewrite <- Hb.
    apply (consecutive_failures_backoff Hf).
    rewrite Hb. unfold in_bounds, initBackOffDuration, maxBackOffDuration. lia.
  - intros core Hr. split; [|split].
    + intros l o Hcan. apply lookForLeader_machine in Hcan. destruct Hcan as [Hv Ho].
      destruct (reachable_run l (leader_machine core) I Hr Hv) as [H1 H2].
      split; [exact H1|]. intros core' ld ->. destruct Ho as [Ho _]. cbn in Ho.
      now rewrite Ho in H2.
    + intros act l o Hcan. apply ExecuteActionRequest_machine in Hcan.
      destruct Hcan as [Hv Ho].
      destruct (reachable_run l (action_machine act core) I Hr Hv) as [H1 H2].
      split; [exact H1|]. intros core' res ->. unfold action_ret in Ho. cbn in Ho.
      now rewrite Ho in H2.
    + intros query l o Hcan. apply ExecuteQueryRequest_machine in Hcan.
      destruct Hcan as [Hv Ho].
      destruct (reachable_run l (query_machine query core) I Hr Hv) as [H1 H2].
      split; [exact H1|]. intros core' res ->. unfold query_ret in Ho. cbn in Ho.
      now rewrite Ho in H2.
Qed.

(** ** The leader cache and the backoff, read off a trace *)

(** The leader cache after an answer: a LeaderRequest sets it to the leader it
    reports (or leaves it empty), and the answers the events of [clears] are
    empty it. *)
Definition cache_step (clears : Event -> bool) (cache : option NodeID) (ev : Event)
  : option NodeID :=
  match ev with
  | EvLeader _ (RPCOk leaderRes) =>
      if HasLeader leaderRes then Some (LeaderID leaderRes) else None
  | _ => if clears ev then None else cache
  end.

(** An RPC to the leader goes to the cached leader; a member is picked and
    asked for the leader only while none is cached. *)
Definition addressed (cache : option NodeID) (ev : Event) : Prop :=
  match ev with
  | EvAction t _ _ | EvQuery t _ _ => cache = Some t
  | EvRandom _ _ _ | EvLeader _ _ => cache = None
  | EvSleep _ => True
  end.

(** The trace is that of a client whose leader cache starts as [cache] and
    changes by [cache_step]. *)
Fixpoint follows_cache (clears : Event -> bool) (cache : option NodeID)
         (l : list Event) : Prop :=
  match l with
  | [] => True
  | ev :: l' => addressed cache ev /\ follows_cache clears (cache_step clears cache ev) l'
  end.

(** The backoff after an event: the floor after an answer of [floors], the
    doubled and capped value after a sleep. *)
Definition backoff_step (floors : Event -> bool) (b : Z) (ev : Event) : Z :=
  if floors ev then initBackOffDuration
  else match ev with
       | EvSleep _ => Z.min (b * 2) maxBackOffDuration
       | _ => b
       end.

(** The trace is that of a client whose backoff starts as [b] and changes by
    [backoff_step], and which sleeps, for the current backoff, exactly after
    the answers of [fails] ([due] tells whether a sleep is due). *)
Fixpoint paced (floors fails : Event -> bool) (b : Z) (due : bool)
         (l : list Event) : Prop :=
  match l with
  | [] => True
  | ev :: l' =>
      match ev with
      | EvSleep d => due = true /\ d = b * Millisecond
      | _ => due = false
      end /\
      paced floors fails (backoff_step floors b ev) (fails ev) l'
  end.

Definition is_backoff (c : Control) : bool :=
  match c with Backoff _ => true | _ => false end.

Lemma resets_not_backs_off poll ev : resets poll ev = true -> backs_off poll ev = false.
Proof.
  destruct ev as [| t res | t req res | t req res |]; cbn; try discriminate.
  - now destruct (leader_failed res).
  - intros ->. reflexivity.
  - destruct poll as [reqID |].
    + destruct (check_result t res) as [[info err] |]; [|discriminate].
      intros ->. reflexivity.
    + destruct res as [queryRes | e]; [|discriminate]. intros ->. reflexivity.
Qed.

Lemma sleep_iff_backoff M ev :
  pending M = Some (call_of_event ev) ->
  is_backoff (ctl M) = match ev with EvSleep _ => true | _ => false end.
Proof.
  destruct M as [[m | m pl | m | r | rs] c]; unfold pending; cbn; intros Hp.
  - destruct (leaderID c); [destruct m|]; destruct ev; try discriminate; reflexivity.
  - destruct ev; try discriminate; reflexivity.
  - destruct ev; try discriminate; reflexivity.
  - discriminate.
  - destruct ev; discriminate.
Qed.

Lemma not_backoff c : (forall m, c <> Backoff m) -> is_backoff c = false.
Proof. destruct c; try reflexivity. intros H. now destruct (H m). Qed.

(** One step of an operation, as the cache and the backoff see it. *)
Lemma ghost_step poll M ev :
  in_modes (op_mode poll) M -> unknown_while_searching M ->
  pending M = Some (call_of_event ev) ->
  addressed (leaderID (mcore M)) ev /\
  leaderID (mcore (next M ev)) = cache_step (backs_off poll) (leaderID (mcore M)) ev /\
  is_backoff (ctl (next M ev)) = backs_off poll ev /\
  (in_bounds (backOffDuration (mcore M)) ->
   match ev with
   | EvSleep d => d = backOffDuration (mcore M) * Millisecond
   | _ => True
   end /\
   backOffDuration (mcore (next M ev)) =
   backoff_step (resets poll) (backOffDuration (mcore M)) ev /\
   in_bounds (backOffDuration (mcore (next M ev)))).
Proof.
  intros Hm Hu Hp.
  destruct (op_step poll M ev Hm Hp) as (_ & _ & _ & Hback & Hreset & Hnone & Hsleep).
  assert (Haddr : addressed (leaderID (mcore M)) ev).
  { destruct ev as [lo hi r | t res | t req res | t req res | d]; cbn in *.
    - now destruct (pending_random_inv _ Hp) as (m & _ & E & _).
    - destruct (pending_leader_inv _ Hp) as (m & E).
      unfold unknown_while_searching in Hu. now rewrite E in Hu.
    - now destruct (pending_action_inv _ Hp) as (j & _ & E & _).
    - now destruct (pending_query_inv _ Hp) as (m & _ & E & _).
    - exact I. }
  assert (Hfloor : in_bounds initBackOffDuration)
    by (unfold in_bounds, initBackOffDuration, maxBackOffDuration; lia).
  split; [exact Haddr|].
  destruct (backs_off poll ev) eqn:Eb; [|destruct (resets poll ev) eqn:Er].
  - (* the answer makes the code back off *)
    destruct (Hback eq_refl) as (m & Hnext). rewrite Hnext. cbn.
    assert (Er : resets poll ev = false).
    { destruct (resets poll ev) eqn:Er; [|reflexivity].
      apply resets_not_backs_off in Er. congruence. }
    unfold cache_step, backoff_step. rewrite Eb, Er.
    destruct ev as [lo hi r | t [leaderRes | e] | t req res | t req res | d];
      cbn in Eb; try discriminate; repeat split; auto;
      try match goal with H : in_bounds _ |- _ => apply H end.
    apply negb_true_iff in Eb. now rewrite Eb.
  - (* the answer resets the backoff *)
    destruct (Hreset eq_refl) as (E1 & E2 & E3).
    apply not_backoff in E3.
    unfold cache_step, backoff_step. rewrite Eb, Er, E1, E2, E3.
    destruct ev as [lo hi r | t [leaderRes | e] | t req res | t req res | d];
      cbn in Er; try discriminate; repeat split; auto; try apply Hfloor.
    apply negb_true_iff, negb_false_iff in Er. now rewrite Er.
  - (* neither *)
    unfold cache_step, backoff_step. rewrite Eb, Er.
    destruct ev as [lo hi r | t [leaderRes | e] | t req res | t req res | d];
      cbn in Eb, Er; try discriminate;
      try (destruct (Hnone eq_refl eq_refl) as (E1 & E3); [discriminate|];
           apply not_backoff in E3; rewrite E1, E3; repeat split; auto;
           match goal with H : in_bounds _ |- _ => apply H end).
    + destruct (HasLeader leaderRes); discriminate.
    + destruct (Hsleep d eq_refl) as (m & E1 & E2 & E3).
      rewrite E3. cbn [mcore ctl is_backoff].
      split; [reflexivity|]. split; [reflexivity|]. intros Hb.
      destruct (backed_off_bounds (mcore M) Hb) as (K1 & K2 & K3).
      split; [congruence|]. split; [exact K2 | exact K3].
Qed.

(** A run of an operation, as the cache and the backoff see it. *)
Lemma ghost_run poll l : forall M,
  in_modes (op_mode poll) M -> unknown_while_searching M -> valid M l ->
  follows_cache (backs_off poll) (leaderID (mcore M)) l /\
  leaderID (mcore (run M l)) =
  fold_left (cache_step (backs_off poll)) l (leaderID (mcore M)) /\
  (in_bounds (backOffDuration (mcore M)) ->
   paced (resets poll) (backs_off poll) (backOffDuration (mcore M))
         (is_backoff (ctl M)) l /\
   backOffDuration (mcore (run M l)) =
   fold_left (backoff_step (resets poll)) l (backOffDuration (mcore M))).
Proof.
  induction l as [| ev l IH]; intros M Hm Hu Hv.
  - cbn. auto.
  - destruct Hv as [Hp Hv].
    destruct (ghost_step poll M ev Hm Hu Hp) as (Ha & Hc & Hd & Hb).
    destruct (op_step poll M ev Hm Hp) as (Hm' & _).
    pose proof (unknown_while_searching_next M ev Hu Hp) as Hu'.
    destruct (IH (next M ev) Hm' Hu' Hv) as (I1 & I2 & I3).
    change (run M (ev :: l)) with (run (next M ev) l).
    cbn [follows_cache paced fold_left].
    rewrite <- Hc. split; [auto|]. split; [exact I2|].
    intros Hbd. destruct (Hb Hbd) as (B1 & B2 & B3).
    destruct (I3 B3) as (J1 & J2).
    rewrite <- B2, <- Hd. split; [|exact J2].
    split; [|exact J1].
    rewrite (sleep_iff_backoff M ev Hp).
    destruct ev; auto.
Qed.

(** While a leader is cached and no answer clears the cache, every RPC goes
    to that leader and no member is asked for the leader. *)
Definition sent_to (ld : NodeID) (ev : Event) : Prop :=
  match ev with
  | EvAction t _ _ | EvQuery t _ _ => t = ld
  | EvSleep _ => True
  | EvRandom _ _ _ | EvLeader _ _ => False
  end.

Lemma follows_cache_kept clears ld l :
  follows_cache clears (Some ld) l -> existsb clears l = false ->
  Forall (sent_to ld) l /\ fold_left (cache_step clears) l (Some ld) = Some ld.
Proof.
  induction l as [| ev l IH]; cbn [follows_cache existsb fold_left].
  - intros _ _. split; [constructor | reflexivity].
  - intros [Ha Hf] Hc. apply orb_false_iff in Hc. destruct Hc as [Hc Hl].
    assert (E : cache_step clears (Some ld) ev = Some ld /\ sent_to ld ev).
    { unfold cache_step. rewrite Hc.
      destruct ev; cbn in Ha |- *; try discriminate; split; congruence. }
    destruct E as [E Hs]. rewrite E in Hf |- *.
    destruct (IH Hf Hl) as [I1 I2]. split; [constructor; assumption | exact I2].
Qed.

(** A leader response that names no leader. *)
Definition no_leader (ev : Event) : bool :=
  match ev with
  | EvLeader _ (RPCOk leaderRes) => negb (HasLeader leaderRes)
  | _ => false
  end.

(** A confirmation poll that completes ([success = true]) without the request
    info of [reqID]: none on record, or that of another request. *)
Definition unmatched_poll (reqID : RequestID) (ev : Event) : bool :=
  match ev with
  | EvQuery _ _ (RPCOk queryRes) =>
      Success queryRes &&
      match QueryErr queryRes, Data queryRes with
      | Some _, _ => true
      | None, VRequestInfo info => negb (N.eqb (RequestId info) reqID)
      | None, _ => false
      end
  | _ => false
  end.

Lemma backs_off_poll reqID ev :
  backs_off (Some reqID) ev = error_or_decline ev || no_leader ev || unmatched_poll reqID ev.
Proof.
  destruct ev as [| t [leaderRes | e] | t req [actionRes | e] | t req [queryRes | e] |];
    cbn; rewrite ?orb_false_r; try reflexivity.
  destruct (Success queryRes); cbn; [|reflexivity].
    destruct (QueryErr queryRes); cbn; [reflexivity|].
    destruct (Data queryRes); reflexivity.
Qed.

Lemma backs_off_query ev :
  backs_off None ev = error_or_decline ev || no_leader ev.
Proof.
  destruct ev as [| t [leaderRes | e] | t req [actionRes | e] | t req [queryRes | e] |];
    cbn; rewrite ?orb_false_r; reflexivity.
Qed.

(** ** A client of a one-node cluster, used in the examples *)

Definition example_action : TSMAction :=
  {| actionRequestID := 7%N; actionPayload := "set x 1" |}.

(** The leader ["n1"] is cached and the backoff is at the floor. *)
Definition example_core : ClientCore :=
  {| clientID := "c1"; leaderID := Some "n1"; nl := ["n1"];
     backOffDuration := initBackOffDuration |}.

Definition example_send : ActionReq := {| ActionCmd := example_action |}.
Definition example_poll : QueryReq := {| QueryCmd := TSMLatestRequestQuery "c1" |}.

Definition started : RPCResult ActionRes := RPCOk {| Started := true |}.

(** Three answers to a poll, all with [success = true]: no request on record,
    the latest request is another one (6), the latest request is ours (7). *)
Definition nothing_on_record : RPCResult QueryRes :=
  RPCOk {| Success := true; Data := VNil; QueryErr := Some "no request info" |}.
Definition other_request : RPCResult QueryRes :=
  RPCOk {| Success := true;
           Data := VRequestInfo {| RequestId := 6%N; Err := None |};
           QueryErr := None |}.
Definition our_request : RPCResult QueryRes :=
  RPCOk {| Success := true;
           Data := VRequestInfo {| RequestId := 7%N; Err := None |};
           QueryErr := None |}.

(** The send is accepted, the poll finds nothing on record; the client
    sleeps and picks a member to ask for the leader. *)
Definition unconfirmed_run : list Event :=
  [EvAction "n1" example_send started; EvQuery "n1" example_poll nothing_on_record;
   EvSleep (20 * Millisecond); EvRandom 0 0 0].

(** The send is accepted, the poll finds another request; later a leader
    request times out. *)
Definition mismatched_run : list Event :=
  [EvAction "n1" example_send started; EvQuery "n1" example_poll other_request;
   EvSleep (20 * Millisecond); EvRandom 0 0 0; EvLeader "n1" (RPCErr "timeout")].

(** *** The leader cache as the specification words it *)

(** The cache is emptied by transport errors and declines only. *)
Definition cache_cleared_by_failures_only : Prop :=
  forall act core l o,
    can (ExecuteActionRequest act core) l o ->
    follows_cache error_or_decline (leaderID core) l.

(** *** The backoff as the specification words it *)

(** An RPC that completed and was not declined. *)
Definition rpc_succeeded (ev : Event) : bool :=
  match ev with
  | EvLeader _ res => negb (leader_failed res)
  | EvAction _ _ _ | EvQuery _ _ _ => negb (error_or_decline ev)
  | _ => false
  end.

Definition rpc_failed (ev : Event) : bool :=
  match ev with
  | EvLeader _ res => leader_failed res
  | EvAction _ _ _ | EvQuery _ _ _ => error_or_decline ev
  | _ => false
  end.

(** The backoff is at the floor after every successful RPC and doubled after
    every failed one. *)
Definition backoff_reset_by_every_success : Prop :=
  forall act core l o,
    in_bounds (backOffDuration core) ->
    can (ExecuteActionRequest act core) l o ->
    paced rpc_succeeded rpc_failed (backOffDuration core) false l.

(** The unmatched poll of [unconfirmed_run] empties the cache: the leader
    ["n1"] is cached at the start, no RPC of the run fails or is declined, and
    yet the client goes on to ask a member for the leader. *)
Lemma unmatched_poll_clears_cache :
  leaderID example_core = Some "n1" /\
  existsb error_or_decline unconfirmed_run = false /\
  can (ExecuteActionRequest example_action example_core) unconfirmed_run
      (Blocked (CLeader "n1")) /\
  ~ cache_cleared_by_failures_only.
Proof.
  assert (Hcan : can (ExecuteActionRequest example_action example_core) unconfirmed_run
                     (Blocked (CLeader "n1"))).
  { apply ExecuteActionRequest_machine. split; [cbn; repeat split | reflexivity]. }
  split; [reflexivity|]. split; [reflexivity|]. split; [exact Hcan|].
  intros H. specialize (H _ _ _ _ Hcan). cbn in H.
  destruct H as (_ & _ & _ & H & _). discriminate H.
Qed.

(** The mismatched poll of [mismatched_run] doubles the backoff: the client
    sleeps for 20 ms right after it, and for 40 ms after the one RPC of the run
    that fails. *)
Lemma unmatched_poll_doubles_backoff :
  backOffDuration example_core = initBackOffDuration /\
  existsb rpc_failed (firstn 2 mismatched_run) = false /\
  can (ExecuteActionRequest example_action example_core) (firstn 2 mismatched_run)
      (Blocked (CSleep (20 * Millisecond))) /\
  can (ExecuteActionRequest example_action example_core) mismatched_run
      (Blocked (CSleep (40 * Millisecond))) /\
  ~ backoff_reset_by_every_success.
Proof.
  assert (Hcan : can (ExecuteActionRequest example_action example_core)
                     (firstn 2 mismatched_run) (Blocked (CSleep (20 * Millisecond)))).
  { apply ExecuteActionRequest_machine. split; [cbn; repeat split | reflexivity]. }
  split; [reflexivity|]. split; [reflexivity|]. split; [exact Hcan|]. split.
  { apply ExecuteActionRequest_machine. split; [cbn; repeat split | reflexivity]. }
  intros H.
  assert (Hb : in_bounds (backOffDuration example_core))
    by (unfold in_bounds; cbn; unfold initBackOffDuration, maxBackOffDuration; lia).
  assert (Hrun : can (ExecuteActionRequest example_action example_core)
                     (firstn 3 mismatched_run) Running).
  { apply ExecuteActionRequest_machine. split; [cbn; repeat split | exact I]. }
  specialize (H _ _ _ _ Hb Hrun). cbn in H.
  destruct H as (_ & _ & (H & _) & _). discriminate H.
Qed.

(** A leader response that names the leader. *)
Definition leader_found (ev : Event) : bool :=
  match ev with
  | EvLeader _ res => negb (leader_failed res)
  | _ => false
  end.

(** A query answered with [success = true]. *)
Definition query_ok (ev : Event) : bool :=
  match ev with
  | EvQuery _ _ (RPCOk queryRes) => Success queryRes
  | _ => false
  end.

Lemma resets_poll reqID ev :
  resets (Some reqID) ev = leader_found ev || send_ok ev || poll_matches reqID ev.
Proof.
  destruct ev as [| t res | t req res | t req res |]; cbn;
    rewrite ?orb_false_r; try reflexivity.
  unfold poll_matches, polled_info.
  now destruct (check_result t res) as [[info err] |].
Qed.

Lemma resets_query ev : resets None ev = leader_found ev || send_ok ev || query_ok ev.
Proof.
  destruct ev as [| t res | t req res | t req [queryRes | e] |]; cbn;
    rewrite ?orb_false_r; reflexivity.
Qed.

Lemma rpc_failed_cases ev : rpc_failed ev = error_or_decline ev || no_leader ev.
Proof.
  destruct ev as [| t [leaderRes | e] | t req res | t req res |]; cbn;
    rewrite ?orb_false_r; reflexivity.
Qed.

(** C3. In every execution of the three operations, an RPC to the leader goes
    to the cached leader, and a member is picked and asked for the leader
    only while the cache is empty.  The cache is set by a leader response
    that names a leader and is emptied by every answer after which the code
    backs off: a transport error, a decline, a leader response that names no
    leader and, in [ExecuteActionRequest], also a confirmation poll that
    completes without the request info of the submitted request (none on
    record, or that of another request).  As long as a leader is cached and
    no such answer comes, every RPC goes to it and the cache keeps it. *)
Theorem leader_cache_cleared_by_every_backoff :
  (forall act core l o,
      can (ExecuteActionRequest act core) l o ->
      let clears := backs_off (Some (GetRequestID act)) in
      follows_cache clears (leaderID core) l /\
      forall core' res,
        o = Returned (core', res) ->
        leaderID core' = fold_left (cache_step clears) l (leaderID core)) /\
  (forall query core l o,
      can (ExecuteQueryRequest query core) l o ->
      follows_cache (backs_off None) (leaderID core) l /\
      forall core' res,
        o = Returned (core', res) ->
        leaderID core' = fold_left (cache_step (backs_off None)) l (leaderID core)) /\
  (forall core l o,
      can (lookForLeader core) l o ->
      follows_cache (backs_off None) (leaderID core) l /\
      forall core' ld,
        o = Returned (core', ld) ->
        leaderID core' = fold_left (cache_step (backs_off None)) l (leaderID core)) /\
  (forall reqID ev,
      backs_off (Some reqID) ev =
      error_or_decline ev || no_leader ev || unmatched_poll reqID ev) /\
  (forall ev, backs_off None ev = error_or_decline ev || no_leader ev) /\
  (forall clears ld l,
      follows_cache clears (Some ld) l -> existsb clears l = false ->
      Forall (sent_to ld) l /\ fold_left (cache_step clears) l (Some ld) = Some ld).
Proof.
  split; [|split; [|split; [|split; [|split]]]].
  - intros act core l o Hcan clears.
    apply ExecuteActionRequest_machine in Hcan. destruct Hcan as [Hv Ho].
    destruct (@ghost_run (Some (GetRequestID act)) l (action_machine act core)
                         (action_op_mode act core) I Hv) as (H1 & H2 & _).
    split; [exact H1|]. intros core' res ->. unfold action_ret in Ho. cbn in Ho.
    now rewrite Ho in H2.
  - intros query core l o Hcan.
    apply ExecuteQueryRequest_machine in Hcan. destruct Hcan as [Hv Ho].
    destruct (@ghost_run None l (query_machine query core)
                         (query_op_mode query core) I Hv) as (H1 & H2 & _).
    split; [exact H1|]. intros core' res ->. unfold query_ret in Ho. cbn in Ho.
    now rewrite Ho in H2.
  - intros core l o Hcan.
    apply lookForLeader_machine in Hcan. destruct Hcan as [Hv Ho].
    destruct (@ghost_run None l (leader_machine core)
                         (leader_op_mode None core) I Hv) as (H1 & H2 & _).
    split; [exact H1|]. intros core' ld ->. destruct Ho as [Ho _]. cbn in Ho.
    now rewrite Ho in H2.
  - apply backs_off_poll.
  - apply backs_off_query.
  - apply follows_cache_kept.
Qed.

(** C4. In every execution of the three operations that starts with the
    backoff between the floor and the ceiling, the backoff is set to the
    floor (20 ms) by every answer the code accepts: a leader response that
    names a leader, a send that is started, a confirmation poll that returns
    the request info of the submitted request, a query with
    [success = true].  After every answer the code backs off on (a transport
    error, a decline, a leader response that names no leader and, in
    [ExecuteActionRequest], a confirmation poll that completes without the
    request info of the submitted request) the client sleeps for the current
    backoff and then doubles it, up to the ceiling.  It sleeps at no other
    time, and nothing else changes the backoff. *)
Theorem backoff_reset_by_accepted_answers :
  (forall act core l o,
      in_bounds (backOffDuration core) ->
      can (ExecuteActionRequest act core) l o ->
      let poll := Some (GetRequestID act) in
      paced (resets poll) (backs_off poll) (backOffDuration core) false l /\
      forall core' res,
        o = Returned (core', res) ->
        backOffDuration core' =
        fold_left (backoff_step (resets poll)) l (backOffDuration core)) /\
  (forall query core l o,
      in_bounds (backOffDuration core) ->
      can (ExecuteQueryRequest query core) l o ->
      paced (resets None) (backs_off None) (backOffDuration core) false l /\
      forall core' res,
        o = Returned (core', res) ->
        backOffDuration core' =
        fold_left (backoff_step (resets None)) l (backOffDuration core)) /\
  (forall core l o,
      in_bounds (backOffDuration core) ->
      can (lookForLeader core) l o ->
      paced (resets None) (backs_off None) (backOffDuration core) false l /\
      forall core' ld,
        o = Returned (core', ld) ->
        backOffDuration core' =
        fold_left (backoff_step (resets None)) l (backOffDuration core)) /\
  (forall reqID ev,
      resets (Some reqID) ev = leader_found ev || send_ok ev || poll_matches reqID ev /\
      backs_off (Some reqID) ev = rpc_failed ev || unmatched_poll reqID ev) /\
  (forall ev,
      resets None ev = leader_found ev || send_ok ev || query_ok ev /\
      backs_off None ev = rpc_failed ev).
Proof.
  split; [|split; [|split; [|split]]].
  - intros act core l o Hb Hcan poll.
    apply ExecuteActionRequest_machine in Hcan. destruct Hcan as [Hv Ho].
    destruct (@ghost_run (Some (GetRequestID act)) l (action_machine act core)
                         (action_op_mode act core) I Hv) as (_ & _ & H).
    destruct (H Hb) as [H1 H2].
    split; [exact H1|]. intros core' res ->. unfold action_ret in Ho. cbn in Ho.
    now rewrite Ho in H2.
  - intros query core l o Hb Hcan.
    apply ExecuteQueryRequest_machine in Hcan. destruct Hcan as [Hv Ho].
    destruct (@ghost_run None l (query_machine query core)
                         (query_op_mode query core) I Hv) as (_ & _ & H).
    destruct (H Hb) as [H1 H2].
    split; [exact H1|]. intros core' res ->. unfold query_ret in Ho. cbn in Ho.
    now rewrite Ho in H2.
  - intros core l o Hb Hcan.
    apply lookForLeader_machine in Hcan. destruct Hcan as [Hv Ho].
    destruct (@ghost_run None l (leader_machine core)
                         (leader_op_mode None core) I Hv) as (_ & _ & H).
    destruct (H Hb) as [H1 H2].
    split; [exact H1|]. intros core' ld ->. destruct Ho as [Ho _]. cbn in Ho.
    now rewrite Ho in H2.
  - intros reqID ev. split; [apply resets_poll|].
    rewrite backs_off_poll, rpc_failed_cases. reflexivity.
  - intros ev. split; [apply resets_query|].
    rewrite backs_off_query, rpc_failed_cases. reflexivity.
Qed.

(** ** The theorems at work on the example client *)

(** The latest request on record is ours, and it was rejected. *)
Definition our_info : TSMRequestInfo :=
  {| RequestId := 7%N; Err := Some "insufficient balance" |}.
Definition our_answer : QueryRes :=
  {| Success := true; Data := VRequestInfo our_info; QueryErr := None |}.

(** One unmatched poll, the backoff and the search for the leader that
    follow it. *)
Definition unmatched_turn (answer : RPCResult QueryRes) : list Event :=
  [EvQuery "n1" example_poll answer; EvSleep (20 * Millisecond); EvRandom 0 0 0;
   EvLeader "n1" (RPCOk {| HasLeader := true; LeaderID := "n1" |})].

(** Six unmatched polls of every kind: a transport error, a decline, nothing
    on record, another request. *)
Definition six_turns : list Event :=
  unmatched_turn (RPCErr "timeout") ++
  unmatched_turn (RPCOk {| Success := false; Data := VNil; QueryErr := None |}) ++
  unmatched_turn nothing_on_record ++
  unmatched_turn other_request ++
  unmatched_turn nothing_on_record ++
  unmatched_turn other_request.

Lemma resend_after_exactly_six_polls_example :
  let send := EvAction "n1" example_send started in
  can (ExecuteActionRequest example_action example_core)
      ([] ++ send :: six_turns ++ [send]) Running /\
  polls six_turns = maxCheckCountBeforeRetry /\
  forallb (fun ev => negb (poll_matches (GetRequestID example_action) ev)) six_turns = true.
Proof.
  intros send.
  assert (Hcan : can (ExecuteActionRequest example_action example_core)
                     ([] ++ send :: six_turns ++ [send]) Running).
  { apply ExecuteActionRequest_machine. split; [vm_compute; repeat split | exact I]. }
  split; [exact Hcan|].
  destruct (@resend_after_exactly_six_polls _ _ _ _ Hcan) as [_ H].
  destruct (H [] send six_turns [send] eq_refl eq_refl eq_refl) as [_ H2].
  exact (H2 send [] eq_refl eq_refl).
Defined.

Lemma matching_poll_returns_example :
  let l := [EvAction "n1" example_send started] in
  let poll := EvQuery "n1" example_poll (RPCOk our_answer) in
  can (ExecuteActionRequest example_action example_core) (l ++ [poll]) Running /\
  exists core',
    backOffDuration core' = initBackOffDuration /\
    can (ExecuteActionRequest example_action example_core) (l ++ [poll])
        (Returned (core', (false, "insufficient balance"))) /\
    forall l' o,
      can (ExecuteActionRequest example_action example_core) ((l ++ [poll]) ++ l') o ->
      l' = [] /\ (o = Running \/ o = Returned (core', (false, "insufficient balance"))).
Proof.
  intros l poll.
  assert (Hcan : can (ExecuteActionRequest example_action example_core)
                     (l ++ [poll]) Running).
  { apply ExecuteActionRequest_machine. split; [vm_compute; repeat split | exact I]. }
  split; [exact Hcan|].
  exact (@matching_poll_returns example_action example_core l "n1" example_poll
                                our_answer our_info Hcan eq_refl eq_refl eq_refl eq_refl).
Defined.

(** The key is unknown: a query error in a response with [success = true]. *)
Definition key_not_found : QueryRes :=
  {| Success := true; Data := VNil; QueryErr := Some "key not found" |}.

Lemma successful_query_returns_example :
  let ask := EvQuery "n1" {| QueryCmd := TSMDataQuery "x" |} (RPCOk key_not_found) in
  can (ExecuteQueryRequest (TSMDataQuery "x") example_core) ([] ++ [ask]) Running /\
  exists core',
    backOffDuration core' = initBackOffDuration /\
    can (ExecuteQueryRequest (TSMDataQuery "x") example_core) ([] ++ [ask])
        (Returned (core', (VNil, Some "key not found"))) /\
    forall l' o,
      can (ExecuteQueryRequest (TSMDataQuery "x") example_core) (([] ++ [ask]) ++ l') o ->
      l' = [] /\ (o = Running \/ o = Returned (core', (VNil, Some "key not found"))).
Proof.
  intros ask.
  assert (Hcan : can (ExecuteQueryRequest (TSMDataQuery "x") example_core)
                     ([] ++ [ask]) Running).
  { apply ExecuteQueryRequest_machine. split; [cbn; repeat split | exact I]. }
  split; [exact Hcan|].
  exact (@successful_query_returns (TSMDataQuery "x") example_core [] "n1" _
                                   key_not_found Hcan eq_refl).
Defined.


(** * Further properties of the retry logic *)

(** ** What the operations send, and to whom *)

(** The random picks range over the members, and each LeaderRequest goes to
    the member picked just before ([picked] is the index picked by the
    previous event, if it was a pick). *)
Fixpoint picks_members (members : list NodeID) (picked : option Z) (l : list Event)
  : Prop :=
  match l with
  | [] => True
  | EvRandom lo hi r :: l' =>
      (lo = 0 /\ hi = Z.of_nat (List.length members) - 1) /\
      picks_members members (Some r) l'
  | EvLeader pl _ :: l' =>
      (exists r, picked = Some r /\ 0 <= r /\
                 nth_error members (Z.to_nat r) = Some pl) /\
      picks_members members None l'
  | _ :: l' => picks_members members None l'
  end.

(** What the machine remembers of the last pick. *)
Definition picked_ok (members : list NodeID) (picked : option Z) (M : Machine) : Prop :=
  nl (mcore M) = members /\
  match ctl M with
  | Picked _ pl =>
      exists r, picked = Some r /\ 0 <= r /\ nth_error members (Z.to_nat r) = Some pl
  | _ => True
  end.

Definition pick_of (ev : Event) : option Z :=
  match ev with EvRandom _ _ r => Some r | _ => None end.

Lemma picked_ok_next members picked M ev :
  picked_ok members picked M -> pending M = Some (call_of_event ev) ->
  picked_ok members (pick_of ev) (next M ev).
Proof.
  destruct M as [[m | m pl | m | r | rs] core];
    unfold picked_ok, pending, next; cbn; intros [Hn Hp] Hc.
  - destruct (leaderID core) eqn:E.
    + destruct m; try discriminate; destruct ev; try discriminate; cbn.
      * destruct (check_result n res) as [[info err] |]; cbn; auto.
      * destruct res as [actionRes | e]; cbn; auto.
        destruct (Started actionRes); cbn; auto.
      * destruct (check_result n res) as [[info err] |]; cbn; auto.
        destruct (matches (jobID j) info); cbn; auto.
        destruct (action_outcome info); cbn; auto.
      * destruct res as [queryRes | e]; cbn; auto.
        destruct (Success queryRes); cbn; auto.
        destruct (QueryErr queryRes); cbn; auto.
    + destruct ev; try discriminate; cbn.
      destruct ((r <? 0) || (Z.of_nat (List.length (nl core)) <=? r)) eqn:Er; cbn; auto.
      destruct (nth_error (nl core) (Z.to_nat r)) eqn:En; cbn; auto.
      split; [exact Hn|]. exists r. apply orb_false_iff in Er. destruct Er as [Er _].
      apply Z.ltb_ge in Er. rewrite <- Hn. auto.
  - destruct ev; try discriminate. destruct res as [leaderRes | e]; cbn; auto.
    destruct (HasLeader leaderRes); cbn; auto.
  - destruct ev; try discriminate. cbn. auto.
  - discriminate.
  - destruct ev; discriminate.
Qed.

Lemma picks_members_run members l :
  forall picked M,
    picked_ok members picked M -> valid M l -> picks_members members picked l.
Proof.
  induction l as [| ev l IH]; intros picked M Hk Hv; [exact I|].
  destruct Hv as [Hp Hv].
  pose proof (picked_ok_next ev Hk Hp) as Hk'.
  specialize (IH _ _ Hk' Hv).
  destruct ev as [lo hi r | t res | t req res | t req res | d]; cbn [picks_members pick_of] in *.
  - split; [|exact IH].
    destruct (pending_random_inv _ Hp) as (m & _ & _ & -> & ->).
    destruct Hk as [<- _]. auto.
  - split; [|exact IH].
    destruct (pending_leader_inv _ Hp) as (m & Hc).
    destruct Hk as [_ Hk]. rewrite Hc in Hk. exact Hk.
  - exact IH.
  - exact IH.
  - exact IH.
Qed.

(** ** The three operations, side by side *)

Inductive Operation :=
| OpLeader
| OpAction (act : TSMAction)
| OpQuery (query : TSMQuery).

(** [performs op core l]: the events [l] are the beginning of an execution of
    [op], started on [core]. *)
Definition performs (op : Operation) (core : ClientCore) (l : list Event) : Prop :=
  match op with
  | OpLeader => can (lookForLeader core) l Running
  | OpAction act => can (ExecuteActionRequest act core) l Running
  | OpQuery query => can (ExecuteQueryRequest query core) l Running
  end.

(** [calls op core l c]: after the events [l], [op] makes the call [c] and
    waits for its answer. *)
Definition calls (op : Operation) (core : ClientCore) (l : list Event) (c : Call) : Prop :=
  match op with
  | OpLeader => can (lookForLeader core) l (Blocked c)
  | OpAction act => can (ExecuteActionRequest act core) l (Blocked c)
  | OpQuery query => can (ExecuteQueryRequest query core) l (Blocked c)
  end.

(** [returns op core l core']: after exactly the events [l], [op] returns and
    leaves the core as [core']. *)
Definition returns (op : Operation) (core : ClientCore) (l : list Event)
           (core' : ClientCore) : Prop :=
  match op with
  | OpLeader => exists ld, can (lookForLeader core) l (Returned (core', ld))
  | OpAction act => exists res, can (ExecuteActionRequest act core) l (Returned (core', res))
  | OpQuery query => exists res, can (ExecuteQueryRequest query core) l (Returned (core', res))
  end.

Definition start (op : Operation) (core : ClientCore) : Machine :=
  match op with
  | OpLeader => leader_machine core
  | OpAction act => action_machine act core
  | OpQuery query => query_machine query core
  end.

(** How the operation reads the answer to a QueryRequest. *)
Definition poll_of (op : Operation) : option RequestID :=
  match op with
  | OpAction act => Some (GetRequestID act)
  | _ => None
  end.

Lemma performs_valid op core l : performs op core l <-> valid (start op core) l.
Proof.
  destruct op; cbn;
    [rewrite lookForLeader_machine | rewrite ExecuteActionRequest_machine
     | rewrite ExecuteQueryRequest_machine]; unfold simulates; tauto.
Qed.

Lemma calls_pending op core l c :
  calls op core l c <->
  valid (start op core) l /\ pending (run (start op core) l) = Some c.
Proof.
  destruct op; cbn;
    [rewrite lookForLeader_machine | rewrite ExecuteActionRequest_machine
     | rewrite ExecuteQueryRequest_machine]; unfold simulates; tauto.
Qed.

Lemma returns_run op core l core' :
  returns op core l core' ->
  valid (start op core) l /\ pending (run (start op core) l) = None /\
  mcore (run (start op core) l) = core'.
Proof.
  destruct op; cbn; intros [r H];
    [apply lookForLeader_machine in H | apply ExecuteActionRequest_machine in H
     | apply ExecuteQueryRequest_machine in H]; destruct H as [Hv Hr];
    (split; [exact Hv|]).
  - destruct Hr as [-> E]. unfold pending. cbn in *. rewrite E. auto.
  - unfold action_ret in Hr. rewrite Hr. auto.
  - unfold query_ret in Hr. rewrite Hr. auto.
Qed.

Lemma machine_returns {R} (t : itree clientE R) M0 (ret : Machine -> R -> Prop) :
  (forall l o, can t l o <-> simulates M0 ret l o) -> productive t ->
  forall l, valid M0 l -> pending (run M0 l) = None ->
            exists r, can t l (Returned r) /\ ret (run M0 l) r.
Proof.
  intros Hm Hprod l Hv Hp.
  assert (Hrun : can t l Running) by (apply Hm; split; [exact Hv | exact I]).
  destruct Hrun as (tr & H & <- & E).
  destruct (Hprod tr H E) as (o & Ho & Hc).
  pose proof (proj1 (Hm _ _) Hc) as [_ Hs].
  destruct o as [| c | r]; [congruence | congruence |].
  exists r. auto.
Qed.

Lemma run_returns op core l :
  valid (start op core) l -> pending (run (start op core) l) = None ->
  returns op core l (mcore (run (start op core) l)).
Proof.
  intros Hv Hp. destruct op; cbn in *.
  - destruct (machine_returns (lookForLeader_machine core)
                (productive_lookForLeader core) l Hv Hp) as ([c ld] & Hc & [E _]).
    cbn in E. rewrite E. cbn. eauto.
  - destruct (machine_returns (ExecuteActionRequest_machine act core)
                (productive_ExecuteActionRequest act core) l Hv Hp) as ([c r] & Hc & E).
    unfold action_ret in E. cbn in E. rewrite E. cbn. eauto.
  - destruct (machine_returns (ExecuteQueryRequest_machine query core)
                (productive_ExecuteQueryRequest query core) l Hv Hp) as ([c r] & Hc & E).
    unfold query_ret in E. cbn in E. rewrite E. cbn. eauto.
Qed.

Lemma start_op_mode op core : in_modes (op_mode (poll_of op)) (start op core).
Proof. destruct op; cbn; [exact I | reflexivity | reflexivity]. Qed.

Lemma start_unknown op core : unknown_while_searching (start op core).
Proof. destruct op; exact I. Qed.

Lemma start_mcore op core : mcore (start op core) = core.
Proof. destruct op; reflexivity. Qed.

Lemma picks_members_target members l :
  forall picked t res l',
    picks_members members picked (l ++ EvLeader t res :: l') -> In t members.
Proof.
  induction l as [| ev l IH]; intros picked t res l'; cbn [app picks_members].
  - intros [(r & _ & _ & Hn) _]. eapply nth_error_In; eauto.
  - destruct ev; cbn [picks_members]; intros H;
      try (destruct H as [_ H]); eapply IH; eauto.
Qed.

(** X1. An operation that returns leaves the client's identity and its list
    of cluster members as they were: only the leader cache and the backoff
    change. *)
Theorem operations_keep_identity_and_members :
  forall op core l core',
    returns op core l core' ->
    clientID core' = clientID core /\ nl core' = nl core.
Proof.
  intros op core l core' H.
  apply returns_run in H. destruct H as (Hv & _ & <-).
  destruct (op_run (poll_of op) (start op core) l (start_op_mode op core) Hv)
    as (_ & Hn & Hc).
  rewrite start_mcore in Hn, Hc. auto.
Qed.

(** X2. In every execution of an operation, each random pick asks for an index
    between 0 and the number of members minus one, each LeaderRequest goes to
    the member at the index picked just before, and so every LeaderRequest is
    addressed to a member of the client's node list. *)
Theorem leader_requests_go_to_members :
  forall op core l,
    performs op core l ->
    picks_members (nl core) None l /\
    forall pre t res post, l = pre ++ EvLeader t res :: post -> In t (nl core).
Proof.
  intros op core l H. apply performs_valid in H.
  assert (Hp : picks_members (nl core) None l).
  { apply picks_members_run with (M := start op core); [|exact H].
    split; [apply f_equal, start_mcore | destruct op; exact I]. }
  split; [exact Hp|].
  intros pre t res post ->. eapply picks_members_target; eauto.
Qed.

Lemma bad_pick_next M lo hi r :
  pending M = Some (CRandom lo hi) -> r < lo \/ hi < r ->
  next M (EvRandom lo hi r) = mkMachine (Panicked index_out_of_range) (mcore M).
Proof.
  intros Hp Hr.
  destruct (pending_random_inv _ Hp) as (m & Hc & Hld & -> & ->).
  destruct M as [c core]. cbn in *. subst c. unfold next. cbn. rewrite Hld.
  replace ((r <? 0) || (Z.of_nat (List.length (nl core)) <=? r)) with true; [reflexivity|].
  symmetry. apply orb_true_iff.
  destruct Hr as [Hr | Hr]; [left; apply Z.ltb_lt | right; apply Z.leb_le]; lia.
Qed.

(** X3. When the random pick answers with an index outside the bounds it was
    asked for, the operation panics on indexing the node list: it sends
    nothing, and nothing follows. *)
Theorem out_of_range_pick_panics :
  forall op core l lo hi r,
    performs op core (l ++ [EvRandom lo hi r]) ->
    r < lo \/ hi < r ->
    calls op core (l ++ [EvRandom lo hi r]) (CPanic index_out_of_range) /\
    forall l', performs op core ((l ++ [EvRandom lo hi r]) ++ l') -> l' = [].
Proof.
  intros op core l lo hi r H Hr.
  apply performs_valid in H.
  pose proof H as Hv. apply valid_snoc in Hv. destruct Hv as [Hv Hp]. cbn in Hp.
  assert (Hnext : pending (run (start op core) (l ++ [EvRandom lo hi r])) =
                  Some (CPanic index_out_of_range)).
  { rewrite run_snoc, (bad_pick_next _ Hp Hr). reflexivity. }
  split.
  - apply calls_pending. auto.
  - intros l' H'. apply performs_valid, valid_app in H'. destruct H' as [_ H'].
    eapply valid_panicked; eauto.
Qed.

Lemma out_of_range_pick_next op core r :
  nl core = [] -> leaderID core = None ->
  calls op core [EvRandom 0 (-1) r] (CPanic index_out_of_range) /\
  forall l', performs op core (EvRandom 0 (-1) r :: l') -> l' = [].
Proof.
  intros Hn Hld.
  assert (Hp0 : pending (start op core) = Some (CRandom 0 (-1))).
  { destruct op; unfold pending; cbn; rewrite Hld, Hn; reflexivity. }
  assert (Hr : r < 0 \/ -1 < r) by lia.
  assert (Hnext : pending (run (start op core) [EvRandom 0 (-1) r]) =
                  Some (CPanic index_out_of_range)).
  { unfold run. cbn [fold_left]. rewrite (bad_pick_next _ Hp0 Hr). reflexivity. }
  split.
  - apply calls_pending. split; [split; [exact Hp0 | exact I] | exact Hnext].
  - intros l' H. apply performs_valid in H.
    change (EvRandom 0 (-1) r :: l') with ([EvRandom 0 (-1) r] ++ l') in H.
    apply valid_app in H. destruct H as [_ H].
    eapply valid_panicked; eauto.
Qed.

(** X4. A client without members and without a cached leader can do nothing:
    every operation asks for a random index between 0 and -1 and, whatever
    the answer, panics on indexing the empty node list.  No RPC is sent and
    the operation does not return. *)
Theorem no_members_no_progress :
  forall op core,
    nl core = [] -> leaderID core = None ->
    calls op core [] (CRandom 0 (-1)) /\
    forall l,
      performs op core l ->
      (l = [] \/ exists r, l = [EvRandom 0 (-1) r]) /\
      forall core', ~ returns op core l core'.
Proof.
  intros op core Hn Hld.
  assert (Hp0 : pending (start op core) = Some (CRandom 0 (-1))).
  { destruct op; unfold pending; cbn; rewrite Hld, Hn; reflexivity. }
  split; [apply calls_pending; split; [exact I | exact Hp0]|].
  intros l H.
  assert (Hl : l = [] \/ exists r, l = [EvRandom 0 (-1) r]).
  { destruct l as [| ev l]; [left; reflexivity | right].
    assert (Hev : exists r, ev = EvRandom 0 (-1) r).
    { apply performs_valid in H. destruct H as [Hp _]. rewrite Hp0 in Hp.
      destruct ev; try discriminate. injection Hp as <- <-. eauto. }
    destruct Hev as [r ->]. exists r. f_equal.
    destruct (@out_of_range_pick_next op core r Hn Hld) as [_ Hstop].
    apply (Hstop l). exact H. }
  split; [exact Hl|].
  intros core' Hr. apply returns_run in Hr. destruct Hr as (_ & Hp & _).
  destruct Hl as [-> | [r ->]].
  - cbn in Hp. congruence.
  - destruct (@out_of_range_pick_next op core r Hn Hld) as [Hpanic _].
    apply calls_pending in Hpanic. destruct Hpanic as [_ Hpanic]. congruence.
Qed.

(** What an operation may send: [ExecuteActionRequest] sends its command and
    polls with the latest-request query of the client; [ExecuteQueryRequest]
    sends its query and no ActionRequest; [lookForLeader] sends neither. *)
Definition sends_only (op : Operation) (core : ClientCore) (ev : Event) : Prop :=
  match op, ev with
  | OpAction act, EvAction _ req _ => req = {| ActionCmd := act |}
  | OpAction _, EvQuery _ req _ =>
      req = {| QueryCmd := NewTSMLatestRequestQuery (clientID core) |}
  | OpQuery query, EvQuery _ req _ => req = {| QueryCmd := query |}
  | OpQuery _, EvAction _ _ _ => False
  | OpLeader, EvAction _ _ _ | OpLeader, EvQuery _ _ _ => False
  | _, _ => True
  end.

(** X5. The payloads of the RPCs.  Every ActionRequest of
    [ExecuteActionRequest] carries the command it was given, and every one of
    its QueryRequests carries the latest-request query for the client's own
    ID.  Every QueryRequest of [ExecuteQueryRequest] carries the query it was
    given, and it never sends an ActionRequest.  [lookForLeader] sends
    neither kind. *)
Theorem requests_carry_the_callers_payload :
  forall op core l ev,
    performs op core l -> In ev l -> sends_only op core ev.
Proof.
  intros op core l ev H Hin.
  apply performs_valid in H.
  apply in_split in Hin. destruct Hin as (l1 & l2 & ->).
  apply valid_app in H. destruct H as [Hv [Hp _]].
  destruct op as [| act | query]; destruct ev as [| | t req res | t req res |];
    cbn in *; try exact I.
  - pose proof (leader_mode_run core l1 Hv) as Hm.
    destruct (pending_action_inv _ Hp) as (j & Hc & _).
    unfold in_modes, fixed_mode in Hm. rewrite Hc in Hm. discriminate.
  - pose proof (leader_mode_run core l1 Hv) as Hm.
    destruct (pending_query_inv _ Hp) as (m & Hc & _ & Hcase).
    unfold in_modes, fixed_mode in Hm. rewrite Hc in Hm. cbn in Hm. subst m.
    destruct Hcase as [Hq | [(j & i & Hq & _) | Hq]]; discriminate.
  - now destruct (action_send_pending act core l1 Hv Hp) as (c & _ & _ & ->).
  - now destruct (action_query_pending act core l1 Hv Hp) as (i & c & _ & _ & -> & _).
  - pose proof (query_mode_run query core l1 Hv) as Hm.
    destruct (pending_action_inv _ Hp) as (j & Hc & _).
    unfold in_modes, fixed_mode in Hm. rewrite Hc in Hm. discriminate.
  - now destruct (query_query_pending query core l1 Hv Hp) as (c & _ & _ & ->).
Qed.


(** ** One operation after the other *)

(** The answer [ev] came from [ld], or names it as the leader. *)
Definition answered_by (ld : NodeID) (ev : Event) : Prop :=
  match ev with
  | EvQuery t _ _ => t = ld
  | EvLeader _ (RPCOk leaderRes) => LeaderID leaderRes = ld
  | _ => False
  end.

Lemma pending_head_cached m core ld :
  leaderID core = Some ld -> m <> Lookup ->
  pending (mkMachine (Head m) core) <> None.
Proof.
  intros E Hm. unfold pending. cbn. rewrite E. destruct m; congruence.
Qed.

Lemma next_returned_inv poll M ev :
  in_modes (op_mode poll) M -> unknown_while_searching M ->
  pending M = Some (call_of_event ev) -> pending (next M ev) = None ->
  exists ld,
    leaderID (mcore (next M ev)) = Some ld /\
    backOffDuration (mcore (next M ev)) = initBackOffDuration /\
    answered_by ld ev.
Proof.
  destruct M as [[m | m pl | m | r | rs] core];
    unfold in_modes, unknown_while_searching, pending, next; cbn; intros Hm Hu Hp.
  - destruct (leaderID core) as [ld |] eqn:E.
    + destruct m; try discriminate; try contradiction;
        destruct ev; try discriminate; injection Hp as <- <-; cbn.
      * destruct res as [actionRes | e]; cbn; [|discriminate].
        destruct (Started actionRes); cbn; [|discriminate].
        rewrite E. discriminate.
      * destruct (check_result ld res) as [[info err] |]; cbn; [|discriminate].
        destruct (matches (jobID j) info); cbn; [|discriminate].
        destruct (action_outcome info); cbn. intros _. exists ld. auto.
      * destruct res as [queryRes | e]; cbn; [|discriminate].
        destruct (Success queryRes); cbn; [|discriminate].
        destruct (QueryErr queryRes); cbn; intros _; exists ld; auto.
    + destruct ev; try discriminate; cbn.
      destruct ((r <? 0) || (Z.of_nat (List.length (nl core)) <=? r)); cbn;
        [discriminate|].
      destruct (nth_error (nl core) (Z.to_nat r)); discriminate.
  - destruct ev; try discriminate. destruct res as [leaderRes | e]; cbn; [|discriminate].
    destruct (HasLeader leaderRes); cbn; [|discriminate].
    intros _. exists (LeaderID leaderRes). auto.
  - destruct ev; try discriminate. cbn. rewrite Hu. destruct m; discriminate.
  - discriminate.
  - destruct ev; discriminate.
Qed.

(** X6. An operation that returns leaves a leader cached.  Either it is
    [lookForLeader] returning its cached leader at once, with the core
    untouched, or its last event is an answer from that leader (or the
    leader response naming it) and the backoff is at the floor.  The next
    operation on the returned core therefore starts with its RPC to that
    leader, without picking a member or sleeping first, and [lookForLeader]
    returns at once. *)
Theorem returned_core_has_the_leader :
  forall op core l core',
    returns op core l core' ->
    exists ld,
      leaderID core' = Some ld /\
      ((op = OpLeader /\ l = [] /\ core' = core) \/
       (backOffDuration core' = initBackOffDuration /\
        exists l' ev, l = l' ++ [ev] /\ answered_by ld ev)) /\
      (forall act, calls (OpAction act) core' [] (CAction ld {| ActionCmd := act |})) /\
      (forall query, calls (OpQuery query) core' [] (CQuery ld {| QueryCmd := query |})) /\
      returns OpLeader core' [] core'.
Proof.
  intros op core l core' H.
  apply returns_run in H. destruct H as (Hv & Hp & Hc).
  assert (Hld : exists ld,
             leaderID core' = Some ld /\
             ((op = OpLeader /\ l = [] /\ core' = core) \/
              (backOffDuration core' = initBackOffDuration /\
               exists l' ev, l = l' ++ [ev] /\ answered_by ld ev))).
  { destruct l as [| ev0 l0] using rev_ind.
    - cbn in Hp, Hc. rewrite start_mcore in Hc. subst core'.
      destruct op; unfold pending in Hp; cbn in Hp;
        destruct (leaderID core) as [ld |] eqn:E; try discriminate.
      exists ld. auto.
    - clear IHl0. apply valid_snoc in Hv. destruct Hv as [Hv Hp0].
      rewrite run_snoc in Hp, Hc.
      destruct (op_run (poll_of op) (start op core) l0 (start_op_mode op core) Hv)
        as (Hm & _).
      assert (Hu : unknown_while_searching (run (start op core) l0)).
      { apply (@run_invariant unknown_while_searching); auto.
        - intros M e. apply unknown_while_searching_next.
        - apply start_unknown. }
      destruct (next_returned_inv (poll_of op) _ ev0 Hm Hu Hp0 Hp) as (ld & H1 & H2 & H3).
      rewrite Hc in H1, H2. exists ld. split; [exact H1|]. right. eauto. }
  destruct Hld as (ld & Hld & Hcase). exists ld.
  split; [exact Hld|]. split; [exact Hcase|].
  split; [|split].
  - intros act. apply calls_pending. split; [exact I|].
    unfold pending. cbn. rewrite Hld. reflexivity.
  - intros query. apply calls_pending. split; [exact I|].
    unfold pending. cbn. rewrite Hld. reflexivity.
  - replace core' with (mcore (run (start OpLeader core') [])) at 2 by reflexivity.
    apply run_returns; [exact I|]. unfold pending. cbn. rewrite Hld. reflexivity.
Qed.

(** ** An operation can always complete *)

(** Answers that let an operation go on: the member asked names itself as the
    leader, the send is started, the poll returns the info of the request, the
    query succeeds. *)
Definition names_leader (ld : NodeID) : RPCResult LeaderRes :=
  RPCOk {| HasLeader := true; LeaderID := ld |}.
Definition confirms (reqID : RequestID) : RPCResult QueryRes :=
  RPCOk {| Success := true;
           Data := VRequestInfo {| RequestId := reqID; Err := None |};
           QueryErr := None |}.
Definition succeeds : RPCResult QueryRes :=
  RPCOk {| Success := true; Data := VNil; QueryErr := None |}.

(** The calls left in mode [m] once the leader [ld] is cached, each with a
    good answer. *)
Definition completion (m : Mode) (ld : NodeID) : list Event :=
  match m with
  | Lookup => []
  | Check q => [EvQuery ld q succeeds]
  | Submit j =>
      [EvAction ld (jobAction j) (RPCOk {| Started := true |});
       EvQuery ld (jobPoll j) (confirms (jobID j))]
  | Poll j _ => [EvQuery ld (jobPoll j) (confirms (jobID j))]
  | Query q => [EvQuery ld q succeeds]
  end.

(** The first member is picked and names itself as the leader. *)
Definition discovery (core : ClientCore) (pl : NodeID) : list Event :=
  [EvRandom 0 (Z.of_nat (List.length (nl core)) - 1) 0; EvLeader pl (names_leader pl)].

(** Good answers to all the calls left from the state [M]; [pl] is the first
    member. *)
Definition finish (M : Machine) (pl : NodeID) : list Event :=
  let core := mcore M in
  match ctl M with
  | Head m =>
      match leaderID core with
      | Some ld => completion m ld
      | None => discovery core pl ++ completion m pl
      end
  | Picked m p => EvLeader p (names_leader p) :: completion m p
  | Backoff m =>
      EvSleep (wrap64 (backOffDuration core * Millisecond)) ::
      discovery core pl ++ completion m pl
  | Done _ | Panicked _ => []
  end.

Lemma completion_finishes poll m core ld :
  op_mode poll m -> leaderID core = Some ld ->
  valid (mkMachine (Head m) core) (completion m ld) /\
  pending (run (mkMachine (Head m) core) (completion m ld)) = None.
Proof.
  intros Hm E.
  destruct m; cbn in Hm; try contradiction; unfold completion, run;
    cbn [valid fold_left call_of_event]; unfold pending, next; cbn; rewrite ?E; cbn;
    rewrite ?E; cbn; rewrite ?N.eqb_refl; cbn; auto.
Qed.

Lemma discovery_finishes poll m core pl :
  op_mode poll m -> leaderID core = None -> nth_error (nl core) 0 = Some pl ->
  valid (mkMachine (Head m) core) (discovery core pl ++ completion m pl) /\
  pending (run (mkMachine (Head m) core) (discovery core pl ++ completion m pl)) = None.
Proof.
  intros Hm E Hn.
  set (core' := resetBackOffDuration (set_leaderID (Some pl) core)).
  assert (H1 : pending (mkMachine (Head m) core) =
               Some (CRandom 0 (Z.of_nat (List.length (nl core)) - 1)))
    by (unfold pending; cbn; now rewrite E).
  assert (H2 : next (mkMachine (Head m) core)
                    (EvRandom 0 (Z.of_nat (List.length (nl core)) - 1) 0) =
               mkMachine (Picked m pl) core).
  { unfold next. cbn. rewrite E.
    destruct (nl core) as [| x members]; [discriminate|].
    cbn in Hn. injection Hn as ->.
    replace (Z.of_nat (List.length (pl :: members)) <=? 0) with false; [reflexivity|].
    symmetry. apply Z.leb_gt. cbn [List.length]. lia. }
  assert (H3 : next (mkMachine (Picked m pl) core) (EvLeader pl (names_leader pl)) =
               mkMachine (Head m) core') by reflexivity.
  destruct (@completion_finishes poll m core' pl Hm eq_refl) as [H4 H5].
  unfold discovery. cbn [app]. split.
  - cbn [valid call_of_event]. rewrite H2, H3. auto.
  - unfold run. cbn [fold_left]. rewrite H2, H3. exact H5.
Qed.

Lemma finish_finishes poll M pl :
  in_modes (op_mode poll) M -> unknown_while_searching M ->
  nth_error (nl (mcore M)) 0 = Some pl ->
  (forall reason, ctl M <> Panicked reason) ->
  valid M (finish M pl) /\ pending (run M (finish M pl)) = None /\
  (List.length (finish M pl) <= 5)%nat.
Proof.
  destruct M as [[m | m p | m | r | rs] core];
    unfold in_modes, unknown_while_searching, finish; cbn; intros Hm Hu Hn Hp.
  - destruct (leaderID core) as [ld |] eqn:E.
    + destruct (@completion_finishes poll m core ld Hm E) as [H1 H2].
      split; [exact H1|]. split; [exact H2|]. destruct m; cbn; lia.
    + destruct (@discovery_finishes poll m core pl Hm E Hn) as [H1 H2].
      split; [exact H1|]. split; [exact H2|]. destruct m; cbn; lia.
  - set (core' := resetBackOffDuration (set_leaderID (Some p) core)).
    destruct (@completion_finishes poll m core' p Hm eq_refl) as [H1 H2].
    split; [|split].
    + cbn [valid call_of_event]. split; [reflexivity | exact H1].
    + exact H2.
    + destruct m; cbn; lia.
  - assert (Hn' : nth_error (nl (backed_off core)) 0 = Some pl) by exact Hn.
    destruct (@discovery_finishes poll m (backed_off core) pl Hm Hu Hn') as [H1 H2].
    split; [|split].
    + cbn [valid call_of_event]. split; [reflexivity | exact H1].
    + exact H2.
    + destruct m; cbn; lia.
  - split; [exact I|]. split; [reflexivity | lia].
  - now destruct (Hp rs).
Qed.

(** X7. The retry loops never wedge.  As long as the client has a member to
    ask, an operation that has not panicked can return from any point of any
    execution, however many failures came before: some continuation of at
    most five events (the backoff sleep, the pick, a leader response, a
    started send, a poll with the matching info) ends in its return. *)
Theorem operation_can_always_complete :
  forall op core l,
    nl core <> [] ->
    performs op core l ->
    (forall reason, ~ calls op core l (CPanic reason)) ->
    exists l' core',
      (List.length l' <= 5)%nat /\ returns op core (l ++ l') core'.
Proof.
  intros op core l Hn H Hnp.
  apply performs_valid in H.
  destruct (op_run (poll_of op) (start op core) l (start_op_mode op core) H)
    as (Hm & Hnl & _).
  rewrite start_mcore in Hnl.
  assert (Hu : unknown_while_searching (run (start op core) l)).
  { apply (@run_invariant unknown_while_searching); auto.
    - intros M e. apply unknown_while_searching_next.
    - apply start_unknown. }
  destruct (nl core) as [| pl members] eqn:En; [congruence|].
  assert (Hpl : nth_error (nl (mcore (run (start op core) l))) 0 = Some pl)
    by (rewrite Hnl; reflexivity).
  assert (Hctl : forall reason, ctl (run (start op core) l) <> Panicked reason).
  { intros reason Hc. apply (Hnp reason). apply calls_pending. split; [exact H|].
    unfold pending. now rewrite Hc. }
  destruct (finish_finishes (poll_of op) _ Hm Hu Hpl Hctl) as (H1 & H2 & H3).
  exists (finish (run (start op core) l) pl), (mcore (run (start op core) (l ++ finish (run (start op core) l) pl))).
  split; [exact H3|].
  apply run_returns.
  - apply valid_app. auto.
  - rewrite run_app. exact H2.
Qed.

(** ** The sleeps of an outage *)

(** The durations of the sleeps of a trace, in order. *)
Definition naps (l : list Event) : list Z :=
  flat_map (fun ev => match ev with EvSleep d => [d] | _ => [] end) l.

Lemma doubled_capped b k :
  0 < b <= maxBackOffDuration ->
  Z.min (Z.min (b * 2) maxBackOffDuration * 2 ^ Z.of_nat k) maxBackOffDuration =
  Z.min (b * 2 ^ Z.of_nat (S k)) maxBackOffDuration.
Proof.
  intros Hb. unfold maxBackOffDuration in *.
  rewrite Nat2Z.inj_succ, Z.pow_succ_r by lia.
  assert (Hk : 1 <= 2 ^ Z.of_nat k) by (apply Z.lt_pred_le, Z.pow_pos_nonneg; lia).
  destruct (Z.le_gt_cases (b * 2) 1600) as [H | H].
  - rewrite (Z.min_l (b * 2)) by lia. f_equal. lia.
  - rewrite (Z.min_r (b * 2)) by lia.
    rewrite !Z.min_r; nia.
Qed.

Lemma paced_naps floors fails l :
  forall b due,
    in_bounds b -> paced floors fails b due l -> existsb floors l = false ->
    forall k d, nth_error (naps l) k = Some d ->
                d = Z.min (b * 2 ^ Z.of_nat k) maxBackOffDuration * Millisecond.
Proof.
  induction l as [| ev l IH]; intros b due Hb Hp Hf k d Hk.
  - destruct k; discriminate.
  - cbn [paced existsb] in Hp, Hf. destruct Hp as [Hev Hp].
    apply orb_false_iff in Hf. destruct Hf as [Hfe Hf].
    unfold backoff_step in Hp. rewrite Hfe in Hp.
    destruct ev as [lo hi r | t res | t req res | t req res | n];
      try (cbn in Hk; eapply IH; eauto; fail).
    destruct Hev as [_ ->]. cbn in Hk. destruct k as [| k]; cbn in Hk.
    + injection Hk as <-. cbn. rewrite Z.mul_1_r.
      unfold in_bounds in Hb. now rewrite Z.min_l by lia.
    + assert (Hb' : in_bounds (Z.min (b * 2) maxBackOffDuration)).
      { unfold in_bounds, initBackOffDuration, maxBackOffDuration in *. lia. }
      rewrite (IH _ _ Hb' Hp Hf k d Hk).
      rewrite doubled_capped; [reflexivity|].
      unfold in_bounds, initBackOffDuration in Hb. lia.
Qed.

Lemma run_unknown op core l :
  valid (start op core) l -> unknown_while_searching (run (start op core) l).
Proof.
  apply (@run_invariant unknown_while_searching).
  - intros M e. apply unknown_while_searching_next.
  - apply start_unknown.
Qed.

(** X8. The sleeps of an outage double.  In an execution that starts with the
    backoff between the floor and the ceiling, as long as no answer is
    accepted (no leader named, no send started, no matching poll, no
    successful query) the [k]-th sleep lasts [min (b * 2^k) 1600] ms, [b]
    being the backoff at the start; and after an answer that is accepted, the
    sleeps start again from 20 ms: 20, 40, 80, ..., 1280, 1600, 1600, ... *)
Theorem sleeps_double_until_an_answer_is_accepted :
  forall op core l,
    performs op core l ->
    (in_bounds (backOffDuration core) ->
     forall mid post,
       l = mid ++ post ->
       existsb (resets (poll_of op)) mid = false ->
       forall k d,
         nth_error (naps mid) k = Some d ->
         d = Z.min (backOffDuration core * 2 ^ Z.of_nat k) maxBackOffDuration * Millisecond) /\
    (forall pre ev mid post,
        l = pre ++ ev :: mid ++ post ->
        resets (poll_of op) ev = true ->
        existsb (resets (poll_of op)) mid = false ->
        forall k d,
          nth_error (naps mid) k = Some d ->
          d = Z.min (initBackOffDuration * 2 ^ Z.of_nat k) maxBackOffDuration * Millisecond).
Proof.
  intros op core l H. apply performs_valid in H. split.
  - intros Hb mid post -> Hf k d Hk.
    apply valid_app in H. destruct H as [Hv _].
    destruct (@ghost_run (poll_of op) mid (start op core) (start_op_mode op core)
                         (start_unknown op core) Hv) as (_ & _ & Hpaced).
    rewrite start_mcore in Hpaced. destruct (Hpaced Hb) as [Hp _].
    eapply paced_naps; eauto.
  - intros pre ev mid post -> Hr Hf k d Hk.
    apply valid_app in H. destruct H as [Hv [Hp H]].
    apply valid_app in H. destruct H as [Hmid _].
    destruct (op_run (poll_of op) (start op core) pre (start_op_mode op core) Hv)
      as (Hm & _).
    pose proof (run_unknown op core pre Hv) as Hu.
    destruct (op_step (poll_of op) _ ev Hm Hp) as (Hm' & _ & _ & _ & Hreset & _).
    destruct (Hreset Hr) as (Hb & _ & _).
    pose proof (unknown_while_searching_next _ ev Hu Hp) as Hu'.
    destruct (@ghost_run (poll_of op) mid _ Hm' Hu' Hmid) as (_ & _ & Hpaced).
    rewrite Hb in Hpaced.
    assert (Hfloor : in_bounds initBackOffDuration)
      by (unfold in_bounds, initBackOffDuration, maxBackOffDuration; lia).
    destruct (Hpaced Hfloor) as [Hpc _].
    eapply paced_naps; eauto.
Qed.

(** ** Polls follow a started send *)

(** The state is one of polling, or of having returned from
    [ExecuteActionRequest]. *)
Definition polled (M : Machine) : Prop :=
  match ctl M with
  | Head (Poll _ _) | Picked (Poll _ _) _ | Backoff (Poll _ _) => True
  | Done (RAction _ _ _) => True
  | _ => False
  end.

Lemma polled_next M ev :
  pending M = Some (call_of_event ev) -> polled (next M ev) ->
  polled M \/ send_ok ev = true.
Proof.
  destruct M as [[m | m pl | m | r | rs] core]; unfold polled, pending, next; cbn;
    intros Hp.
  - destruct (leaderID core) as [ld |] eqn:E.
    + destruct m; try discriminate; destruct ev; try discriminate; cbn; auto.
      * destruct (check_result ld res) as [[info err] |]; cbn; auto.
      * destruct res as [actionRes | e]; cbn; auto.
        destruct (Started actionRes); cbn; auto.
      * destruct res as [queryRes | e]; cbn; auto.
        destruct (Success queryRes); cbn; auto.
        destruct (QueryErr queryRes); cbn; auto.
    + destruct ev; try discriminate; cbn.
      destruct ((r <? 0) || (Z.of_nat (List.length (nl core)) <=? r)); cbn;
        [destruct m; auto|].
      destruct (nth_error (nl core) (Z.to_nat r)); cbn; destruct m; auto.
  - destruct ev; try discriminate. destruct res as [leaderRes | e]; cbn;
      [destruct (HasLeader leaderRes); cbn|]; destruct m; auto.
  - destruct ev; try discriminate. cbn. destruct m; auto.
  - discriminate.
  - destruct ev; discriminate.
Qed.

Lemma polled_run l :
  forall M, valid M l -> polled (run M l) -> polled M \/ existsb send_ok l = true.
Proof.
  induction l as [| ev l IH]; intros M Hv Hp; [left; exact Hp|].
  destruct Hv as [Hc Hv]. cbn [existsb].
  destruct (IH _ Hv Hp) as [H | H].
  - destruct (polled_next M ev Hc H) as [H' | H']; [left; exact H' | right].
    now rewrite H'.
  - right. rewrite H. apply orb_true_r.
Qed.

(** X9. [ExecuteActionRequest] polls only after a send that was started, and
    so it returns (which it does on a matching poll) only after a send that
    was started: it never reports an outcome for a command that no node
    accepted from it. *)
Theorem polls_follow_a_started_send :
  forall act core l,
    performs (OpAction act) core l ->
    (forall pre t req res post,
        l = pre ++ EvQuery t req res :: post -> existsb send_ok pre = true) /\
    (forall core', returns (OpAction act) core l core' -> existsb send_ok l = true).
Proof.
  intros act core l H. split.
  - intros pre t req res post ->.
    apply performs_valid in H. cbn in H.
    apply valid_app in H. destruct H as [Hv [Hp _]]. cbn in Hp.
    destruct (action_query_pending act core pre Hv Hp) as (i & c & Hrun & _).
    destruct (polled_run pre _ Hv) as [Hs | Hs]; [| destruct Hs | exact Hs].
    rewrite Hrun. exact I.
  - intros core' [res Hr].
    apply ExecuteActionRequest_machine in Hr. destruct Hr as [Hv Hr].
    unfold action_ret in Hr.
    destruct (polled_run l _ Hv) as [Hs | Hs]; [| destruct Hs | exact Hs].
    rewrite Hr. exact I.
Qed.


(** ** The cost of an operation when nothing fails *)

(** The RPCs an operation makes when the leader is cached and every answer is
    accepted. *)
Definition direct_calls (op : Operation) : nat :=
  match op with
  | OpLeader => 0
  | OpAction _ => 2
  | OpQuery _ => 1
  end.

(** The calls a state with a cached leader still has to make. *)
Definition calls_left (M : Machine) : nat :=
  match ctl M with
  | Head (Submit _) => 2
  | Head (Poll _ _) | Head (Query _) | Head (Check _) => 1
  | _ => 0
  end.

(** The state is not one of looking for the leader. *)
Definition settled (M : Machine) : Prop :=
  match ctl M with
  | Head _ => leaderID (mcore M) <> None
  | Done _ | Panicked _ => True
  | Picked _ _ | Backoff _ => False
  end.

Lemma settled_next poll M ev :
  in_modes (op_mode poll) M -> settled M ->
  pending M = Some (call_of_event ev) -> backs_off poll ev = false ->
  settled (next M ev) /\ (S (calls_left (next M ev)) <= calls_left M)%nat.
Proof.
  destruct M as [[m | m pl | m | r | rs] core];
    unfold in_modes, settled, calls_left, pending, next; cbn; intros Hm Hs Hp Hb;
    try contradiction; try discriminate.
  - destruct (leaderID core) as [ld |] eqn:E; [|congruence].
    destruct m; cbn in Hm; try discriminate; try contradiction;
      destruct ev; try discriminate; injection Hp as <- <-; cbn in Hb |- *.
    + destruct res as [actionRes | e]; cbn in *; [|discriminate].
      destruct (Started actionRes); cbn in *; [|discriminate].
      rewrite E. split; [discriminate | lia].
    + destruct Hm as [-> _]. cbn in Hb.
      destruct (check_result ld res) as [[info err] |]; cbn; [|split; [exact I | lia]].
      destruct (matches (jobID j) info); cbn in *; [|discriminate].
      destruct (action_outcome info); cbn. split; [exact I | lia].
    + subst poll. destruct res as [queryRes | e]; cbn in *; [|discriminate].
      destruct (Success queryRes); cbn in *; [|discriminate].
      destruct (QueryErr queryRes); cbn; split; try exact I; lia.
  - destruct ev; discriminate.
Qed.

Lemma settled_run poll l :
  forall M,
    in_modes (op_mode poll) M -> settled M -> valid M l ->
    existsb (backs_off poll) l = false ->
    (List.length l <= calls_left M)%nat.
Proof.
  induction l as [| ev l IH]; intros M Hm Hs Hv Hb; cbn [List.length]; [lia|].
  destruct Hv as [Hp Hv]. cbn [existsb] in Hb.
  apply orb_false_iff in Hb. destruct Hb as [Hb Hl].
  destruct (settled_next poll M ev Hm Hs Hp Hb) as [Hs' Hc].
  destruct (op_step poll M ev Hm Hp) as (Hm' & _).
  specialize (IH _ Hm' Hs' Hv Hl). lia.
Qed.

(** X10. With a leader cached and no answer that makes the client back off,
    an operation talks to that leader only and makes at most its direct
    calls: none for [lookForLeader], one QueryRequest for
    [ExecuteQueryRequest], one ActionRequest and one poll for
    [ExecuteActionRequest]. *)
Theorem cached_leader_direct_calls :
  forall op core l ld,
    leaderID core = Some ld ->
    performs op core l ->
    existsb (backs_off (poll_of op)) l = false ->
    (List.length l <= direct_calls op)%nat /\ Forall (sent_to ld) l.
Proof.
  intros op core l ld Hld H Hb. apply performs_valid in H. split.
  - replace (direct_calls op) with (calls_left (start op core)) by (destruct op; reflexivity).
    apply settled_run with (poll := poll_of op); auto.
    + apply start_op_mode.
    + destruct op; unfold settled; cbn; congruence.
  - destruct (@ghost_run (poll_of op) l (start op core) (start_op_mode op core)
                         (start_unknown op core) H) as (Hf & _).
    rewrite start_mcore, Hld in Hf.
    now destruct (follows_cache_kept _ _ _ Hf Hb).
Qed.

(** ** A send that fails is sent again before any poll *)

Lemma submit_stays j M ev :
  mode_of (ctl M) = Some (Submit j) ->
  pending M = Some (call_of_event ev) -> is_send ev = false ->
  is_poll ev = false /\
  (mode_of (ctl (next M ev)) = Some (Submit j) \/
   exists reason, ctl (next M ev) = Panicked reason).
Proof.
  destruct M as [[m | m pl | m | r | rs] core]; unfold pending, next; cbn;
    intros Hm Hp Hs; try discriminate; injection Hm as ->.
  - destruct (leaderID core) as [ld |] eqn:E.
    + destruct ev; try discriminate.
    + destruct ev; try discriminate. split; [reflexivity|]. cbn.
      destruct ((r <? 0) || (Z.of_nat (List.length (nl core)) <=? r)); cbn; eauto.
      destruct (nth_error (nl core) (Z.to_nat r)); cbn; eauto.
  - destruct ev; try discriminate. split; [reflexivity|].
    destruct res as [leaderRes | e]; cbn; auto.
    destruct (HasLeader leaderRes); cbn; auto.
  - destruct ev; try discriminate. split; [reflexivity|]. cbn. auto.
Qed.

Lemma submit_run j l :
  forall M,
    mode_of (ctl M) = Some (Submit j) -> valid M l ->
    forallb (fun ev => negb (is_send ev)) l = true ->
    forallb (fun ev => negb (is_poll ev)) l = true.
Proof.
  induction l as [| ev l IH]; intros M Hm Hv Hs; [reflexivity|].
  destruct Hv as [Hp Hv]. cbn [forallb] in Hs |- *.
  apply andb_true_iff in Hs. destruct Hs as [Hs Hl].
  apply negb_true_iff in Hs.
  destruct (@submit_stays j M ev Hm Hp Hs) as [Hq [Hm' | [reason Hc]]].
  - rewrite Hq. cbn. eapply IH; eauto.
  - rewrite Hq. cbn.
    assert (l = []) as ->; [|reflexivity].
    eapply valid_panicked; [|exact Hv]. unfold pending. rewrite Hc. reflexivity.
Qed.

(** X11. In [ExecuteActionRequest], a send that fails (a transport error, or
    a response with [started = false]) is not followed by any poll: whatever
    happens next (backoff, leader discovery), the next RPC to the leader is
    the ActionRequest again. *)
Theorem failed_send_is_sent_again_before_any_poll :
  forall act core pre s mid post,
    performs (OpAction act) core (pre ++ s :: mid ++ post) ->
    is_send s = true -> send_ok s = false ->
    forallb (fun ev => negb (is_send ev)) mid = true ->
    forallb (fun ev => negb (is_poll ev)) mid = true.
Proof.
  intros act core pre s mid post H Hs Hf Hmid.
  apply performs_valid in H. cbn in H.
  apply valid_app in H. destruct H as [Hv [Hp H]].
  apply valid_app in H. destruct H as [Hvm _].
  destruct s as [| | t req res | |]; try discriminate. cbn in Hp, Hf.
  destruct (action_send_pending act core pre Hv Hp) as (c & Hrun & Hld & _).
  apply submit_run with (j := job_of act core)
                        (M := next (run (action_machine act core) pre) (EvAction t req res));
    auto.
  rewrite Hrun. unfold next. cbn. rewrite Hld.
  destruct res as [actionRes | e]; cbn; [|reflexivity].
  cbn in Hf. rewrite Hf. reflexivity.
Qed.


(** ** The further properties on the example client *)

(** The command is sent and confirmed at once. *)
Definition confirmed_run : list Event :=
  [EvAction "n1" example_send started; EvQuery "n1" example_poll (RPCOk our_answer)].

(** A client that has just been created, and three members that do not
    answer. *)
Definition fresh_core : ClientCore := NewClientCore "c1" ["n1"; "n2"; "n3"].
Definition outage : list Event :=
  [EvRandom 0 2 0; EvLeader "n1" (RPCErr "timeout"); EvSleep (20 * Millisecond);
   EvRandom 0 2 2; EvLeader "n3" (RPCErr "timeout"); EvSleep (40 * Millisecond);
   EvRandom 0 2 1; EvLeader "n2" (RPCErr "timeout"); EvSleep (80 * Millisecond)].

Ltac by_running := vm_compute; repeat split.

Lemma operations_keep_identity_and_members_example :
  let core' := mcore (run (start (OpAction example_action) example_core) confirmed_run) in
  returns (OpAction example_action) example_core confirmed_run core' /\
  clientID core' = "c1" /\ nl core' = ["n1"].
Proof.
  intros core'.
  assert (H : returns (OpAction example_action) example_core confirmed_run core')
    by (apply run_returns; by_running).
  split; [exact H|].
  exact (@operations_keep_identity_and_members _ _ _ _ H).
Defined.

Lemma leader_requests_go_to_members_example :
  performs OpLeader fresh_core outage /\
  picks_members ["n1"; "n2"; "n3"] None outage /\
  forall pre t res post,
    outage = pre ++ EvLeader t res :: post -> In t ["n1"; "n2"; "n3"].
Proof.
  assert (H : performs OpLeader fresh_core outage) by (apply performs_valid; by_running).
  split; [exact H|].
  exact (@leader_requests_go_to_members _ _ _ H).
Defined.

Lemma out_of_range_pick_panics_example :
  performs OpLeader fresh_core ([] ++ [EvRandom 0 2 3]) /\
  calls OpLeader fresh_core ([] ++ [EvRandom 0 2 3]) (CPanic index_out_of_range) /\
  forall l', performs OpLeader fresh_core (([] ++ [EvRandom 0 2 3]) ++ l') -> l' = [].
Proof.
  assert (H : performs OpLeader fresh_core ([] ++ [EvRandom 0 2 3]))
    by (apply performs_valid; by_running).
  split; [exact H|].
  apply (@out_of_range_pick_panics _ _ _ _ _ _ H). right. lia.
Defined.

Lemma no_members_no_progress_example :
  let core := NewClientCore "c1" [] in
  let op := OpQuery (TSMDataQuery "x") in
  calls op core [] (CRandom 0 (-1)) /\
  forall l,
    performs op core l ->
    (l = [] \/ exists r, l = [EvRandom 0 (-1) r]) /\
    forall core', ~ returns op core l core'.
Proof.
  intros core op.
  exact (@no_members_no_progress op core eq_refl eq_refl).
Defined.

Lemma requests_carry_the_callers_payload_example :
  performs (OpAction example_action) example_core unconfirmed_run /\
  example_poll = {| QueryCmd := NewTSMLatestRequestQuery (clientID example_core) |}.
Proof.
  assert (H : performs (OpAction example_action) example_core unconfirmed_run)
    by (apply performs_valid; by_running).
  split; [exact H|].
  apply (@requests_carry_the_callers_payload
           _ _ _ (EvQuery "n1" example_poll nothing_on_record) H).
  right. left. reflexivity.
Defined.

Lemma returned_core_has_the_leader_example :
  let core' := mcore (run (start (OpAction example_action) example_core) confirmed_run) in
  returns (OpAction example_action) example_core confirmed_run core' /\
  exists ld,
    leaderID core' = Some ld /\
    ((OpAction example_action = OpLeader /\ confirmed_run = [] /\ core' = example_core) \/
     (backOffDuration core' = initBackOffDuration /\
      exists l' ev, confirmed_run = l' ++ [ev] /\ answered_by ld ev)) /\
    (forall act, calls (OpAction act) core' [] (CAction ld {| ActionCmd := act |})) /\
    (forall query, calls (OpQuery query) core' [] (CQuery ld {| QueryCmd := query |})) /\
    returns OpLeader core' [] core'.
Proof.
  intros core'.
  assert (H : returns (OpAction example_action) example_core confirmed_run core')
    by (apply run_returns; by_running).
  split; [exact H|].
  exact (@returned_core_has_the_leader _ _ _ _ H).
Defined.

Lemma operation_can_always_complete_example :
  performs (OpAction example_action) example_core mismatched_run /\
  exists l' core',
    (List.length l' <= 5)%nat /\
    returns (OpAction example_action) example_core (mismatched_run ++ l') core'.
Proof.
  assert (H : performs (OpAction example_action) example_core mismatched_run)
    by (apply performs_valid; by_running).
  split; [exact H|].
  apply (@operation_can_always_complete _ _ _); [discriminate | exact H |].
  intros reason Hc. apply calls_pending in Hc. destruct Hc as [_ Hc].
  vm_compute in Hc. discriminate Hc.
Defined.

Lemma sleeps_double_until_an_answer_is_accepted_example :
  performs OpLeader fresh_core outage /\
  forall k d,
    nth_error (naps outage) k = Some d ->
    d = Z.min (20 * 2 ^ Z.of_nat k) maxBackOffDuration * Millisecond.
Proof.
  assert (H : performs OpLeader fresh_core outage) by (apply performs_valid; by_running).
  split; [exact H|].
  destruct (@sleeps_double_until_an_answer_is_accepted _ _ _ H) as [Hs _].
  apply (Hs ltac:(vm_compute; split; discriminate) outage [] eq_refl eq_refl).
Defined.

Lemma polls_follow_a_started_send_example :
  performs (OpAction example_action) example_core confirmed_run /\
  (forall pre t req res post,
      confirmed_run = pre ++ EvQuery t req res :: post -> existsb send_ok pre = true) /\
  (forall core',
      returns (OpAction example_action) example_core confirmed_run core' ->
      existsb send_ok confirmed_run = true).
Proof.
  assert (H : performs (OpAction example_action) example_core confirmed_run)
    by (apply performs_valid; by_running).
  split; [exact H|].
  exact (@polls_follow_a_started_send _ _ _ H).
Defined.

Lemma cached_leader_direct_calls_example :
  performs (OpAction example_action) example_core confirmed_run /\
  (List.length confirmed_run <= 2)%nat /\ Forall (sent_to "n1") confirmed_run.
Proof.
  assert (H : performs (OpAction example_action) example_core confirmed_run)
    by (apply performs_valid; by_running).
  split; [exact H|].
  exact (@cached_leader_direct_calls (OpAction example_action) example_core
                                     confirmed_run "n1" eq_refl H eq_refl).
Defined.

(** The send is declined; the client backs off, finds the leader again and
    sends the command again. *)
Lemma failed_send_is_sent_again_before_any_poll_example :
  let s := EvAction "n1" example_send (RPCOk {| Started := false |}) in
  let mid := [EvSleep (20 * Millisecond); EvRandom 0 0 0;
              EvLeader "n1" (RPCOk {| HasLeader := true; LeaderID := "n1" |})] in
  let post := [EvAction "n1" example_send started] in
  performs (OpAction example_action) example_core ([] ++ s :: mid ++ post) /\
  forallb (fun ev => negb (is_poll ev)) mid = true.
Proof.
  intros s mid post.
  assert (H : performs (OpAction example_action) example_core ([] ++ s :: mid ++ post))
    by (apply performs_valid; by_running).
  split; [exact H|].
  exact (@failed_send_is_sent_again_before_any_poll _ _ _ _ _ _ H eq_refl eq_refl eq_refl).
Defined.


(** * The command line of the client ([startReadingCmd]) *)

Definition cmdQuery : string := "query".
Definition cmdSet : string := "set".
Definition cmdIncre : string := "increment".
Definition cmdMove : string := "move".
Definition cmdSetLoggerLevel : string := "loggerLevel".
Definition loggerLevelDebug : string := "debug".
Definition loggerLevelInfo : string := "info".
Definition loggerLevelWarn : string := "warn".
Definition loggerLevelError : string := "error".

(** [usageMp], a Go map: looking up a key it does not hold gives the zero
    value, the empty string. *)
Definition usageMp : list (string * string) :=
  [(cmdQuery, "<key>");
   (cmdSet, "<key> <value>");
   (cmdIncre, "<key> <value>");
   (cmdMove, "<source> <target> <value>");
   (cmdSetLoggerLevel, "<level> (warn, info, debug, error)")].

Definition map_index (m : list (string * string)) (key : string) : string :=
  match find (fun kv => String.eqb (fst kv) key) m with
  | Some kv => snd kv
  | None => ""
  end.

Definition newline : string := String (ascii_of_nat 10) EmptyString.

(** [combineErrorUsage(e, cmd)], on the message of [e]. *)
Definition combineErrorUsage (e : string) (cmd : string) : string :=
  e ++ newline ++ "Usage: " ++ cmd ++ " " ++ map_index usageMp cmd.

Definition invalidCommandError : string := "Invalid command".

(** The levels of the logger. *)
Inductive Level := DebugLevel | InfoLevel | WarnLevel | ErrorLevel.

(** What one turn of the loop of [startReadingCmd] does with a line. *)
Inductive Reaction :=
| RunQuery (key : string)
    (* ExecuteQueryRequest(sm.NewTSMDataQuery(key)), and its result printed *)
| SetLevel (level : Level)
    (* logger.SetLevel(level), and the confirmation printed *)
| RunSet (key : string) (value : Z)
    (* executeActionRequestAndPrint(ActBuilder.TSMActionSetValue(key, value)) *)
| RunIncr (key : string) (value : Z)
    (* executeActionRequestAndPrint(ActBuilder.TSMActionIncrValue(key, value)) *)
| RunMove (source target : string) (value : Z)
    (* executeActionRequestAndPrint(ActBuilder.TSMActionMoveValue(source, target, value)) *)
| PrintUsage
    (* the default case: invalidCommandError and utils.PrintUsage(usageMp) *)
| Reject (err : string)
    (* err is set, and printed to stderr after the switch *)
| Silent.
    (* nothing is done and err stays nil *)

(** [cmd[i]]: [None] is the panic on an index out of range. *)
Definition at_index (cmd : list string) (i : nat) : option string := nth_error cmd i.

Definition andThen {A B : Type} (x : option A) (f : A -> option B) : option B :=
  match x with
  | Some a => f a
  | None => None
  end.

Section CommandLine.

(** [strconv.Atoi]: the integer a string denotes, or an error. *)
Variable Atoi : string -> option Z.

(** The body of the loop, from the fields of the line on. *)
Definition handleFields (cmd : list string) : option Reaction :=
  let l := List.length cmd in
  if Nat.eqb l 0 then Some (Reject "Command cannot be empty")
  else
    let usage :=
      andThen (at_index cmd 0) (fun c =>
      Some (Reject (combineErrorUsage invalidCommandError c))) in
    andThen (at_index cmd 0) (fun cmd0 =>
    if String.eqb cmd0 cmdQuery then
      if negb (Nat.eqb l 2) then usage
      else andThen (at_index cmd 1) (fun key => Some (RunQuery key))
    else if String.eqb cmd0 cmdSetLoggerLevel then
      if negb (Nat.eqb l 2) then usage
      else
        andThen (at_index cmd 1) (fun level =>
        if String.eqb level loggerLevelDebug then Some (SetLevel DebugLevel)
        else if String.eqb level loggerLevelInfo then Some (SetLevel InfoLevel)
        else if String.eqb level loggerLevelWarn then Some (SetLevel WarnLevel)
        else if String.eqb level loggerLevelError then Some (SetLevel ErrorLevel)
        else usage)
    else if String.eqb cmd0 cmdSet || String.eqb cmd0 cmdIncre then
      if negb (Nat.eqb l 3) then usage
      else
        andThen (at_index cmd 2) (fun text =>
        match Atoi text with
        | None => Some (Reject "value should be an integer")
        | Some value =>
            andThen (at_index cmd 0) (fun c =>
            if String.eqb c cmdSet then
              andThen (at_index cmd 1) (fun key => Some (RunSet key value))
            else if String.eqb c cmdIncre then
              andThen (at_index cmd 1) (fun key => Some (RunIncr key value))
            else Some Silent)
        end)
    else if String.eqb cmd0 cmdMove then
      if negb (Nat.eqb l 4) then usage
      else
        andThen (at_index cmd 3) (fun text =>
        match Atoi text with
        | None => Some (Reject "value should be an integer")
        | Some value =>
            andThen (at_index cmd 1) (fun source =>
            andThen (at_index cmd 2) (fun target =>
            Some (RunMove source target value)))
        end)
    else Some PrintUsage).

End CommandLine.

Ltac eqb_cases :=
  repeat match goal with
         | |- context [String.eqb ?a ?b] =>
             destruct (String.eqb_spec a b); subst; cbn [orb negb andThen]
         | H : context [String.eqb ?a ?b] |- _ =>
             destruct (String.eqb_spec a b); subst; cbn [orb negb andThen] in H
         end.

Ltac by_length cmd :=
  destruct cmd as [| c0 [| c1 [| c2 [| c3 [| c4 rest]]]]];
  unfold handleFields, at_index; cbn [List.length Nat.eqb negb nth_error andThen].

(** X12. Handling a line never indexes its fields out of range, whatever the
    number of fields, and never leaves the line unanswered: an operation is
    run, the logger level is set, or a message is printed. *)
Theorem handleFields_answers_every_line :
  forall Atoi cmd, exists r, handleFields Atoi cmd = Some r /\ r <> Silent.
Proof.
  intros Atoi cmd. by_length cmd; eqb_cases;
    repeat match goal with
           | |- context [Atoi ?s] => destruct (Atoi s); cbn [andThen]
           end;
    eqb_cases; try (eexists; split; [reflexivity | discriminate]);
    try congruence.
Qed.

Definition level_name (level : Level) : string :=
  match level with
  | DebugLevel => loggerLevelDebug
  | InfoLevel => loggerLevelInfo
  | WarnLevel => loggerLevelWarn
  | ErrorLevel => loggerLevelError
  end.

Ltac atoi_cases :=
  repeat match goal with
         | |- context [match ?f ?s with Some _ => _ | None => _ end] =>
             destruct (f s) eqn:?; cbn [andThen]
         | H : context [match ?f ?s with Some _ => _ | None => _ end] |- _ =>
             destruct (f s) eqn:?; cbn [andThen] in H
         end.

(** X13. A line makes the client run an operation exactly when it is well
    formed: [query <key>], [set <key> <int>], [increment <key> <int>] or
    [move <source> <target> <int>], with exactly that many fields and a last
    field that [strconv.Atoi] accepts; the operation gets the fields as they
    were typed and the integer parsed.  The logger level is set exactly by
    [loggerLevel] followed by one of the four level names. *)
Theorem operations_run_only_for_well_formed_lines :
  forall Atoi cmd,
    (forall key, handleFields Atoi cmd = Some (RunQuery key) <-> cmd = [cmdQuery; key]) /\
    (forall key value,
        handleFields Atoi cmd = Some (RunSet key value) <->
        exists text, cmd = [cmdSet; key; text] /\ Atoi text = Some value) /\
    (forall key value,
        handleFields Atoi cmd = Some (RunIncr key value) <->
        exists text, cmd = [cmdIncre; key; text] /\ Atoi text = Some value) /\
    (forall source target value,
        handleFields Atoi cmd = Some (RunMove source target value) <->
        exists text, cmd = [cmdMove; source; target; text] /\ Atoi text = Some value) /\
    (forall level,
        handleFields Atoi cmd = Some (SetLevel level) <->
        cmd = [cmdSetLoggerLevel; level_name level]).
Proof.
  intros Atoi cmd. repeat split.
  - by_length cmd; intros H; eqb_cases; atoi_cases; eqb_cases;
      try discriminate; try congruence.
  - intros ->. reflexivity.
  - by_length cmd; intros H; eqb_cases; atoi_cases; eqb_cases;
      try discriminate; try congruence.
    injection H as <- <-. eauto.
  - intros (text & -> & E). unfold handleFields. cbn. now rewrite E.
  - by_length cmd; intros H; eqb_cases; atoi_cases; eqb_cases;
      try discriminate; try congruence.
    injection H as <- <-. eauto.
  - intros (text & -> & E). unfold handleFields. cbn. now rewrite E.
  - by_length cmd; intros H; eqb_cases; atoi_cases; eqb_cases;
      try discriminate; try congruence.
    injection H as <- <- <-. eauto.
  - intros (text & -> & E). unfold handleFields. cbn. now rewrite E.
  - by_length cmd; intros H; eqb_cases; atoi_cases; eqb_cases;
      try discriminate; try congruence;
      injection H as <-; reflexivity.
  - intros ->. destruct level; reflexivity.
Qed.











(** * The operations at work: what they do on a failed or odd answer *)

(** ** Reading an observation of a sequence *)

Lemma can_ret_inv {R} (r : R) l o :
  can (Ret r) l o -> l = [] /\ (o = Running \/ o = Returned r).
Proof.
  intros (tr & H & <- & <-).
  destruct (is_trace_ret_inv H) as [-> | ->]; cbn; auto.
Qed.

Lemma can_bind_inv {A R} (t : itree clientE A) (k : A -> itree clientE R) l o :
  can (ITree.bind t k) l o ->
  (can t l Running /\ o = Running) \/
  (exists c, can t l (Blocked c) /\ o = Blocked c) \/
  (exists l1 a l2, can t l1 (Returned a) /\ can (k a) l2 o /\ l = l1 ++ l2).
Proof.
  intros (tr & H & <- & <-).
  destruct (is_trace_bind_inv _ _ H)
    as [(tr1 & H1 & -> & [[E1 ->] | (c & E1 & ->)])
       | (tr1 & a & tr2 & H1 & E1 & H2 & -> & ->)].
  - left. split; [|reflexivity]. exists tr1. auto.
  - right; left. exists c. split; [|reflexivity]. exists tr1. auto.
  - right; right. exists (events tr1), a, (events tr2).
    split; [exists tr1; auto|]. split; [exists tr2; auto | reflexivity].
Qed.

(** ** [checkActionRequest] with the leader cached *)

(** With the leader cached, [checkActionRequest] sends it the query and, on
    the answer, returns what [check_result] reads off it, or panics on the
    failed type assertion; it does nothing else. *)
Lemma checkActionRequest_cached q core ld l o :
  leaderID core = Some ld ->
  can (checkActionRequest q core) l o <->
  (l = [] /\ (o = Running \/ o = Blocked (CQuery ld q))) \/
  (exists res,
      l = [EvQuery ld q res] /\
      (o = Running \/
       o = match check_result ld res with
           | Some (info, err) => Returned (core, (info, err))
           | None => Blocked (CPanic not_a_request_info)
           end)).
Proof.
  intros Eld. rewrite checkActionRequest_machine.
  assert (Hp0 : pending (check_machine q core) = Some (CQuery ld q))
    by (unfold pending; cbn; now rewrite Eld).
  assert (Hnext : forall res,
             next (check_machine q core) (EvQuery ld q res) =
             match check_result ld res with
             | Some (info, err) => mkMachine (Done (RCheck core info err)) core
             | None => mkMachine (Panicked not_a_request_info) core
             end).
  { intros res. unfold next. cbn. rewrite Eld.
    destruct (check_result ld res) as [[info err] |]; reflexivity. }
  unfold simulates. split.
  - intros [Hv Ho]. destruct l as [| ev l].
    + left. split; [reflexivity|]. unfold run in Ho. cbn [fold_left] in Ho.
      destruct o as [| c | r]; auto.
      * right. congruence.
      * unfold check_ret in Ho. discriminate.
    + right. destruct Hv as [Hp Hv]. rewrite Hp0 in Hp.
      destruct ev as [| | | t req res |]; try discriminate. injection Hp as <- <-.
      exists res.
      change (run ?M (?e :: l)) with (run (next M e) l) in Ho.
      rewrite Hnext in Hv, Ho.
      destruct (check_result ld res) as [[info err] |].
      * apply valid_returned in Hv; [|reflexivity]. subst l. split; [reflexivity|].
        unfold run in Ho. cbn [fold_left] in Ho.
        destruct o as [| c | [c' [info' err']]]; auto.
        -- discriminate.
        -- right. unfold check_ret in Ho. cbn in Ho. now injection Ho as <- <- <-.
      * apply valid_panicked with (reason := not_a_request_info) in Hv; [|reflexivity].
        subst l. split; [reflexivity|].
        unfold run in Ho. cbn [fold_left] in Ho.
        destruct o as [| c | r]; auto.
        -- right. cbn in Ho. congruence.
        -- unfold check_ret in Ho. discriminate.
  - intros [[-> Ho] | (res & -> & Ho)].
    + split; [exact I|]. destruct Ho as [-> | ->]; [exact I | exact Hp0].
    + split; [split; [exact Hp0 | exact I]|].
      unfold run. cbn [fold_left]. rewrite Hnext.
      destruct Ho as [-> | ->]; [exact I|].
      destruct (check_result ld res) as [[info err] |]; reflexivity.
Qed.

(** ** One turn of the check loop on a poll that does not match *)

Lemma can_bind_ret_inv {A R} (a : A) (k : A -> itree clientE R) l o :
  can (ITree.bind (Ret a) k) l o -> can (k a) l o.
Proof.
  intros H. apply can_bind_inv in H.
  destruct H as [[H ->] | [(c & H & _) | (l1 & a' & l2 & H1 & H2 & ->)]].
  - apply can_ret_inv in H. destruct H as [-> _]. apply can_running.
  - apply can_ret_inv in H. destruct H as [_ [H | H]]; discriminate.
  - apply can_ret_inv in H1. destruct H1 as [-> [H | H]]; [discriminate|].
    now injection H as <-.
Qed.

Lemma can_bind_ret {A R} (a : A) (k : A -> itree clientE R) l o :
  can (k a) l o -> can (ITree.bind (Ret a) k) l o.
Proof.
  intros H. change l with ([] ++ l). eapply can_bind; [apply can_ret | exact H].
Qed.

(** [logErrAndBackoff] followed by a computation that makes no call. *)
Lemma can_backoff_then_inv {R} msg err core (k : ClientCore -> itree clientE R)
      (r : ClientCore -> R) l o :
  (forall c l' o', can (k c) l' o' -> l' = [] /\ (o' = Running \/ o' = Returned (r c))) ->
  can (ITree.bind (logErrAndBackoff msg err core) k) l o ->
  let d := wrap64 (backOffDuration core * Millisecond) in
  (l = [] /\ (o = Running \/ o = Blocked (CSleep d))) \/
  (l = [EvSleep d] /\
   (o = Running \/ o = Returned (r (backed_off (set_leaderID None core))))).
Proof.
  intros Hk H d. apply can_bind_inv in H.
  destruct H as [[H ->] | [(c & H & ->) | (l1 & c2 & l3 & H3 & H4 & ->)]].
  - apply logErrAndBackoff_can in H. destruct H as [[-> _] | [-> _]]; auto.
  - apply logErrAndBackoff_can in H.
    destruct H as [[-> [H | H]] | [-> [H | H]]]; try discriminate.
    injection H as ->. auto.
  - apply logErrAndBackoff_can in H3.
    destruct H3 as [[_ [H | H]] | [-> [H | H]]]; try discriminate.
    injection H as <-. apply Hk in H4. destruct H4 as [-> H4]. right. auto.
Qed.

(** With the leader cached and turns left, a turn whose poll brings no
    matching info makes the poll, sleeps once for the backoff, and hands
    over to the next turn with the count advanced by one, the leader cache
    empty and the backoff doubled. *)
Lemma checkLoop_body_unmatched q reqID i core ld res info err :
  i < maxCheckCountBeforeRetry -> leaderID core = Some ld ->
  check_result ld res = Some (info, err) -> matches reqID info = false ->
  let d := wrap64 (backOffDuration core * Millisecond) in
  let next_turn := (wrap64 (i + 1), backed_off (set_leaderID None core)) in
  can (checkLoop_body q reqID (i, core)) [] (Blocked (CQuery ld q)) /\
  can (checkLoop_body q reqID (i, core)) [EvQuery ld q res] (Blocked (CSleep d)) /\
  can (checkLoop_body q reqID (i, core)) [EvQuery ld q res; EvSleep d]
      (Returned (inl next_turn)) /\
  forall l' o,
    can (checkLoop_body q reqID (i, core)) (EvQuery ld q res :: l') o ->
    (l' = [] /\ (o = Running \/ o = Blocked (CSleep d))) \/
    (l' = [EvSleep d] /\ (o = Running \/ o = Returned (inl next_turn))).
Proof.
  intros Hi Eld Ec Hm d next_turn.
  assert (Ei : (i <? maxCheckCountBeforeRetry) = true) by now apply Z.ltb_lt.
  assert (Hret : can (checkActionRequest q core) [EvQuery ld q res]
                     (Returned (core, (info, err)))).
  { apply (checkActionRequest_cached q core _ _ Eld). right. exists res.
    split; [reflexivity|]. right. now rewrite Ec. }
  unfold checkLoop_body. rewrite Ei.
  split; [|split; [|split]].
  - apply can_bind_blocked. apply (checkActionRequest_cached q core _ _ Eld). auto.
  - change [EvQuery ld q res] with ([EvQuery ld q res] ++ []).
    eapply can_bind; [exact Hret|]. cbn.
    destruct err as [e |].
    + apply can_bind_blocked. apply logErrAndBackoff_can. left. auto.
    + apply can_bind_ret. rewrite Hm.
      apply can_bind_blocked. apply logErrAndBackoff_can. left. auto.
  - change [EvQuery ld q res; EvSleep d] with ([EvQuery ld q res] ++ [EvSleep d]).
    eapply can_bind; [exact Hret|]. cbn.
    destruct err as [e |].
    + change [EvSleep d] with ([EvSleep d] ++ []).
      eapply can_bind; [apply logErrAndBackoff_can; right; auto|].
      rewrite Hm. apply can_bind_ret. apply can_ret.
    + apply can_bind_ret. rewrite Hm.
      change [EvSleep d] with ([EvSleep d] ++ []).
      eapply can_bind; [apply logErrAndBackoff_can; right; auto|]. apply can_ret.
  - intros l' o H. apply can_bind_inv in H.
    destruct H as [[H ->] | [(c & H & ->) | (l1 & [c1 [info1 err1]] & l2 & H1 & H2 & E)]].
    + apply (checkActionRequest_cached q core _ _ Eld) in H.
      destruct H as [[H _] | (res' & H & _)]; [discriminate|].
      injection H as _ <-. auto.
    + apply (checkActionRequest_cached q core _ _ Eld) in H.
      destruct H as [[H _] | (res' & H & [H' | H'])]; try discriminate.
      injection H as <- _. rewrite Ec in H'. discriminate.
    + apply (checkActionRequest_cached q core _ _ Eld) in H1.
      destruct H1 as [[_ [H | H]] | (res' & -> & [H' | H'])]; try discriminate.
      injection E as <- <-. rewrite Ec in H'. injection H' as -> -> ->.
      cbn in H2.
      destruct err as [e |].
      * rewrite Hm in H2.
        apply can_backoff_then_inv with (r := fun c => inl (wrap64 (i + 1), c)) in H2;
          [exact H2|].
        intros c l0 o0 Hc. apply can_bind_ret_inv in Hc. now apply can_ret_inv in Hc.
      * apply can_bind_ret_inv in H2. rewrite Hm in H2.
        apply can_backoff_then_inv with (r := fun c => inl (wrap64 (i + 1), c)) in H2;
          [exact H2|].
        intros c l0 o0 Hc. now apply can_ret_inv in Hc.
Qed.

(** ** Every poll uses up one of the six attempts *)

Lemma polls_app l1 l2 : polls (l1 ++ l2) = polls l1 + polls l2.
Proof.
  unfold polls. rewrite filter_app, length_app. lia.
Qed.

Lemma polls_none l :
  forallb (fun e => negb (is_send e) && negb (is_poll e)) l = true -> polls l = 0.
Proof.
  induction l as [| ev l IH]; [reflexivity|]. cbn [forallb]. intros H.
  apply andb_true_iff in H. destruct H as [H1 H2].
  apply andb_true_iff in H1. destruct H1 as [_ H1]. apply negb_true_iff in H1.
  rewrite polls_cons, H1, IH by assumption. reflexivity.
Qed.

Lemma no_sends_weaken l :
  forallb (fun e => negb (is_send e) && negb (is_poll e)) l = true ->
  forallb (fun e => negb (is_send e)) l = true.
Proof.
  induction l as [| ev l IH]; [reflexivity|]. cbn [forallb]. intros H.
  apply andb_true_iff in H. destruct H as [H1 H2].
  apply andb_true_iff in H1. destruct H1 as [H1 _]. now rewrite H1, IH.
Qed.

(** After a started send, the call to the leader that follows a poll (once
    the backoff and the search for the leader are over) is the ActionRequest
    again when the poll was the sixth since the send, and another poll when
    it was an earlier one. *)
Lemma poll_uses_one_attempt act core pre s mid ev rest c :
  can (ExecuteActionRequest act core) (pre ++ s :: (mid ++ ev :: rest)) (Blocked c) ->
  send_ok s = true ->
  forallb (fun e => negb (is_send e)) mid = true ->
  is_poll ev = true ->
  forallb (fun e => negb (is_send e) && negb (is_poll e)) rest = true ->
  match c with
  | CAction _ _ => polls mid + 1 = maxCheckCountBeforeRetry
  | CQuery _ _ => polls mid + 1 < maxCheckCountBeforeRetry
  | _ => True
  end.
Proof.
  intros Hcan Hs Hmid Hev Hrest.
  apply ExecuteActionRequest_machine in Hcan. destruct Hcan as [Hv Hpend].
  rewrite run_app in Hpend.
  apply valid_app in Hv. destruct Hv as [Hv1 [Hp Hv2]].
  change (run ?M (s :: ?l)) with (run (next M s) l) in Hpend.
  destruct s as [| | t req [res | e] | |]; try discriminate. cbn in Hs.
  destruct (action_send_pending act core pre Hv1 Hp) as (c0 & Hrun & Hld & Hreq).
  pose proof (action_mode_run act core (pre ++ [EvAction t req (RPCOk res)])) as Hm.
  rewrite run_snoc in Hm.
  assert (Hnext : next (run (action_machine act core) pre) (EvAction t req (RPCOk res)) =
                  mkMachine (Head (Poll (job_of act core) 0)) (resetBackOffDuration c0)).
  { rewrite Hrun. unfold next. cbn. rewrite Hld, Hs. reflexivity. }
  rewrite Hnext in Hm, Hv2, Hpend.
  specialize (Hm (proj2 (valid_snoc _ _ _) (conj Hv1 Hp))).
  assert (Hns : forallb (fun e => negb (is_send e)) (mid ++ ev :: rest) = true).
  { rewrite forallb_app, Hmid. cbn [forallb andb].
    rewrite (no_sends_weaken _ Hrest), andb_true_r.
    destruct ev; try discriminate. reflexivity. }
  destruct (@check_segment (job_of act core) (mid ++ ev :: rest) _ 0 Hm Hv2 Hns eq_refl)
    as [_ Hk].
  assert (Hpolls : polls (mid ++ ev :: rest) = polls mid + 1).
  { rewrite polls_app, polls_cons, Hev, (polls_none _ Hrest). lia. }
  set (M := run _ (mid ++ ev :: rest)) in *.
  pose proof (@run_invariant (in_modes (action_mode (job_of act core)))
                (fun M e => @action_mode_next (job_of act core) M e)
                (mid ++ ev :: rest) _ Hm Hv2) as HmM.
  fold M in HmM.
  destruct c as [| | t' req' | t' req' | |]; try exact I.
  - destruct (pending_action_inv _ Hpend) as (j & Hc & _).
    destruct (Hk maxCheckCountBeforeRetry) as [E _]; [|lia].
    unfold turns_used. rewrite Hc. reflexivity.
  - destruct (pending_query_inv _ Hpend) as (m & Hc & _ & Hcase).
    unfold in_modes in HmM. rewrite Hc in HmM. cbn in HmM.
    destruct HmM as [-> | (i & -> & Hi)].
    + destruct Hcase as [H | [(j' & i' & H & _) | H]]; discriminate.
    + destruct (Hk i) as [E _]; [|lia].
      unfold turns_used. rewrite Hc. reflexivity.
Qed.


(** ** Failed RPCs are retried *)

(** From any point that is not a panic, an operation of a client with members
    can still return. *)
Lemma completes_from op core l :
  nl core <> [] -> valid (start op core) l ->
  (forall reason, ctl (run (start op core) l) <> Panicked reason) ->
  exists l' core', returns op core (l ++ l') core'.
Proof.
  intros Hn H Hctl.
  destruct (op_run (poll_of op) (start op core) l (start_op_mode op core) H)
    as (Hm & Hnl & _).
  rewrite start_mcore in Hnl.
  pose proof (run_unknown op core l H) as Hu.
  destruct (nl core) as [| pl members] eqn:En; [congruence|].
  assert (Hpl : nth_error (nl (mcore (run (start op core) l))) 0 = Some pl)
    by (rewrite Hnl; reflexivity).
  destruct (finish_finishes (poll_of op) _ Hm Hu Hpl Hctl) as (H1 & H2 & _).
  exists (finish (run (start op core) l) pl),
         (mcore (run (start op core) (l ++ finish (run (start op core) l) pl))).
  apply run_returns.
  - apply valid_app. auto.
  - rewrite run_app. exact H2.
Qed.

(** After an answer the client backs off on, the operation has not
    panicked. *)
Lemma backs_off_completes op core l ev :
  nl core <> [] -> valid (start op core) (l ++ [ev]) ->
  backs_off (poll_of op) ev = true ->
  exists l' core', returns op core ((l ++ [ev]) ++ l') core'.
Proof.
  intros Hn Hv Hb. apply completes_from; auto.
  intros reason Hc.
  pose proof Hv as Hv0. apply valid_snoc in Hv0. destruct Hv0 as [Hv0 Hp].
  destruct (op_run (poll_of op) (start op core) l (start_op_mode op core) Hv0)
    as (Hm & _).
  destruct (op_step (poll_of op) _ ev Hm Hp) as (_ & _ & _ & Hback & _).
  destruct (Hback Hb) as (m & Hnext).
  rewrite run_snoc, Hnext in Hc. discriminate.
Qed.

(** C8. Neither operation hands a transport error or a decline to its
    caller.  [ExecuteActionRequest] returns only on a poll that brought the
    matching request info, and what it returns is read off that info;
    [ExecuteQueryRequest] returns only on a response with [success = true],
    with the data and a nil error or with the query error.  After a
    transport error or a decline of any RPC, either operation goes on instead
    of returning: it sleeps for the backoff and then, the leader cache being
    empty, looks for the leader again; and if the client has members it can
    still return afterwards.  Such failures do occur and are retried: with a
    leader cached, the first RPC of either operation goes to it, and when it
    fails or is declined (as when a poll after a started send does) the
    operation is in that retry. *)
Theorem errors_are_retried_not_returned :
  (forall act core l core' ok msg,
      can (ExecuteActionRequest act core) l (Returned (core', (ok, msg))) ->
      exists l' t req queryRes info,
        l = l' ++ [EvQuery t req (RPCOk queryRes)] /\
        Success queryRes = true /\ QueryErr queryRes = None /\
        Data queryRes = VRequestInfo info /\
        RequestId info = GetRequestID act /\
        (ok, msg) = match Err info with
                    | Some m => (false, m)
                    | None => (true, "action success")
                    end) /\
  (forall query core l core' data err,
      can (ExecuteQueryRequest query core) l (Returned (core', (data, err))) ->
      exists l' t req queryRes,
        l = l' ++ [EvQuery t req (RPCOk queryRes)] /\
        Success queryRes = true /\
        (data, err) = match QueryErr queryRes with
                      | Some m => (VNil, Some m)
                      | None => (Data queryRes, None)
                      end) /\
  (forall act core l ev,
      can (ExecuteActionRequest act core) (l ++ [ev]) Running ->
      error_or_decline ev = true ->
      retried (ExecuteActionRequest act core) (nl core) (l ++ [ev]) /\
      (nl core <> [] ->
       exists l' core' res,
         can (ExecuteActionRequest act core) ((l ++ [ev]) ++ l') (Returned (core', res)))) /\
  (forall query core l ev,
      can (ExecuteQueryRequest query core) (l ++ [ev]) Running ->
      error_or_decline ev = true ->
      retried (ExecuteQueryRequest query core) (nl core) (l ++ [ev]) /\
      (nl core <> [] ->
       exists l' core' res,
         can (ExecuteQueryRequest query core) ((l ++ [ev]) ++ l') (Returned (core', res)))) /\
  (forall act core ld res,
      leaderID core = Some ld ->
      let send := EvAction ld {| ActionCmd := act |} res in
      error_or_decline send = true ->
      can (ExecuteActionRequest act core) [] (Blocked (CAction ld {| ActionCmd := act |})) /\
      retried (ExecuteActionRequest act core) (nl core) [send]) /\
  (forall act core ld res,
      leaderID core = Some ld ->
      let query := {| QueryCmd := NewTSMLatestRequestQuery (clientID core) |} in
      let send := EvAction ld {| ActionCmd := act |} (RPCOk {| Started := true |}) in
      let poll := EvQuery ld query res in
      error_or_decline poll = true ->
      can (ExecuteActionRequest act core) [send] (Blocked (CQuery ld query)) /\
      retried (ExecuteActionRequest act core) (nl core) [send; poll]) /\
  (forall query core ld res,
      leaderID core = Some ld ->
      let ask := EvQuery ld {| QueryCmd := query |} res in
      error_or_decline ask = true ->
      can (ExecuteQueryRequest query core) [] (Blocked (CQuery ld {| QueryCmd := query |})) /\
      retried (ExecuteQueryRequest query core) (nl core) [ask]).
Proof.
  assert (Hact : forall act core l ev,
             can (ExecuteActionRequest act core) (l ++ [ev]) Running ->
             error_or_decline ev = true ->
             retried (ExecuteActionRequest act core) (nl core) (l ++ [ev])).
  { intros act core l ev Hcan Hev.
    apply (@backs_off_retried _ _ (action_machine act core) action_ret
                              (Some (GetRequestID act)) l ev); auto.
    - apply ExecuteActionRequest_machine.
    - now intros M r ->.
    - apply action_op_mode.
    - now apply error_or_decline_backs_off. }
  assert (Hqry : forall query core l ev,
             can (ExecuteQueryRequest query core) (l ++ [ev]) Running ->
             error_or_decline ev = true ->
             retried (ExecuteQueryRequest query core) (nl core) (l ++ [ev])).
  { intros query core l ev Hcan Hev.
    apply (@backs_off_retried _ _ (query_machine query core) query_ret None l ev); auto.
    - apply ExecuteQueryRequest_machine.
    - now intros M r ->.
    - apply query_op_mode.
    - now apply error_or_decline_backs_off. }
  split; [|split; [|split; [|split; [|split; [|split]]]]].
  - apply action_returned_inv.
  - apply query_returned_inv.
  - intros act core l ev Hcan Hev. split; [now apply Hact|].
    intros Hn. apply ExecuteActionRequest_machine in Hcan. destruct Hcan as [Hv _].
    destruct (@backs_off_completes (OpAction act) core l ev Hn Hv) as (l' & core' & res & H).
    + now apply error_or_decline_backs_off.
    + eauto.
  - intros query core l ev Hcan Hev. split; [now apply Hqry|].
    intros Hn. apply ExecuteQueryRequest_machine in Hcan. destruct Hcan as [Hv _].
    destruct (@backs_off_completes (OpQuery query) core l ev Hn Hv) as (l' & core' & res & H).
    + now apply error_or_decline_backs_off.
    + eauto.
  - intros act core ld res Eld send Hev.
    assert (Hp : pending (action_machine act core) = Some (CAction ld {| ActionCmd := act |}))
      by (unfold pending; cbn; now rewrite Eld).
    split.
    + apply ExecuteActionRequest_machine. split; [exact I | exact Hp].
    + apply (Hact act core [] send); [|exact Hev].
      apply ExecuteActionRequest_machine. split; [|exact I]. split; [exact Hp | exact I].
  - intros act core ld res Eld query send poll Hev.
    assert (Hp : pending (action_machine act core) = Some (CAction ld {| ActionCmd := act |}))
      by (unfold pending; cbn; now rewrite Eld).
    assert (Hnext : next (action_machine act core) send =
                    mkMachine (Head (Poll (job_of act core) 0)) (resetBackOffDuration core))
      by (unfold next; cbn; now rewrite Eld).
    assert (Hp' : pending (next (action_machine act core) send) = Some (CQuery ld query))
      by (rewrite Hnext; unfold pending; cbn; now rewrite Eld).
    split.
    + apply ExecuteActionRequest_machine. split; [split; [exact Hp | exact I] | exact Hp'].
    + apply (Hact act core [send] poll); [|exact Hev].
      apply ExecuteActionRequest_machine. split; [|exact I].
      split; [exact Hp|]. split; [exact Hp' | exact I].
  - intros query core ld res Eld ask Hev.
    assert (Hp : pending (query_machine query core) =
                 Some (CQuery ld {| QueryCmd := query |}))
      by (unfold pending; cbn; now rewrite Eld).
    split.
    + apply ExecuteQueryRequest_machine. split; [exact I | exact Hp].
    + apply (Hqry query core [] ask); [|exact Hev].
      apply ExecuteQueryRequest_machine. split; [|exact I]. split; [exact Hp | exact I].
Qed.


Lemma errors_are_retried_not_returned_example :
  let timeout := EvAction "n1" example_send (RPCErr "timeout") in
  can (ExecuteActionRequest example_action example_core) []
      (Blocked (CAction "n1" example_send)) /\
  retried (ExecuteActionRequest example_action example_core) ["n1"] [timeout] /\
  exists l' core' res,
    can (ExecuteActionRequest example_action example_core) (([] ++ [timeout]) ++ l')
        (Returned (core', res)).
Proof.
  intros timeout.
  destruct errors_are_retried_not_returned as (_ & _ & H3 & _ & H5 & _).
  destruct (H5 example_action example_core "n1" (RPCErr "timeout") eq_refl eq_refl)
    as [A B].
  split; [exact A|]. split; [exact B|].
  assert (Hrun : can (ExecuteActionRequest example_action example_core)
                     ([] ++ [timeout]) Running)
    by (apply ExecuteActionRequest_machine; by_running).
  destruct (H3 example_action example_core [] timeout Hrun eq_refl) as [_ C].
  apply C. discriminate.
Defined.

(** ** A poll answered with a query error *)

(** C9. [checkActionRequest] answers a response with [success = true] and a
    non-nil [QueryErr] with [(nil, nil)]: no request info, no error, and the
    error text is dropped.  With the leader cached it sends the query, and on
    such a response returns [(nil, nil)] and nothing else.  In the check loop
    of [ExecuteActionRequest] such a poll is one attempt that did not match:
    the turn sleeps once for the backoff and goes on with the count advanced
    from [i] to [i + 1], without leaving the loop or returning; so, after a
    started send, the RPC to the leader that follows it is the ActionRequest
    again when it was the sixth poll and a poll when it was an earlier one.
    [ExecuteActionRequest] goes on in the same way whatever the error text
    (and the data) of the response was, and whatever it returns later is
    read off a response that carried no query error. *)
Theorem query_error_is_no_request_info :
  (forall queryReq core ld queryRes msg,
      leaderID core = Some ld ->
      Success queryRes = true -> QueryErr queryRes = Some msg ->
      let poll := EvQuery ld queryReq (RPCOk queryRes) in
      can (checkActionRequest queryReq core) [] (Blocked (CQuery ld queryReq)) /\
      can (checkActionRequest queryReq core) [poll] (Returned (core, (None, None))) /\
      forall l' o,
        can (checkActionRequest queryReq core) (poll :: l') o ->
        l' = [] /\ (o = Running \/ o = Returned (core, (None, None)))) /\
  (forall queryReq reqID i core ld queryRes msg,
      0 <= i < maxCheckCountBeforeRetry ->
      leaderID core = Some ld ->
      Success queryRes = true -> QueryErr queryRes = Some msg ->
      let poll := EvQuery ld queryReq (RPCOk queryRes) in
      let nap := EvSleep (wrap64 (backOffDuration core * Millisecond)) in
      let next_turn := (i + 1, backed_off (set_leaderID None core)) in
      can (checkLoop_body queryReq reqID (i, core)) [poll; nap] (Returned (inl next_turn)) /\
      forall l' o,
        can (checkLoop_body queryReq reqID (i, core)) (poll :: l') o ->
        (l' = [] /\
         (o = Running \/ o = Blocked (CSleep (wrap64 (backOffDuration core * Millisecond))))) \/
        (l' = [nap] /\ (o = Running \/ o = Returned (inl next_turn)))) /\
  (forall act core pre s mid t req queryRes msg rest c,
      can (ExecuteActionRequest act core)
          (pre ++ s :: (mid ++ EvQuery t req (RPCOk queryRes) :: rest)) (Blocked c) ->
      Success queryRes = true -> QueryErr queryRes = Some msg ->
      send_ok s = true ->
      forallb (fun e => negb (is_send e)) mid = true ->
      forallb (fun e => negb (is_send e) && negb (is_poll e)) rest = true ->
      match c with
      | CAction _ _ => polls mid + 1 = maxCheckCountBeforeRetry
      | CQuery _ _ => polls mid + 1 < maxCheckCountBeforeRetry
      | _ => True
      end) /\
  (forall queryReq core l t req queryRes msg,
      can (checkActionRequest queryReq core)
          (l ++ [EvQuery t req (RPCOk queryRes)]) Running ->
      Success queryRes = true -> QueryErr queryRes = Some msg ->
      exists core',
        can (checkActionRequest queryReq core)
            (l ++ [EvQuery t req (RPCOk queryRes)])
            (Returned (core', (None, None))) /\
        forall l' o,
          can (checkActionRequest queryReq core)
              ((l ++ [EvQuery t req (RPCOk queryRes)]) ++ l') o ->
          l' = [] /\ (o = Running \/ o = Returned (core', (None, None)))) /\
  (forall act core l t req queryRes msg,
      can (ExecuteActionRequest act core)
          (l ++ [EvQuery t req (RPCOk queryRes)]) Running ->
      Success queryRes = true -> QueryErr queryRes = Some msg ->
      poll_matches (GetRequestID act) (EvQuery t req (RPCOk queryRes)) = false /\
      retried (ExecuteActionRequest act core) (nl core)
              (l ++ [EvQuery t req (RPCOk queryRes)]) /\
      forall data' msg' l' o,
        can (ExecuteActionRequest act core)
            (l ++ EvQuery t req (RPCOk queryRes) :: l') o <->
        can (ExecuteActionRequest act core)
            (l ++ EvQuery t req
               (RPCOk {| Success := true; Data := data'; QueryErr := Some msg' |}) :: l')
            o) /\
  (forall act core l core' ok msg,
      can (ExecuteActionRequest act core) l (Returned (core', (ok, msg))) ->
      exists l' t req queryRes info,
        l = l' ++ [EvQuery t req (RPCOk queryRes)] /\
        QueryErr queryRes = None /\
        Data queryRes = VRequestInfo info /\
        (ok, msg) = match Err info with
                    | Some m => (false, m)
                    | None => (true, "action success")
                    end).
Proof.
  assert (Hec : forall ld queryRes msg,
             Success queryRes = true -> QueryErr queryRes = Some msg ->
             check_result ld (RPCOk queryRes) = Some (None, None)).
  { intros ld queryRes msg Hs Hq. unfold check_result. now rewrite Hs, Hq. }
  destruct query_error_poll_on_every_prefix as (O1 & O2 & O3).
  split; [|split; [|split; [|split; [|split]]]]; [| | | exact O1 | exact O2 | exact O3].
  - intros queryReq core ld queryRes msg Eld Hs Hq poll.
    pose proof (Hec ld queryRes msg Hs Hq) as Ec.
    split; [|split].
    + apply (checkActionRequest_cached queryReq core _ _ Eld). auto.
    + apply (checkActionRequest_cached queryReq core _ _ Eld). right.
      exists (RPCOk queryRes). split; [reflexivity|]. right. now rewrite Ec.
    + intros l' o H. apply (checkActionRequest_cached queryReq core _ _ Eld) in H.
      destruct H as [[H _] | (res & H & Ho)]; [discriminate|].
      injection H as <- ->. split; [reflexivity|]. now rewrite Ec in Ho.
  - intros queryReq reqID i core ld queryRes msg Hi Eld Hs Hq poll nap next_turn.
    pose proof (Hec ld queryRes msg Hs Hq) as Ec.
    destruct (@checkLoop_body_unmatched queryReq reqID i core ld (RPCOk queryRes)
                None None (proj2 Hi) Eld Ec eq_refl) as (_ & _ & H3 & H4).
    cbv zeta in H3, H4.
    assert (Hw : wrap64 (i + 1) = i + 1)
      by (apply wrap64_small; unfold maxCheckCountBeforeRetry in Hi; lia).
    rewrite Hw in H3, H4.
    split; [exact H3 | exact H4].
  - intros act core pre s mid t req queryRes msg rest c Hcan _ _ Hs Hmid Hrest.
    eapply poll_uses_one_attempt; eauto.
Qed.

Lemma query_error_is_no_request_info_example :
  let record := {| Success := true; Data := VNil; QueryErr := Some "no request info" |} in
  let poll := EvQuery "n1" example_poll (RPCOk record) in
  can (checkActionRequest example_poll example_core) [poll]
      (Returned (example_core, (None, None))) /\
  can (checkLoop_body example_poll 7%N (5, example_core)) [poll; EvSleep (20 * Millisecond)]
      (Returned (inl (6, backed_off (set_leaderID None example_core)))).
Proof.
  intros record poll.
  destruct query_error_is_no_request_info as (H1 & H2 & _).
  destruct (H1 example_poll example_core "n1" record "no request info"
               eq_refl eq_refl eq_refl) as (_ & A & _).
  destruct (H2 example_poll 7%N 5 example_core "n1" record "no request info"
               ltac:(unfold maxCheckCountBeforeRetry; lia) eq_refl eq_refl eq_refl)
    as (B & _).
  split; [exact A | exact B].
Defined.

(** ** The unchecked type assertion *)

(** C10. [checkActionRequest] asserts, without a check, that the data of a
    response with [success = true] and no query error is a
    [sm.TSMRequestInfo].  With the leader cached it sends the query, and on
    such a response it returns the info with a nil error when the data is a
    [TSMRequestInfo], and panics when the data is of any other type (or nil):
    it neither returns an error nor does anything else, and the panic takes
    [ExecuteActionRequest] with it.  The same holds after any search for the
    leader; and if every such response of an execution carries a
    [TSMRequestInfo], the assertion never panics. *)
Theorem unchecked_type_assertion :
  (forall queryReq core ld queryRes,
      leaderID core = Some ld ->
      Success queryRes = true -> QueryErr queryRes = None ->
      let poll := EvQuery ld queryReq (RPCOk queryRes) in
      can (checkActionRequest queryReq core) [] (Blocked (CQuery ld queryReq)) /\
      (forall info,
          Data queryRes = VRequestInfo info ->
          can (checkActionRequest queryReq core) [poll]
              (Returned (core, (Some info, None))) /\
          forall l' o,
            can (checkActionRequest queryReq core) (poll :: l') o ->
            l' = [] /\ (o = Running \/ o = Returned (core, (Some info, None)))) /\
      ((forall info, Data queryRes <> VRequestInfo info) ->
       can (checkActionRequest queryReq core) [poll]
           (Blocked (CPanic not_a_request_info)) /\
       forall l' o,
         can (checkActionRequest queryReq core) (poll :: l') o ->
         l' = [] /\ (o = Running \/ o = Blocked (CPanic not_a_request_info)))) /\
  (forall act core ld queryRes,
      leaderID core = Some ld ->
      Success queryRes = true -> QueryErr queryRes = None ->
      (forall info, Data queryRes <> VRequestInfo info) ->
      let send := EvAction ld {| ActionCmd := act |} (RPCOk {| Started := true |}) in
      let poll := EvQuery ld {| QueryCmd := NewTSMLatestRequestQuery (clientID core) |}
                          (RPCOk queryRes) in
      can (ExecuteActionRequest act core) [send; poll]
          (Blocked (CPanic not_a_request_info)) /\
      forall l' o,
        can (ExecuteActionRequest act core) ([send; poll] ++ l') o ->
        l' = [] /\ (o = Running \/ o = Blocked (CPanic not_a_request_info))) /\
  (forall queryReq core,
    (forall l o,
        can (checkActionRequest queryReq core) l o ->
        (forall t req queryRes,
            In (EvQuery t req (RPCOk queryRes)) l ->
            Success queryRes = true -> QueryErr queryRes = None ->
            exists info, Data queryRes = VRequestInfo info) ->
        o <> Blocked (CPanic not_a_request_info)) /\
    (forall l t req queryRes,
        can (checkActionRequest queryReq core)
            (l ++ [EvQuery t req (RPCOk queryRes)]) Running ->
        Success queryRes = true -> QueryErr queryRes = None ->
        (forall info,
            Data queryRes = VRequestInfo info ->
            exists core',
              can (checkActionRequest queryReq core)
                  (l ++ [EvQuery t req (RPCOk queryRes)])
                  (Returned (core', (Some info, None)))) /\
        ((forall info, Data queryRes <> VRequestInfo info) ->
         can (checkActionRequest queryReq core)
             (l ++ [EvQuery t req (RPCOk queryRes)])
             (Blocked (CPanic not_a_request_info)) /\
         forall l' o,
           can (checkActionRequest queryReq core)
               ((l ++ [EvQuery t req (RPCOk queryRes)]) ++ l') o ->
           l' = [] /\ (o = Running \/ o = Blocked (CPanic not_a_request_info))))).
Proof.
  assert (Hbad : forall ld queryRes,
             Success queryRes = true -> QueryErr queryRes = None ->
             (forall info, Data queryRes <> VRequestInfo info) ->
             check_result ld (RPCOk queryRes) = None).
  { intros ld queryRes Hs Hq Hd. unfold check_result. rewrite Hs, Hq.
    destruct (Data queryRes) eqn:Ed; try reflexivity. now destruct (Hd info). }
  split; [|split; [|exact type_assertion_on_every_prefix]].
  - intros queryReq core ld queryRes Eld Hs Hq poll.
    split; [|split].
    + apply (checkActionRequest_cached queryReq core _ _ Eld). auto.
    + intros info Hd.
      assert (Ec : check_result ld (RPCOk queryRes) = Some (Some info, None))
        by (unfold check_result; now rewrite Hs, Hq, Hd).
      split.
      * apply (checkActionRequest_cached queryReq core _ _ Eld). right.
        exists (RPCOk queryRes). split; [reflexivity|]. right. now rewrite Ec.
      * intros l' o H. apply (checkActionRequest_cached queryReq core _ _ Eld) in H.
        destruct H as [[H _] | (res & H & Ho)]; [discriminate|].
        injection H as <- ->. split; [reflexivity|]. now rewrite Ec in Ho.
    + intros Hd. pose proof (Hbad ld queryRes Hs Hq Hd) as Ec. split.
      * apply (checkActionRequest_cached queryReq core _ _ Eld). right.
        exists (RPCOk queryRes). split; [reflexivity|]. right. now rewrite Ec.
      * intros l' o H. apply (checkActionRequest_cached queryReq core _ _ Eld) in H.
        destruct H as [[H _] | (res & H & Ho)]; [discriminate|].
        injection H as <- ->. split; [reflexivity|]. now rewrite Ec in Ho.
  - intros act core ld queryRes Eld Hs Hq Hd send poll.
    pose proof (Hbad ld queryRes Hs Hq Hd) as Ec.
    assert (Hp : pending (action_machine act core) = Some (CAction ld {| ActionCmd := act |}))
      by (unfold pending; cbn; now rewrite Eld).
    assert (Hnext : next (action_machine act core) send =
                    mkMachine (Head (Poll (job_of act core) 0)) (resetBackOffDuration core))
      by (unfold next; cbn; now rewrite Eld).
    assert (Hp' : pending (next (action_machine act core) send) =
                  Some (call_of_event poll))
      by (rewrite Hnext; unfold pending; cbn; now rewrite Eld).
    assert (Hnext' : next (next (action_machine act core) send) poll =
                     mkMachine (Panicked not_a_request_info) (resetBackOffDuration core)).
    { rewrite Hnext. unfold next, poll. cbn -[check_result]. now rewrite Eld, Ec. }
    assert (Hv : valid (action_machine act core) [send; poll])
      by (split; [exact Hp | split; [exact Hp' | exact I]]).
    assert (Hrun : run (action_machine act core) [send; poll] =
                   mkMachine (Panicked not_a_request_info) (resetBackOffDuration core))
      by (unfold run; cbn [fold_left]; exact Hnext').
    split.
    + apply ExecuteActionRequest_machine. split; [exact Hv|]. now rewrite Hrun.
    + intros l' o H. apply ExecuteActionRequest_machine in H. destruct H as [Hv' Ho].
      apply valid_app in Hv'. destruct Hv' as [_ Hv']. rewrite Hrun in Hv'.
      apply valid_panicked with (reason := not_a_request_info) in Hv'; [|reflexivity].
      subst l'. split; [reflexivity|]. rewrite app_nil_r, Hrun in Ho.
      destruct o as [| k | r]; auto.
      * right. cbn in Ho. congruence.
      * unfold action_ret in Ho. discriminate.
Qed.

(** A response that says it succeeded but carries a number. *)
Definition odd_answer : QueryRes :=
  {| Success := true; Data := VInt 42; QueryErr := None |}.

Lemma unchecked_type_assertion_example :
  let poll := EvQuery "n1" example_poll (RPCOk odd_answer) in
  can (checkActionRequest example_poll example_core) [] (Blocked (CQuery "n1" example_poll)) /\
  can (checkActionRequest example_poll example_core) [poll]
      (Blocked (CPanic not_a_request_info)) /\
  can (ExecuteActionRequest example_action example_core)
      [EvAction "n1" example_send started; poll] (Blocked (CPanic not_a_request_info)) /\
  can (checkActionRequest example_poll example_core)
      [EvQuery "n1" example_poll (RPCOk our_answer)]
      (Returned (example_core, (Some our_info, None))).
Proof.
  intros poll.
  destruct unchecked_type_assertion as (H1 & H2 & _).
  destruct (H1 example_poll example_core "n1" odd_answer eq_refl eq_refl eq_refl)
    as (A & _ & B).
  destruct B as [B _]; [intros info; discriminate|].
  destruct (H2 example_action example_core "n1" odd_answer eq_refl eq_refl eq_refl)
    as [C _]; [intros info; discriminate|].
  destruct (H1 example_poll example_core "n1" our_answer eq_refl eq_refl eq_refl)
    as (_ & D & _).
  destruct (D our_info eq_refl) as [D' _].
  repeat split; assumption.
Defined.
